(** * bodyguard: the matching engine of [bodyguard.go]

    A shallow embedding of the JSON assertion engine: the literal dispatch
    of [match], the type, string and time predicates, and the four
    container matchers [Object], [StrictObject], [Array] and
    [UnorderedArray], then the entry point [Assert], the numeric
    predicates on binary64 floats and the predicates [UUID], [Email] and
    [URL], built on a fixed regular expression.  Matchers are Go closures;
    they are Rocq functions here. *)

From Stdlib Require Import ZArith Zpower Ascii Floats.SpecFloat.
From stdpp Require Import gmap strings list fin_maps pretty.

#[local] Set Warnings "-register-all".

(** ** Go values

    [Value] is what an [interface{}] holds when it carries plain data: the
    six shapes [json.Unmarshal] produces ([nil], [bool], [float64],
    [string], [[]interface{}], [map[string]interface{}]) and the numeric
    kinds a caller can write as a literal.  Integers are unbounded [Z]
    together with their Go type; floats are IEEE 754 values of the
    specification type [spec_float].  Slices and maps are never [nil]
    here, as in a decoded document. *)

Inductive int_type := int | int8 | int16 | int32 | int64.
Inductive uint_type := uint | uint8 | uint16 | uint32 | uint64 | uintptr.

Inductive Value :=
| VNil
| VBool (b : bool)
| VInt (t : int_type) (n : Z)
| VUint (t : uint_type) (n : Z)
| VFloat32 (f : spec_float)
| VFloat64 (f : spec_float)
| VString (s : string)
| VSlice (l : list Value)
| VMap (m : gmap string Value).

#[global] Instance Value_inhabited : Inhabited Value := populate VNil.
#[global] Instance int_type_eq_dec : EqDecision int_type.
Proof. solve_decision. Defined.
#[global] Instance uint_type_eq_dec : EqDecision uint_type.
Proof. solve_decision. Defined.

(** [float64(n)] for an integer [n]: rounding to nearest even at 53 bits. *)
Definition float64_of_Z (n : Z) : spec_float := binary_normalize 53 1024 n 0 false.

(** A JSON number decodes to a finite binary64 value. *)
Definition finite64 (f : spec_float) : bool :=
  valid_binary 53 1024 f &&
  match f with
  | S754_zero _ | S754_finite _ _ _ => true
  | S754_infinity _ | S754_nan => false
  end.

(** The decoded JSON number whose text is the integer [n]. *)
Definition number (n : Z) : Value := VFloat64 (float64_of_Z n).

(** [float64(f)] for a [float32] value [f]: the same number at 53 bits. *)
Definition float64_of_float32 (f : spec_float) : spec_float :=
  match f with
  | S754_finite s m e => binary_normalize 53 1024 (if s then Z.neg m else Z.pos m) e false
  | _ => f
  end.

(** The decoded form of a scalar literal written as JSON: every number
    becomes a [float64]; [null], booleans and strings are themselves. *)
Definition json_image (v : Value) : Value :=
  match v with
  | VInt _ n | VUint _ n => number n
  | VFloat32 f => VFloat64 (float64_of_float32 f)
  | _ => v
  end.

(** Whether a value has one of the dynamic types of a decoded document. *)
Definition decoded_type (v : Value) : bool :=
  match v with
  | VInt _ _ | VUint _ _ | VFloat32 _ => false
  | _ => true
  end.

(** ** The part of package [reflect] that [match] uses *)

Module reflect.

Inductive Kind :=
| Invalid | Bool
| Int | Int8 | Int16 | Int32 | Int64
| Uint | Uint8 | Uint16 | Uint32 | Uint64 | Uintptr
| Float32 | Float64 | Map | Slice | String.

(** [reflect.ValueOf(v).Kind()] *)
Definition Kind_of (v : Value) : Kind :=
  match v with
  | VNil => Invalid
  | VBool _ => Bool
  | VInt int _ => Int
  | VInt int8 _ => Int8
  | VInt int16 _ => Int16
  | VInt int32 _ => Int32
  | VInt int64 _ => Int64
  | VUint uint _ => Uint
  | VUint uint8 _ => Uint8
  | VUint uint16 _ => Uint16
  | VUint uint32 _ => Uint32
  | VUint uint64 _ => Uint64
  | VUint uintptr _ => Uintptr
  | VFloat32 _ => Float32
  | VFloat64 _ => Float64
  | VString _ => String
  | VSlice _ => Slice
  | VMap _ => Map
  end.

(** [reflect.ValueOf(v).Int()]; only called on the signed kinds. *)
Definition Int_of (v : Value) : Z :=
  match v with
  | VInt _ n => n
  | _ => 0
  end.

(** [reflect.DeepEqual] on values of distinct storage: equal dynamic
    types, then equal contents; floats by [==]. *)
Fixpoint DeepEqual (x y : Value) : bool :=
  match x, y with
  | VNil, VNil => true
  | VBool a, VBool b => bool_decide (a = b)
  | VInt t1 a, VInt t2 b => bool_decide (t1 = t2) && bool_decide (a = b)
  | VUint t1 a, VUint t2 b => bool_decide (t1 = t2) && bool_decide (a = b)
  | VFloat32 a, VFloat32 b => SFeqb a b
  | VFloat64 a, VFloat64 b => SFeqb a b
  | VString a, VString b => bool_decide (a = b)
  | VSlice l1, VSlice l2 =>
      (fix elems l1 l2 :=
         match l1, l2 with
         | [], [] => true
         | a :: l1, b :: l2 => DeepEqual a b && elems l1 l2
         | _, _ => false
         end) l1 l2
  | VMap m1, VMap m2 =>
      bool_decide (size m1 = size m2) &&
      map_fold (λ k a acc,
                  acc && match m2 !! k with
                         | Some b => DeepEqual a b
                         | None => false
                         end) true m1
  | _, _ => false
  end.

End reflect.

(** ** Expected nodes, errors and results

    An expected node is a literal or a [Matcher].  [fmt.Errorf] is kept as
    the format string with its operands; a [Result] is the [error] a call
    returns ([OK] for [nil]) or the panic that ends it. *)

Inductive Expected :=
| Lit (v : Value)
| Matcher (m : string → Value → Result)
with Result :=
| OK
| Fail (err : Error)
| Panic (msg : string)
with Error :=
| Errorf (format : string) (args : list Arg)
| ErrorString (msg : string)
with Arg :=
| ArgValue (v : Value)
| ArgExpected (e : Expected)
| ArgError (err : Error)
| ArgStrings (l : list string)
| ArgTime (t : Z).

Definition MatcherFunc : Type := string → Value → Result.

Definition ArgString (s : string) : Arg := ArgValue (VString s).
Definition ArgInt (n : nat) : Arg := ArgValue (VInt int (Z.of_nat n)).

(** ** The part of package [fmt] the messages need

    [Error_string] is [err.Error()]: the format string of [fmt.Errorf]
    rendered with its operands.  The rendering is partial: it is given
    where the printed form is plain ([%s], [%d], [%T], [%w], [%q] of
    printable ASCII, [%v] of [nil], booleans, integers, strings, lists of
    these and floats that print without exponent or fraction) and is
    [None] elsewhere (other floats, maps, times, function values). *)

Module fmt.

Definition double_quote : string := String (ascii_of_nat 34) EmptyString.
Definition backslash : string := String (ascii_of_nat 92) EmptyString.

(** [%T] *)
Definition type_name (v : Value) : string :=
  match v with
  | VNil => "<nil>"
  | VBool _ => "bool"
  | VInt int _ => "int"
  | VInt int8 _ => "int8"
  | VInt int16 _ => "int16"
  | VInt int32 _ => "int32"
  | VInt int64 _ => "int64"
  | VUint uint _ => "uint"
  | VUint uint8 _ => "uint8"
  | VUint uint16 _ => "uint16"
  | VUint uint32 _ => "uint32"
  | VUint uint64 _ => "uint64"
  | VUint uintptr _ => "uintptr"
  | VFloat32 _ => "float32"
  | VFloat64 _ => "float64"
  | VString _ => "string"
  | VSlice _ => "[]interface {}"
  | VMap _ => "map[string]interface {}"
  end.

(** The integer a finite float denotes, when it denotes one. *)
Definition integer_of_float (f : spec_float) : option Z :=
  match f with
  | S754_finite s m e =>
      let sign (n : Z) := if s then (- n)%Z else n in
      match e with
      | Z0 => Some (sign (Z.pos m))
      | Z.pos p => Some (sign (Z.pos m * 2 ^ Z.pos p)%Z)
      | Z.neg p =>
          if (Z.pos m mod 2 ^ Z.pos p =? 0)%Z
          then Some (sign (Z.pos m / 2 ^ Z.pos p)%Z)
          else None
      end
  | _ => None
  end.

(** [%v] of a [float64]: format [g] with the shortest digits.  An
    integer of fewer than seven digits prints as that integer. *)
Definition format_float (f : spec_float) : option string :=
  match f with
  | S754_zero s => Some (if s then "-0" else "0")
  | S754_infinity s => Some (if s then "-Inf" else "+Inf")
  | S754_nan => Some "NaN"
  | S754_finite _ _ _ =>
      match integer_of_float f with
      | Some n => if (Z.abs n <? 1000000)%Z then Some (pretty n) else None
      | None => None
      end
  end.

(** [%v] *)
Fixpoint format_value (v : Value) : option string :=
  match v with
  | VNil => Some "<nil>"
  | VBool b => Some (if b then "true" else "false")
  | VInt _ n | VUint _ n => Some (pretty n)
  | VFloat64 f => format_float f
  | VString s => Some s
  | VSlice l =>
      (fix elems (l : list Value) : option (list string) :=
         match l with
         | [] => Some []
         | x :: l =>
             match format_value x, elems l with
             | Some s, Some ss => Some (s :: ss)
             | _, _ => None
             end
         end) l
      ≫= λ ss, Some ("[" +:+ String.concat " " ss +:+ "]")
  | VFloat32 _ | VMap _ => None
  end.

(** [%q] of a string of printable ASCII. *)
Fixpoint quote_body (s : string) : option string :=
  match s with
  | EmptyString => Some EmptyString
  | String c s =>
      let n := nat_of_ascii c in
      match quote_body s with
      | None => None
      | Some r =>
          if bool_decide (n = 34) then Some (backslash +:+ double_quote +:+ r)
          else if bool_decide (n = 92) then Some (backslash +:+ backslash +:+ r)
          else if bool_decide (32 ≤ n ≤ 126) then Some (String c r)
          else None
      end
  end.

Definition quote (s : string) : option string :=
  quote_body s ≫= λ r, Some (double_quote +:+ r +:+ double_quote).

(** One operand under one verb. *)
Definition format_operand (verb : ascii) (v : Value) : option string :=
  if bool_decide (verb = "T"%char) then Some (type_name v)
  else if bool_decide (verb = "v"%char) then format_value v
  else if bool_decide (verb = "s"%char) then
    match v with VString s => Some s | _ => None end
  else if bool_decide (verb = "q"%char) then
    match v with VString s => quote s | _ => None end
  else if bool_decide (verb = "d"%char) then
    match v with VInt _ n | VUint _ n => Some (pretty n) | _ => None end
  else None.

(** The format string with each verb replaced by its operand, the
    operands being given as renderers. *)
Fixpoint Sprintf (format : string) (operands : list (ascii → option string))
    : option string :=
  match format with
  | EmptyString => match operands with [] => Some EmptyString | _ => None end
  | String c format' =>
      if bool_decide (c = "%"%char) then
        match format', operands with
        | String verb rest, operand :: operands' =>
            match operand verb, Sprintf rest operands' with
            | Some s, Some r => Some (s +:+ r)
            | _, _ => None
            end
        | _, _ => None
        end
      else String c <$> Sprintf format' operands
  end.

(** [err.Error()] *)
Fixpoint Error_string (err : Error) : option string :=
  match err with
  | ErrorString msg => Some msg
  | Errorf format args =>
      Sprintf format
        ((fix operands (args : list Arg) : list (ascii → option string) :=
            match args with
            | [] => []
            | arg :: args =>
                match arg with
                | ArgValue v => λ verb, format_operand verb v
                | ArgExpected (Lit v) => λ verb, format_operand verb v
                | ArgExpected (Matcher _) => λ _, None
                | ArgError e =>
                    let msg := Error_string e in
                    λ verb,
                      if bool_decide (verb = "w"%char) || bool_decide (verb = "v"%char)
                      then msg else None
                | ArgStrings l =>
                    λ verb,
                      if bool_decide (verb = "v"%char)
                      then Some ("[" +:+ String.concat " " l +:+ "]") else None
                | ArgTime _ => λ _, None
                end :: operands args
            end) args)
  end.

(** The message of a failed match. *)
Definition message (r : Result) : option string :=
  match r with
  | Fail err => Error_string err
  | _ => None
  end.

End fmt.

(** ** Imported packages

    What the engine takes from its environment: the order in which
    [range] visits a map (unspecified in Go, so any enumeration of the
    entries), and the packages [regexp], [time] and [encoding/json]. *)

Class MapRange := {
  range : ∀ {V : Type}, gmap string V → list (string * V);
  range_perm : ∀ {V : Type} (m : gmap string V), range m ≡ₚ map_to_list m
}.

Module regexp.
Class Pkg := {
  Regexp : Type;
  Compile : string → Regexp + Error;
  MatchString : Regexp → string → bool
}.
End regexp.

(** The part of package [unicode/utf8] that matching needs: a regular
    expression reads its text rune by rune, and a byte that starts no
    valid sequence is read as the rune [RuneError], of width one. *)
Module utf8.

Definition RuneError : Z := 0xFFFD.

Definition byte (c : ascii) : Z := Z.of_N (N_of_ascii c).

(** For the first byte of a sequence of several bytes: the size of the
    sequence and the range of its second byte. *)
Definition first (s0 : Z) : option (nat * (Z * Z)) :=
  if (0xC2 <=? s0)%Z && (s0 <=? 0xDF)%Z then Some (2, (0x80, 0xBF)%Z)
  else if (s0 =? 0xE0)%Z then Some (3, (0xA0, 0xBF)%Z)
  else if (0xE1 <=? s0)%Z && (s0 <=? 0xEC)%Z then Some (3, (0x80, 0xBF)%Z)
  else if (s0 =? 0xED)%Z then Some (3, (0x80, 0x9F)%Z)
  else if (0xEE <=? s0)%Z && (s0 <=? 0xEF)%Z then Some (3, (0x80, 0xBF)%Z)
  else if (s0 =? 0xF0)%Z then Some (4, (0x90, 0xBF)%Z)
  else if (0xF1 <=? s0)%Z && (s0 <=? 0xF3)%Z then Some (4, (0x80, 0xBF)%Z)
  else if (s0 =? 0xF4)%Z then Some (4, (0x80, 0x8F)%Z)
  else None.

(** Whether a byte continues a sequence. *)
Definition continuation (b : Z) : bool := (0x80 <=? b)%Z && (b <=? 0xBF)%Z.

(** The first rune of a text and its width in bytes. *)
Definition DecodeRuneInString (s : list ascii) : Z * nat :=
  match s with
  | [] => (RuneError, 0)
  | c0 :: rest =>
      let s0 := byte c0 in
      if (s0 <? 0x80)%Z then (s0, 1)
      else
        match first s0 with
        | None => (RuneError, 1)
        | Some (sz, (lo, hi)) =>
            if length s <? sz then (RuneError, 1)
            else
              match rest with
              | [] => (RuneError, 1)
              | c1 :: rest =>
                  let s1 := byte c1 in
                  if (s1 <? lo)%Z || (hi <? s1)%Z then (RuneError, 1)
                  else if sz <=? 2
                  then (Z.lor (Z.shiftl (Z.land s0 0x1F) 6) (Z.land s1 0x3F), 2)
                  else
                    match rest with
                    | [] => (RuneError, 1)
                    | c2 :: rest =>
                        let s2 := byte c2 in
                        if negb (continuation s2) then (RuneError, 1)
                        else if sz <=? 3
                        then (Z.lor (Z.lor (Z.shiftl (Z.land s0 0x0F) 12)
                                            (Z.shiftl (Z.land s1 0x3F) 6))
                                (Z.land s2 0x3F), 3)
                        else
                          match rest with
                          | [] => (RuneError, 1)
                          | c3 :: _ =>
                              let s3 := byte c3 in
                              if negb (continuation s3) then (RuneError, 1)
                              else (Z.lor (Z.lor (Z.lor (Z.shiftl (Z.land s0 0x07) 18)
                                                         (Z.shiftl (Z.land s1 0x3F) 12))
                                             (Z.shiftl (Z.land s2 0x3F) 6))
                                      (Z.land s3 0x3F), 4)
                          end
                    end
              end
        end
  end.

End utf8.

(** The regular expressions the package compiles from constant patterns
    are given by their syntax trees, as package [regexp/syntax] reads
    them: literals, character classes as lists of ranges, the negated
    classes, the dot, concatenation, alternation and repetition.  The
    patterns stand between [^] and [$], so [MatchString] asks for a match
    of the whole text, taken rune by rune; it is decided by
    derivatives. *)
Module syntax.

Inductive Regexp :=
| NoMatch
| EmptyMatch
| Literal (c : ascii)
| CharClass (ranges : list (ascii * ascii))
| NotCharClass (ranges : list (ascii * ascii))
| AnyCharNotNL
| Concat (r1 r2 : Regexp)
| Alternate (r1 r2 : Regexp)
| Star (r : Regexp).

(** [r+] *)
Definition Plus (r : Regexp) : Regexp := Concat r (Star r).

(** [r?] *)
Definition Quest (r : Regexp) : Regexp := Alternate EmptyMatch r.

(** [r{n}] *)
Fixpoint Exactly (n : nat) (r : Regexp) : Regexp :=
  match n with
  | 0 => EmptyMatch
  | S n => Concat r (Exactly n r)
  end.

(** [r{0,n}] *)
Fixpoint AtMost (n : nat) (r : Regexp) : Regexp :=
  match n with
  | 0 => EmptyMatch
  | S n => Quest (Concat r (AtMost n r))
  end.

(** [r{min,max}] *)
Definition Repeat (min max : nat) (r : Regexp) : Regexp :=
  Concat (Exactly min r) (AtMost (max - min) r).

(** The literal text [s]. *)
Fixpoint Literals (s : list ascii) : Regexp :=
  match s with
  | [] => EmptyMatch
  | c :: s => Concat (Literal c) (Literals s)
  end.

(** Whether a rune lies in one of the ranges of a class. *)
Definition in_class (ranges : list (ascii * ascii)) (r : Z) : bool :=
  existsb (λ range, (utf8.byte range.1 <=? r)%Z && (r <=? utf8.byte range.2)%Z) ranges.

Fixpoint nullable (r : Regexp) : bool :=
  match r with
  | NoMatch | Literal _ | CharClass _ | NotCharClass _ | AnyCharNotNL => false
  | EmptyMatch | Star _ => true
  | Concat r1 r2 => nullable r1 && nullable r2
  | Alternate r1 r2 => nullable r1 || nullable r2
  end.

(** What is left of [r] to match after the rune [c]. *)
Fixpoint derivative (c : Z) (r : Regexp) : Regexp :=
  match r with
  | NoMatch | EmptyMatch => NoMatch
  | Literal c' => if bool_decide (utf8.byte c' = c) then EmptyMatch else NoMatch
  | CharClass ranges => if in_class ranges c then EmptyMatch else NoMatch
  | NotCharClass ranges => if in_class ranges c then NoMatch else EmptyMatch
  | AnyCharNotNL => if bool_decide (c = 0x0A%Z) then NoMatch else EmptyMatch
  | Concat r1 r2 =>
      if nullable r1
      then Alternate (Concat (derivative c r1) r2) (derivative c r2)
      else Concat (derivative c r1) r2
  | Alternate r1 r2 => Alternate (derivative c r1) (derivative c r2)
  | Star r => Concat (derivative c r) (Star r)
  end.

Fixpoint matches (r : Regexp) (text : list Z) : bool :=
  match text with
  | [] => nullable r
  | c :: text => matches (derivative c r) text
  end.

(** The runes of a text: one step of at least one byte for each. *)
Fixpoint runes_loop (steps : nat) (s : list ascii) : list Z :=
  match steps, s with
  | S steps, _ :: _ =>
      let '(r, width) := utf8.DecodeRuneInString s in
      r :: runes_loop steps (drop width s)
  | _, _ => []
  end.

Definition runes (s : list ascii) : list Z := runes_loop (length s) s.

(** [re.MatchString(s)] for a pattern [^r$]. *)
Definition MatchString (r : Regexp) (s : string) : bool :=
  matches r (runes (String.list_ascii_of_string s)).

(** The texts a regular expression denotes. *)
Inductive denotes : Regexp → list Z → Prop :=
| denotes_EmptyMatch : denotes EmptyMatch []
| denotes_Literal c : denotes (Literal c) [utf8.byte c]
| denotes_CharClass ranges c : in_class ranges c = true → denotes (CharClass ranges) [c]
| denotes_NotCharClass ranges c :
    in_class ranges c = false → denotes (NotCharClass ranges) [c]
| denotes_AnyCharNotNL c : c ≠ 0x0A%Z → denotes AnyCharNotNL [c]
| denotes_Concat r1 r2 s1 s2 :
    denotes r1 s1 → denotes r2 s2 → denotes (Concat r1 r2) (s1 ++ s2)
| denotes_Alternate_l r1 r2 s : denotes r1 s → denotes (Alternate r1 r2) s
| denotes_Alternate_r r1 r2 s : denotes r2 s → denotes (Alternate r1 r2) s
| denotes_Star_nil r : denotes (Star r) []
| denotes_Star_app r s1 s2 :
    denotes r s1 → denotes (Star r) s2 → denotes (Star r) (s1 ++ s2).

End syntax.

Module time.
(** A [time.Time] is an instant, in nanoseconds. *)
Definition Time : Type := Z.
Definition Before (t u : Time) : bool := bool_decide (t < u)%Z.
Definition After (t u : Time) : bool := bool_decide (u < t)%Z.
Definition RFC3339 : string := "2006-01-02T15:04:05Z07:00".
Class Pkg := { Parse : string → string → Time + Error }.

(** A [time.Duration] is a count of nanoseconds in an [int64]. *)
Definition Duration : Type := Z.
Definition Second : Duration := 1000000000%Z.
Definition minDuration : Duration := (- 2 ^ 63)%Z.
Definition maxDuration : Duration := (2 ^ 63 - 1)%Z.

(** [t.Sub(u)]: the difference, saturated to the range of [Duration]. *)
Definition Sub (t u : Time) : Duration :=
  let d := (t - u)%Z in
  if (d <? minDuration)%Z then minDuration
  else if (maxDuration <? d)%Z then maxDuration
  else d.

(** [d.Seconds()]: [float64(sec) + float64(nsec)/1e9] with [sec := d / Second]
    and [nsec := d % Second], both truncated toward zero. *)
Definition Seconds (d : Duration) : spec_float :=
  SFadd 53 1024 (float64_of_Z (Z.quot d Second))
    (SFdiv 53 1024 (float64_of_Z (Z.rem d Second)) (float64_of_Z 1000000000)).
End time.

(** [math.Trunc]: the integer part of a float, by clearing the bits of
    the mantissa below the binary point; a value below one in magnitude
    gives a zero of its sign, and zeros, infinities and NaN are returned
    as they are. *)
Module math.

Definition Trunc (x : spec_float) : spec_float :=
  match x with
  | S754_finite s m e =>
      if (0 <=? e)%Z then x
      else
        match Z.shiftl (Z.shiftr (Zpos m) (- e)) (- e) with
        | Zpos m' => S754_finite s m' e
        | _ => S754_zero s
        end
  | _ => x
  end.

End math.

Module testing.
(** A [*testing.T], as far as [Assert] uses it: the errors reported so far;
    the test has failed when there is one. *)
Definition T : Type := list Error.
Definition Error_ (t : T) (err : Error) : T := t ++ [err].
Definition Failed (t : T) : bool := match t with [] => false | _ => true end.
End testing.

Module json.
Class Pkg := { Unmarshal : string → Value + Error }.
End json.

(** ** Package [bodyguard] *)

Module bodyguard.

(** *** [match]: literal dispatch with the numeric coercion *)

Definition match_ (expected : Expected) (path : string) (actual : Value) : Result :=
  match expected with
  | Matcher m => m path actual
  | Lit v =>
      if reflect.DeepEqual v actual then OK
      else
        let matched :=
          match reflect.Kind_of v with
          | reflect.Int | reflect.Int8 | reflect.Int16 | reflect.Int32 | reflect.Int64 =>
              match actual with
              | VFloat64 f64 => SFeqb (float64_of_Z (reflect.Int_of v)) f64
              | _ => false
              end
          | _ => false
          end in
        if matched then OK
        else Fail (Errorf "at %s: expected %v (%T), got %v (%T)"
                     [ArgString path; ArgValue v; ArgValue v;
                      ArgValue actual; ArgValue actual])
  end.

(** The body handed to [Assert]: a [string], a [[]byte], or anything else. *)
Inductive Body :=
| BodyString (b : string)
| BodyBytes (b : string)
| BodyOther (b : Value).

Definition isMatch `{!json.Pkg} (body : Body) (expected : Expected) : Result :=
  match body with
  | BodyOther b =>
      Fail (Errorf "body must be string or []byte, got %T" [ArgValue b])
  | BodyString bodyBytes | BodyBytes bodyBytes =>
      match json.Unmarshal bodyBytes with
      | inr err => Fail (Errorf "invalid json: %w" [ArgError err])
      | inl actual => match_ expected "$" actual
      end
  end.

(** *** Type predicates *)

Definition Null : Expected :=
  Matcher (λ path value,
    match value with
    | VNil => OK
    | _ => Fail (Errorf "at %s: expected null, got %v" [ArgString path; ArgValue value])
    end).

Definition Bool : Expected :=
  Matcher (λ path value,
    match value with
    | VBool _ => OK
    | _ => Fail (Errorf "at %s: expected boolean, got %T" [ArgString path; ArgValue value])
    end).

Definition Number : Expected :=
  Matcher (λ path value,
    match value with
    | VFloat64 _ => OK
    | _ => Fail (Errorf "at %s: expected number, got %T" [ArgString path; ArgValue value])
    end).

(** *** String predicates *)

Fixpoint stringValue_loop (path s : string) (validators : list (string → Result)) : Result :=
  match validators with
  | [] => OK
  | v :: validators =>
      match v s with
      | OK => stringValue_loop path s validators
      | Fail err => Fail (Errorf "at %s: %w" [ArgString path; ArgError err])
      | Panic msg => Panic msg
      end
  end.

Definition stringValue (validators : list (string → Result)) : Expected :=
  Matcher (λ path value,
    match value with
    | VString s => stringValue_loop path s validators
    | _ => Fail (Errorf "at %s: expected string, got %T" [ArgString path; ArgValue value])
    end).

Definition String : Expected := stringValue [].

Definition Regexp `{!regexp.Pkg} (pattern : string) : Expected :=
  let compiled := regexp.Compile pattern in
  stringValue [λ s,
    match compiled with
    | inr err =>
        Fail (Errorf "invalid regexp pattern %q: %w" [ArgString pattern; ArgError err])
    | inl re =>
        if negb (regexp.MatchString re s)
        then Fail (Errorf "expected to match %q, got %q" [ArgString pattern; ArgString s])
        else OK
    end].

Fixpoint OneOf_loop (s : string) (options : list string) : bool :=
  match options with
  | [] => false
  | opt :: options => if bool_decide (s = opt) then true else OneOf_loop s options
  end.

Definition OneOf (options : list string) : Expected :=
  stringValue [λ s,
    if OneOf_loop s options then OK
    else Fail (Errorf "expected one of %v, got %q" [ArgStrings options; ArgString s])].

Definition StringWithFormat (formatCheck : string → Result) : Expected :=
  stringValue [formatCheck].

(** *** Time predicates *)

Fixpoint timeValue_loop (path : string) (parsed : time.Time)
    (validators : list (time.Time → Result)) : Result :=
  match validators with
  | [] => OK
  | v :: validators =>
      match v parsed with
      | OK => timeValue_loop path parsed validators
      | Fail err => Fail (Errorf "at %s: %w" [ArgString path; ArgError err])
      | Panic msg => Panic msg
      end
  end.

Definition timeValue (parser : string → time.Time + Error)
    (validators : list (time.Time → Result)) : Expected :=
  Matcher (λ path value,
    match value with
    | VString s =>
        match parser s with
        | inr err => Fail (Errorf "at %s: %w" [ArgString path; ArgError err])
        | inl parsed => timeValue_loop path parsed validators
        end
    | _ => Fail (Errorf "at %s: expected time string, got %T" [ArgString path; ArgValue value])
    end).

Definition rfc3339Parser `{!time.Pkg} (s : string) : time.Time + Error :=
  time.Parse time.RFC3339 s.

Definition Timestamp `{!time.Pkg} : Expected := timeValue rfc3339Parser [].

Definition TimeWithinRange `{!time.Pkg} (startTime endTime : time.Time) : Expected :=
  timeValue rfc3339Parser [λ parsed,
    if time.Before parsed startTime || time.After parsed endTime
    then Fail (Errorf "expected time between %v and %v, got %v"
                 [ArgTime startTime; ArgTime endTime; ArgTime parsed])
    else OK].

Definition TimeBefore `{!time.Pkg} (before : time.Time) : Expected :=
  timeValue rfc3339Parser [λ parsed,
    if negb (time.Before parsed before)
    then Fail (Errorf "expected time before %v, got %v" [ArgTime before; ArgTime parsed])
    else OK].

Definition TimeAfter `{!time.Pkg} (after : time.Time) : Expected :=
  timeValue rfc3339Parser [λ parsed,
    if negb (time.After parsed after)
    then Fail (Errorf "expected time after %v, got %v" [ArgTime after; ArgTime parsed])
    else OK].

(** *** Objects *)

(** The loop [for key, expectedVal := range expected] shared by [Object]
    and [StrictObject], over the entries in the order [range] gave. *)
Fixpoint Object_loop (path : string) (actualMap : gmap string Value)
    (entries : list (string * Expected)) : Result :=
  match entries with
  | [] => OK
  | (key, expectedVal) :: entries =>
      match actualMap !! key with
      | None => Fail (Errorf "at %s: missing key %q" [ArgString path; ArgString key])
      | Some actualVal =>
          let childPath := path +:+ "." +:+ key in
          match match_ expectedVal childPath actualVal with
          | OK => Object_loop path actualMap entries
          | r => r
          end
      end
  end.

Definition Object `{!MapRange} (expected : gmap string Expected) : Expected :=
  Matcher (λ path value,
    match value with
    | VMap actualMap => Object_loop path actualMap (range expected)
    | _ => Fail (Errorf "at %s: expected object, got %T" [ArgString path; ArgValue value])
    end).

(** The loop [for key := range actualMap] of [StrictObject]. *)
Fixpoint StrictObject_keys (path : string) (expected : gmap string Expected)
    (entries : list (string * Value)) : Result :=
  match entries with
  | [] => OK
  | (key, _) :: entries =>
      match expected !! key with
      | None => Fail (Errorf "at %s: unexpected key %q" [ArgString path; ArgString key])
      | Some _ => StrictObject_keys path expected entries
      end
  end.

Definition StrictObject `{!MapRange} (expected : gmap string Expected) : Expected :=
  Matcher (λ path value,
    match value with
    | VMap actualMap =>
        match StrictObject_keys path expected (range actualMap) with
        | OK => Object_loop path actualMap (range expected)
        | r => r
        end
    | _ => Fail (Errorf "at %s: expected object, got %T" [ArgString path; ArgValue value])
    end).

(** *** Arrays *)

(** [for i, expected := range elements], reading [arr[i]]. *)
Fixpoint Array_loop (path : string) (arr : list Value) (i : nat)
    (elements : list Expected) : Result :=
  match elements with
  | [] => OK
  | expected :: elements =>
      let childPath := path +:+ "[" +:+ pretty i +:+ "]" in
      match arr !! i with
      | None => Panic "index out of range"
      | Some actual =>
          match match_ expected childPath actual with
          | OK => Array_loop path arr (S i) elements
          | r => r
          end
      end
  end.

Definition Array (elements : list Expected) : Expected :=
  Matcher (λ path value,
    match value with
    | VSlice arr =>
        if negb (bool_decide (length arr = length elements))
        then Fail (Errorf "at %s: expected array length %d, got %d"
                     [ArgString path; ArgInt (length elements); ArgInt (length arr)])
        else Array_loop path arr 0 elements
    | _ => Fail (Errorf "at %s: expected array, got %T" [ArgString path; ArgValue value])
    end).

(** The inner loop of [UnorderedArray]: the first index [j] at or after
    the current one with [used[j]] unset whose element matches. *)
Inductive Probe :=
| Found (j : nat)
| NotFound
| Panicked (msg : string).

Fixpoint UnorderedArray_probe (expected : Expected) (used : list bool) (j : nat)
    (arr : list Value) : Probe :=
  match arr with
  | [] => NotFound
  | actual :: arr =>
      match used !! j with
      | None => Panicked "index out of range"
      | Some true => UnorderedArray_probe expected used (S j) arr
      | Some false =>
          match match_ expected "probe" actual with
          | OK => Found j
          | Fail _ => UnorderedArray_probe expected used (S j) arr
          | Panic msg => Panicked msg
          end
      end
  end.

Fixpoint UnorderedArray_loop (path : string) (arr : list Value) (used : list bool)
    (i : nat) (elements : list Expected) : Result :=
  match elements with
  | [] => OK
  | expected :: elements =>
      match UnorderedArray_probe expected used 0 arr with
      | Found j => UnorderedArray_loop path arr (<[j:=true]> used) (S i) elements
      | NotFound =>
          Fail (Errorf "at %s: expected element %v (index %d) not found in remaining actual elements"
                  [ArgString path; ArgExpected expected; ArgInt i])
      | Panicked msg => Panic msg
      end
  end.

Definition UnorderedArray (elements : list Expected) : Expected :=
  Matcher (λ path value,
    match value with
    | VSlice arr =>
        if negb (bool_decide (length arr = length elements))
        then Fail (Errorf "at %s: expected array length %d, got %d"
                     [ArgString path; ArgInt (length elements); ArgInt (length arr)])
        else
          let used := replicate (length arr) false in
          UnorderedArray_loop path arr used 0 elements
    | _ => Fail (Errorf "at %s: expected array, got %T" [ArgString path; ArgValue value])
    end).

(** *** The remaining predicates *)

(** [Assert]: the test state after the call, or the panic that ends it. *)
Definition Assert `{!json.Pkg} (t : testing.T) (expected : Expected) (body : Body)
    : testing.T + string :=
  match isMatch body expected with
  | OK => inl t
  | Fail err => inl (testing.Error_ t err)
  | Panic msg => inr msg
  end.

Definition StringLength (min max : Z) : Expected :=
  stringValue [λ s,
    let length := Z.of_nat (String.length s) in
    if (length <? min)%Z || (max <? length)%Z
    then Fail (Errorf "expected string length between %d and %d, got %d"
                 [ArgValue (VInt int min); ArgValue (VInt int max);
                  ArgValue (VInt int length)])
    else OK].

Definition dateParser `{!time.Pkg} (s : string) : time.Time + Error :=
  match time.Parse "2006-01-02" s with
  | inr _ => inr (Errorf "expected YYYY-MM-DD, got %q" [ArgString s])
  | inl parsed => inl parsed
  end.

Definition Date `{!time.Pkg} : Expected := timeValue dateParser [].

(** The operands [delta], a [time.Duration], and [expected] are both
    carried as [ArgTime]. *)
Definition TimeWithinDuration `{!time.Pkg} (expected : time.Time) (delta : time.Duration)
    : Expected :=
  timeValue rfc3339Parser [λ parsed,
    if SFltb (time.Seconds delta) (SFabs (time.Seconds (time.Sub parsed expected)))
    then Fail (Errorf "expected time within %v of %v, got %v"
                 [ArgTime delta; ArgTime expected; ArgTime parsed])
    else OK].

Definition NumberWithinDelta (expected delta : spec_float) : Expected :=
  Matcher (λ path value,
    match value with
    | VFloat64 f64 =>
        if SFltb delta (SFabs (SFsub 53 1024 f64 expected))
        then Fail (Errorf "expected number within %v of %v, got %v"
                     [ArgValue (VFloat64 delta); ArgValue (VFloat64 expected);
                      ArgValue (VFloat64 f64)])
        else OK
    | _ => Fail (Errorf "at %s: expected number, got %T" [ArgString path; ArgValue value])
    end).

Definition NumberWithinRange (min max : spec_float) : Expected :=
  Matcher (λ path value,
    match value with
    | VFloat64 f64 =>
        if SFltb f64 min || SFltb max f64
        then Fail (Errorf "expected number within range %v to %v, got %v"
                     [ArgValue (VFloat64 min); ArgValue (VFloat64 max);
                      ArgValue (VFloat64 f64)])
        else OK
    | _ => Fail (Errorf "at %s: expected number, got %T" [ArgString path; ArgValue value])
    end).

Definition NumberGreater (min : spec_float) : Expected :=
  Matcher (λ path value,
    match value with
    | VFloat64 f64 =>
        if SFleb f64 min
        then Fail (Errorf "expected number greater than %v, got %v"
                     [ArgValue (VFloat64 min); ArgValue (VFloat64 f64)])
        else OK
    | _ => Fail (Errorf "at %s: expected number, got %T" [ArgString path; ArgValue value])
    end).

Definition NumberSmaller (max : spec_float) : Expected :=
  Matcher (λ path value,
    match value with
    | VFloat64 f64 =>
        if SFleb max f64
        then Fail (Errorf "expected number smaller than %v, got %v"
                     [ArgValue (VFloat64 max); ArgValue (VFloat64 f64)])
        else OK
    | _ => Fail (Errorf "at %s: expected number, got %T" [ArgString path; ArgValue value])
    end).

(** [^[0-9a-fA-F]{8}-[0-9a-fA-F]{4}-[0-9a-fA-F]{4}-[0-9a-fA-F]{4}-[0-9a-fA-F]{12}$] *)
Definition uuidRegex : syntax.Regexp :=
  let hex := syntax.CharClass [("0", "9"); ("a", "f"); ("A", "F")]%char in
  syntax.Concat (syntax.Exactly 8 hex)
    (syntax.Concat (syntax.Literal "-")
       (syntax.Concat (syntax.Exactly 4 hex)
          (syntax.Concat (syntax.Literal "-")
             (syntax.Concat (syntax.Exactly 4 hex)
                (syntax.Concat (syntax.Literal "-")
                   (syntax.Concat (syntax.Exactly 4 hex)
                      (syntax.Concat (syntax.Literal "-")
                         (syntax.Exactly 12 hex)))))))).

Definition UUID : Expected :=
  stringValue [λ s,
    if negb (syntax.MatchString uuidRegex s)
    then Fail (Errorf "expected UUID, got %q" [ArgString s])
    else OK].

(** [^[a-z0-9._%+\-]+@[a-z0-9.\-]+\.[a-z]{2,4}$] *)
Definition emailRegex : syntax.Regexp :=
  let local := syntax.CharClass
    [("a", "z"); ("0", "9"); (".", "."); ("_", "_"); ("%", "%"); ("+", "+"); ("-", "-")]%char in
  let domain := syntax.CharClass [("a", "z"); ("0", "9"); (".", "."); ("-", "-")]%char in
  let letter := syntax.CharClass [("a", "z")]%char in
  syntax.Concat (syntax.Plus local)
    (syntax.Concat (syntax.Literal "@")
       (syntax.Concat (syntax.Plus domain)
          (syntax.Concat (syntax.Literal ".")
             (syntax.Repeat 2 4 letter)))).

Definition Email : Expected :=
  stringValue [λ s,
    if negb (syntax.MatchString emailRegex s)
    then Fail (Errorf "expected email, got %q" [ArgString s])
    else OK].

(** [^https?://[^\s/$.?#].[^\s]*$], compiled at every call; [\s] is
    the class of tab, line feed, form feed, carriage return and space. *)
Definition urlRegex : syntax.Regexp :=
  let space := [("009", "010"); ("012", "013"); (" ", " ")]%char in
  syntax.Concat (syntax.Literals ["h"; "t"; "t"; "p"]%char)
    (syntax.Concat (syntax.Quest (syntax.Literal "s"))
       (syntax.Concat (syntax.Literals [":"; "/"; "/"]%char)
          (syntax.Concat
             (syntax.NotCharClass
                (space ++ [("/", "/"); ("$", "$"); (".", "."); ("?", "?"); ("#", "#")]%char))
             (syntax.Concat syntax.AnyCharNotNL
                (syntax.Star (syntax.NotCharClass space)))))).

Definition URL : Expected :=
  stringValue [λ s,
    if negb (syntax.MatchString urlRegex s)
    then Fail (Errorf "expected valid URL, got %q" [ArgString s])
    else OK].

Definition Integer : Expected :=
  Matcher (λ path value,
    match value with
    | VFloat64 f64 =>
        if negb (SFeqb f64 (math.Trunc f64))
        then Fail (Errorf "expected integer, got %v" [ArgValue (VFloat64 f64)])
        else OK
    | _ => Fail (Errorf "at %s: expected number, got %T" [ArgString path; ArgValue value])
    end).

Definition Positive : Expected := NumberGreater (S754_zero false).

Definition Negative : Expected := NumberSmaller (S754_zero false).

End bodyguard.

(** ** Sample packages

    Small instances of the imported packages, to run the matchers that
    need one on concrete inputs. *)

(** One admissible iteration order: the enumeration of the map itself. *)
#[export] Instance range_map_to_list : MapRange :=
  {| range := λ V m, map_to_list m; range_perm := λ V m, reflexivity _ |}.

(** Another order: the same enumeration, backwards. *)
Definition range_reversed : MapRange :=
  {| range := λ V m, reverse (map_to_list m);
     range_perm := λ V m, reverse_Permutation (map_to_list m) |}.

(** A [regexp] package that rejects the pattern [(] and reads any other
    pattern as a literal text to find. *)
Definition sample_regexp : regexp.Pkg :=
  {| regexp.Regexp := string;
     regexp.Compile pattern :=
       if bool_decide (pattern = "(")
       then inr (ErrorString "error parsing regexp: missing closing ): `(`")
       else inl pattern;
     regexp.MatchString re s :=
       match String.index 0 re s with Some _ => true | None => false end |}.

(** A [time] package that knows the first two seconds of 1970. *)
Definition sample_time : time.Pkg :=
  {| time.Parse layout s :=
       if bool_decide (s = "1970-01-01T00:00:00Z") then inl 0%Z
       else if bool_decide (s = "1970-01-01T00:00:01Z") then inl 1000000000%Z
       else inr (ErrorString "cannot parse") |}.

(** A [json] package that decodes the three literal names. *)
Definition sample_json : json.Pkg :=
  {| json.Unmarshal s :=
       if bool_decide (s = "null") then inl VNil
       else if bool_decide (s = "true") then inl (VBool true)
       else if bool_decide (s = "false") then inl (VBool false)
       else inr (ErrorString "invalid character") |}.

(** ** Vocabulary of the properties *)

Import bodyguard.

(** A literal of Go type [int]. *)
Definition lit (n : Z) : Expected := Lit (VInt int n).

(** The path of element [i] below [path]. *)
Definition index_path (path : string) (i : nat) : string :=
  path +:+ "[" +:+ pretty i +:+ "]".

(** The path of member [key] below [path]. *)
Definition key_path (path key : string) : string := path +:+ "." +:+ key.

(** The error [match] reports for a literal that does not match. *)
Definition literal_mismatch (path : string) (v actual : Value) : Error :=
  Errorf "at %s: expected %v (%T), got %v (%T)"
    [ArgString path; ArgValue v; ArgValue v; ArgValue actual; ArgValue actual].

Definition missing_key (path key : string) : Error :=
  Errorf "at %s: missing key %q" [ArgString path; ArgString key].

Definition unexpected_key (path key : string) : Error :=
  Errorf "at %s: unexpected key %q" [ArgString path; ArgString key].

(** Whether a literal accepts a value: deep equality, or the coercion. *)
Definition literal_accepts (v actual : Value) : bool :=
  reflect.DeepEqual v actual ||
  match v, actual with
  | VInt _ n, VFloat64 f64 => SFeqb (float64_of_Z n) f64
  | _, _ => false
  end.

(** A probe of [e] against [a] succeeds. *)
Definition accepts (e : Expected) (a : Value) : Prop := match_ e "probe" a = OK.

(** The actual elements whose [used] flag is still unset, in index order. *)
Fixpoint remaining (arr : list Value) (used : list bool) : list Value :=
  match arr, used with
  | a :: arr, u :: used => if u then remaining arr used else a :: remaining arr used
  | _, _ => []
  end.

(** The scalar literals [match] can accept in decoded form: [nil],
    booleans, strings, signed integers and finite [float64] values. *)
Definition matchable_scalar (v : Value) : bool :=
  match v with
  | VNil | VBool _ | VString _ | VInt _ _ => true
  | VFloat64 f => finite64 f
  | VUint _ _ | VFloat32 _ | VSlice _ | VMap _ => false
  end.

(** The place of a float in the order of [<]: the class (negative
    infinity, negative, zero, positive, positive infinity), then exponent
    and mantissa, negated for the negative numbers. *)
Definition SFrank (x : spec_float) : Z * Z * Z :=
  match x with
  | S754_infinity true => (-2, 0, 0)%Z
  | S754_finite true m e => (-1, - e, - Z.pos m)%Z
  | S754_zero _ | S754_nan => (0, 0, 0)%Z
  | S754_finite false m e => (1, e, Z.pos m)%Z
  | S754_infinity false => (2, 0, 0)%Z
  end.

(** The lexicographic order on ranks. *)
Definition rank_lt (a b : Z * Z * Z) : Prop :=
  (a.1.1 < b.1.1 ∨ a.1.1 = b.1.1 ∧ (a.1.2 < b.1.2 ∨ a.1.2 = b.1.2 ∧ a.2 < b.2))%Z.

(** A float that is not below zero: a zero, or a value whose sign bit is
    clear; NaN is let through. *)
Definition SFnonneg (x : spec_float) : bool :=
  match x with
  | S754_zero _ | S754_nan => true
  | S754_infinity s | S754_finite s _ _ => negb s
  end.

(** A float that is not above zero. *)
Definition SFnonpos (x : spec_float) : bool :=
  match x with
  | S754_zero _ | S754_nan => true
  | S754_infinity s | S754_finite s _ _ => s
  end.

(** Whether a call returned [nil]. *)
Definition succeeds (r : Result) : bool :=
  match r with
  | OK => true
  | Fail _ | Panic _ => false
  end.

(** A scalar: any value but a slice or a map. *)
Definition scalar (v : Value) : bool :=
  match v with
  | VSlice _ | VMap _ => false
  | _ => true
  end.

(** A decoded document: [null], booleans, finite numbers, strings, and
    arrays and objects of decoded documents. *)
Fixpoint decoded (v : Value) : bool :=
  match v with
  | VNil | VBool _ | VString _ => true
  | VFloat64 f => finite64 f
  | VSlice l => (fix all l := match l with [] => true | x :: l => decoded x && all l end) l
  | VMap m => map_fold (λ _ x acc, decoded x && acc) true m
  | VInt _ _ | VUint _ _ | VFloat32 _ => false
  end.

(** The nesting size of a value, to reason by induction on documents. *)
Fixpoint value_size (v : Value) : nat :=
  match v with
  | VSlice l => S ((fix sum l := match l with [] => 0 | x :: l => value_size x + sum l end) l)
  | VMap m => S (map_fold (λ _ x acc, value_size x + acc) 0 m)
  | _ => 0
  end.

(** Two decoded objects of the test table. *)
Definition object_a_b : gmap string Value := {[ "a" := number 1; "b" := number 2 ]}.
Definition object_a_b_c : gmap string Value :=
  {[ "a" := number 1; "b" := number 2; "c" := number 3 ]}.

(** Byte classes, the layout of a UUID (which of its 36 bytes are
    hyphens), the runes that the pattern of [URL] excludes, and an
    expression for one rune of a class. *)
Definition between (lo hi c : ascii) : bool :=
  (utf8.byte lo <=? utf8.byte c)%Z && (utf8.byte c <=? utf8.byte hi)%Z.
Definition digit (c : ascii) : bool := between "0" "9" c.
Definition lower_letter (c : ascii) : bool := between "a" "z" c.
Definition upper_letter (c : ascii) : bool := between "A" "Z" c.
Definition hex_digit (c : ascii) : bool :=
  digit c || between "a" "f" c || between "A" "F" c.
Definition email_local_byte (c : ascii) : bool :=
  lower_letter c || digit c || bool_decide (c ∈ [".";"_";"%";"+";"-"]%char).
Definition email_domain_byte (c : ascii) : bool :=
  lower_letter c || digit c || bool_decide (c ∈ [".";"-"]%char).
Definition uuid_byte (hyphen : bool) (c : ascii) : Prop :=
  if hyphen then c = "-"%char else hex_digit c = true.
Definition uuid_layout : list bool :=
  replicate 8 false ++ [true] ++ replicate 4 false ++ [true]
  ++ replicate 4 false ++ [true] ++ replicate 4 false ++ [true]
  ++ replicate 12 false.
Definition whitespace : list Z := [0x09; 0x0A; 0x0C; 0x0D; 0x20]%Z.
Definition url_delimiters : list Z := utf8.byte <$> ["/"; "$"; "."; "?"; "#"]%char.
Definition single (r : syntax.Regexp) (P : Z → Prop) : Prop :=
  ∀ s, syntax.denotes r s ↔ ∃ c, s = [c] ∧ P c.

(** A mantissa and an exponent that denote a whole number, and a
    shifted mantissa that has lost no bit below the binary point. *)
Definition whole (m e : Z) : Prop := (0 ≤ e)%Z ∨ (2 ^ (- e) | m)%Z.

Definition exact_below (mrs : shr_record) (e : Z) : Prop :=
  (e < 0)%Z → (2 ^ (- e) | shr_m mrs)%Z ∧ shr_r mrs = false ∧ shr_s mrs = false.

(** The greedy assignment of [UnorderedArray], on the indices of the
    actual array.  A probe of [e] against [a] is rejected when it returns
    an error; the first match of [e] is the least index that is not taken
    and whose element [e] accepts, every untaken element before it being
    rejected. *)
Definition rejects (e : Expected) (a : Value) : Prop :=
  ∃ err, match_ e "probe" a = Fail err.

Definition first_match (e : Expected) (arr : list Value) (taken : list nat)
    (j : nat) : Prop :=
  (j ∉ taken) ∧ (∃ a, arr !! j = Some a ∧ accepts e a) ∧
  ∀ j' a', j' < j → j' ∉ taken → arr !! j' = Some a' → rejects e a'.

Definition no_match (e : Expected) (arr : list Value) (taken : list nat) : Prop :=
  ∀ j a, j ∉ taken → arr !! j = Some a → rejects e a.

(** [greedy arr taken es js]: going through [es] in order, each expected
    element takes its first match among the indices not taken so far, and
    keeps it; [js] are the indices taken, in that order. *)
Inductive greedy (arr : list Value) : list nat → list Expected → list nat → Prop :=
| greedy_nil taken : greedy arr taken [] []
| greedy_cons taken e es j js :
    first_match e arr taken j → greedy arr (j :: taken) es js →
    greedy arr taken (e :: es) (j :: js).

(** [greedy_stuck arr taken i es e k]: the same run, numbering the
    expected elements from [i], reaches the expected element [e] of number
    [k] with no match left for it. *)
Inductive greedy_stuck (arr : list Value) :
    list nat → nat → list Expected → Expected → nat → Prop :=
| greedy_stuck_here taken i e es :
    no_match e arr taken → greedy_stuck arr taken i (e :: es) e i
| greedy_stuck_later taken i e es j e' k :
    first_match e arr taken j → greedy_stuck arr (j :: taken) (S i) es e' k →
    greedy_stuck arr taken i (e :: es) e' k.

(** The flags [used] mark exactly the indices [taken]. *)
Definition marks (used : list bool) (taken : list nat) (n : nat) : Prop :=
  length used = n ∧ ∀ j, j < n → used !! j = Some (bool_decide (j ∈ taken)).

(** * Properties *)

(** ** Literals *)

Lemma match_Lit v path actual :
  match_ (Lit v) path actual =
    if literal_accepts v actual then OK else Fail (literal_mismatch path v actual).
Proof.
  unfold match_, literal_accepts.
  destruct (reflect.DeepEqual v actual); [done|].
  destruct v as [| | [] | [] | | | | |]; simpl; try done; by destruct actual.
Qed.

Lemma match_Lit_OK v path actual :
  match_ (Lit v) path actual = OK ↔ literal_accepts v actual = true.
Proof. rewrite match_Lit. by destruct (literal_accepts v actual). Qed.

Lemma match_Lit_no_panic v path actual msg :
  match_ (Lit v) path actual ≠ Panic msg.
Proof. rewrite match_Lit. by destruct (literal_accepts v actual). Qed.

(** C3 (as amended): for an expected literal of a signed integer kind with
    value [n] and an actual [float64] value [f], the two are never deeply
    equal, and [match] succeeds exactly when [float64(n) == f]; otherwise
    it reports the literal mismatch.  In the other direction, a [float64]
    literal against an integer actual value, nothing is converted and the
    match fails. *)
Theorem int_literal_coercion_exact (t : int_type) (n : Z) (f : spec_float) (path : string) :
  reflect.DeepEqual (VInt t n) (VFloat64 f) = false ∧
  (match_ (Lit (VInt t n)) path (VFloat64 f) = OK ↔ SFeqb (float64_of_Z n) f = true) ∧
  match_ (Lit (VInt t n)) path (VFloat64 f)
  = (if SFeqb (float64_of_Z n) f then OK
     else Fail (literal_mismatch path (VInt t n) (VFloat64 f))) ∧
  (∀ t' n', match_ (Lit (VFloat64 f)) path (VInt t' n')
            = Fail (literal_mismatch path (VFloat64 f) (VInt t' n'))) ∧
  (∀ t' n', match_ (Lit (VFloat64 f)) path (VUint t' n')
            = Fail (literal_mismatch path (VFloat64 f) (VUint t' n'))).
Proof.
  split; [done|]. rewrite match_Lit. unfold literal_accepts. simpl.
  destruct (SFeqb (float64_of_Z n) f); repeat split; try done; intros; by destruct t.
Qed.

(** C3 as stated fails for an unsigned integer literal: [uint(1)] against
    the decoded number [1] is rejected although [float64(1) == 1]. *)
Lemma uint_literal_coercion_counterexample :
  reflect.DeepEqual (VUint uint 1) (number 1) = false ∧
  ¬ (match_ (Lit (VUint uint 1)) "$" (number 1) = OK
     ↔ SFeqb (float64_of_Z 1) (float64_of_Z 1) = true).
Proof. split; [done|]. intros [_ H]. by specialize (H eq_refl). Qed.

(** The conversion rounds: [2^53 + 1] becomes [2^53] and matches it. *)
Example coercion_rounds_to_nearest :
  match_ (Lit (VInt int64 9007199254740993)) "$" (number 9007199254740992) = OK.
Proof. reflexivity. Qed.

(** No tolerance: the float next above [1] does not match the literal [1]. *)
Example coercion_has_no_tolerance :
  match_ (lit 1) "$" (VFloat64 (S754_finite false 4503599627370497 (-52)))
  = Fail (literal_mismatch "$" (VInt int 1)
            (VFloat64 (S754_finite false 4503599627370497 (-52)))).
Proof. reflexivity. Qed.

(** C9: an expected literal of any unsigned integer kind never matches a
    decoded number, whatever their values: [match] reports the literal
    mismatch. *)
Theorem uint_literal_never_matches (t : uint_type) (n : Z) (f : spec_float) (path : string) :
  match_ (Lit (VUint t n)) path (VFloat64 f)
  = Fail (literal_mismatch path (VUint t n) (VFloat64 f)).
Proof. by destruct t. Qed.

(** ** Ordered arrays *)

Lemma Array_loop_OK path arr elements i :
  Array_loop path arr i elements = OK ↔
  ∀ j e, elements !! j = Some e →
    ∃ a, arr !! (i + j) = Some a ∧ match_ e (index_path path (i + j)) a = OK.
Proof.
  revert i. induction elements as [|e elements IH]; intros i; simpl.
  { split; [intros _ j e' Hj; by rewrite lookup_nil in Hj | done]. }
  split.
  - intros Hloop j e' Hj.
    destruct (arr !! i) as [a|] eqn:Ha; [|done].
    destruct (match_ e (path +:+ "[" +:+ pretty i +:+ "]") a) eqn:Hm; try done.
    destruct j as [|j]; simpl in Hj.
    + injection Hj as <-. exists a. by rewrite Nat.add_0_r.
    + destruct (proj1 (IH (S i)) Hloop j e' Hj) as (a' & Ha' & Hm').
      exists a'. by rewrite <- Nat.add_succ_comm.
  - intros Hall.
    destruct (Hall 0 e eq_refl) as (a & Ha & Hm).
    rewrite Nat.add_0_r in Ha, Hm. rewrite Ha.
    unfold index_path in Hm. rewrite Hm.
    apply IH. intros j e' Hj.
    destruct (Hall (S j) e' Hj) as (a' & Ha' & Hm').
    exists a'. by rewrite Nat.add_succ_comm.
Qed.

(** C2: [Array(e0..e(n-1))] against the sequence [a0..a(m-1)] succeeds
    exactly when [n = m] and every [ei] matches [ai] at the path extended
    with [[i]]; when the lengths differ it fails with the message that
    carries both lengths, and any value that is not a sequence fails with
    the type mismatch. *)
Theorem Array_ordered_iff (elements : list Expected) (arr : list Value) (path : string) :
  (match_ (Array elements) path (VSlice arr) = OK ↔
     length elements = length arr ∧
     ∀ i e a, elements !! i = Some e → arr !! i = Some a →
       match_ e (index_path path i) a = OK) ∧
  (length elements ≠ length arr →
     match_ (Array elements) path (VSlice arr)
     = Fail (Errorf "at %s: expected array length %d, got %d"
               [ArgString path; ArgInt (length elements); ArgInt (length arr)])) ∧
  (∀ value, (∀ l, value ≠ VSlice l) →
     match_ (Array elements) path value
     = Fail (Errorf "at %s: expected array, got %T" [ArgString path; ArgValue value])).
Proof.
  split; [|split].
  - simpl. case_bool_decide as Hlen; simpl.
    + rewrite Array_loop_OK. split.
      * intros Hall. split; [done|]. intros i e a He Ha.
        destruct (Hall i e He) as (a' & Ha' & Hm). simpl in Ha', Hm. by simplify_eq.
      * intros [_ Hall] j e He. simpl.
        destruct (lookup_lt_is_Some_2 arr j) as [a Ha].
        { rewrite Hlen. by eapply lookup_lt_Some. }
        exists a. eauto.
    + split; [done|]. intros [? _]. congruence.
  - intros Hlen. simpl. by rewrite bool_decide_eq_false_2.
  - intros value Hvalue. destruct value; try done. by destruct (Hvalue l).
Qed.

(** ** Objects *)

Section objects.
Context `{!MapRange}.

Lemma elem_of_range {V} (m : gmap string V) k x :
  (k, x) ∈ range m ↔ m !! k = Some x.
Proof. by rewrite range_perm, elem_of_map_to_list. Qed.

Lemma Object_loop_OK path (A : gmap string Value) entries :
  Object_loop path A entries = OK ↔
  ∀ k e, (k, e) ∈ entries →
    ∃ a, A !! k = Some a ∧ match_ e (key_path path k) a = OK.
Proof.
  induction entries as [|[k e] entries IH]; simpl.
  { split; [intros _ k e Hin; by apply elem_of_nil in Hin | done]. }
  split.
  - intros Hloop k' e' [Heq|Hin]%elem_of_cons.
    + injection Heq as -> ->.
      destruct (A !! k) as [a|]; [|done]. exists a. split; [done|].
      unfold key_path. by destruct (match_ e _ a).
    + apply IH; [|done].
      destruct (A !! k) as [a|]; [|done]. by destruct (match_ e _ a).
  - intros Hall.
    destruct (Hall k e) as (a & -> & Hm); [by left|].
    unfold key_path in Hm. rewrite Hm.
    apply IH. intros k' e' Hin. apply Hall. by right.
Qed.

(** When the keys that are present all match, the loop stops at a key of
    the expected map that the actual map lacks, if there is one. *)
Lemma Object_loop_missing path (A : gmap string Value) entries :
  (∀ k e a, (k, e) ∈ entries → A !! k = Some a →
     match_ e (key_path path k) a = OK) →
  (∃ k e, (k, e) ∈ entries ∧ A !! k = None) →
  ∃ k e, (k, e) ∈ entries ∧ A !! k = None ∧
    Object_loop path A entries = Fail (missing_key path k).
Proof.
  induction entries as [|[k e] entries IH]; intros Hshared (k0 & e0 & Hin & Hnone).
  { by apply elem_of_nil in Hin. }
  simpl. destruct (A !! k) as [a|] eqn:Ha.
  - pose proof (Hshared k e a ltac:(by left) Ha) as Hm.
    unfold key_path in Hm. rewrite Hm.
    destruct IH as (k' & e' & Hin' & Hnone' & Hloop).
    + intros k' e' a' Hin'. apply Hshared. by right.
    + apply elem_of_cons in Hin as [Heq|Hin].
      * injection Heq as -> ->. congruence.
      * eauto.
    + exists k', e'. split; [by right|done].
  - exists k, e. split; [by left|done].
Qed.

Lemma StrictObject_keys_OK path (E : gmap string Expected) entries :
  StrictObject_keys path E entries = OK ↔
  ∀ k a, (k, a) ∈ entries → is_Some (E !! k).
Proof.
  induction entries as [|[k a] entries IH]; simpl.
  { split; [intros _ k a Hin; by apply elem_of_nil in Hin | done]. }
  split.
  - intros Hkeys k' a' [Heq|Hin]%elem_of_cons.
    + injection Heq as -> ->. by destruct (E !! k).
    + destruct (E !! k); [|done]. by eapply IH.
  - intros Hall. destruct (Hall k a) as [e ->]; [by left|].
    apply IH. intros k' a' Hin. eapply Hall. by right.
Qed.

Lemma StrictObject_keys_unexpected path (E : gmap string Expected) entries :
  (∃ k a, (k, a) ∈ entries ∧ E !! k = None) →
  ∃ k a, (k, a) ∈ entries ∧ E !! k = None ∧
    StrictObject_keys path E entries = Fail (unexpected_key path k).
Proof.
  induction entries as [|[k a] entries IH]; intros (k0 & a0 & Hin & Hnone).
  { by apply elem_of_nil in Hin. }
  simpl. destruct (E !! k) as [e|] eqn:He.
  - destruct IH as (k' & a' & Hin' & Hnone' & Hkeys).
    + apply elem_of_cons in Hin as [Heq|Hin].
      * injection Heq as -> ->. congruence.
      * eauto.
    + exists k', a'. split; [by right|done].
  - exists k, a. split; [by left|done].
Qed.

(** [Object] succeeds exactly when every expected key is present with a
    matching value. *)
Lemma Object_OK (E : gmap string Expected) (A : gmap string Value) path :
  match_ (Object E) path (VMap A) = OK ↔
  ∀ k e, E !! k = Some e →
    ∃ a, A !! k = Some a ∧ match_ e (key_path path k) a = OK.
Proof.
  simpl. rewrite Object_loop_OK.
  split; intros Hall k e Hk; apply Hall; by apply elem_of_range.
Qed.

(** [StrictObject] succeeds exactly when, in addition, the actual map has
    no other key. *)
Lemma StrictObject_OK (E : gmap string Expected) (A : gmap string Value) path :
  match_ (StrictObject E) path (VMap A) = OK ↔
  dom A ⊆ dom E ∧
  ∀ k e, E !! k = Some e →
    ∃ a, A !! k = Some a ∧ match_ e (key_path path k) a = OK.
Proof.
  rewrite <- Object_OK. simpl.
  destruct (StrictObject_keys path E (range A)) eqn:Hkeys.
  - pose proof (proj1 (StrictObject_keys_OK _ _ _) Hkeys) as Hall.
    split; [|by intros [_ ?]].
    intros Hloop. split; [|done].
    intros k [a Ha]%elem_of_dom. apply elem_of_dom.
    apply (Hall k a). by apply elem_of_range.
  - split; [done|]. intros [Hsub _].
    assert (StrictObject_keys path E (range A) = OK) as Hok; [|congruence].
    apply StrictObject_keys_OK. intros k a Hin%elem_of_range.
    apply elem_of_dom, Hsub, elem_of_dom. eauto.
  - split; [done|]. intros [Hsub _].
    assert (StrictObject_keys path E (range A) = OK) as Hok; [|congruence].
    apply StrictObject_keys_OK. intros k a Hin%elem_of_range.
    apply elem_of_dom, Hsub, elem_of_dom. eauto.
Qed.

End objects.

(** C1 (as amended): take an expected mapping [E], an actual object [A] and
    suppose every key they share has a matching value.  If every key of
    [E] is in [A], then [Object(E)] succeeds whatever other keys [A] has,
    and [StrictObject(E)] succeeds exactly when the two key sets are equal.
    If a key of [E] is absent from [A], [Object(E)] fails with a
    missing-key error for such a key, and so does [StrictObject(E)]
    provided [A] has no extra key.  Whether or not the shared keys match,
    an extra key in [A] makes [StrictObject(E)] fail with an
    unexpected-key error for such a key. *)
Theorem Object_partial_StrictObject_exact `{!MapRange}
    (E : gmap string Expected) (A : gmap string Value) (path : string) :
  ((∃ k, k ∈ dom A ∧ k ∉ dom E) →
     ∃ k, k ∈ dom A ∧ (k ∉ dom E) ∧
       match_ (StrictObject E) path (VMap A) = Fail (unexpected_key path k)) ∧
  ((∀ k e a, E !! k = Some e → A !! k = Some a →
      match_ e (key_path path k) a = OK) →
   (dom E ⊆ dom A →
      match_ (Object E) path (VMap A) = OK ∧
      (match_ (StrictObject E) path (VMap A) = OK ↔ dom A = dom E)) ∧
   ((∃ k, k ∈ dom E ∧ k ∉ dom A) →
      (∃ k, k ∈ dom E ∧ (k ∉ dom A) ∧
         match_ (Object E) path (VMap A) = Fail (missing_key path k)) ∧
      (dom A ⊆ dom E →
       ∃ k, k ∈ dom E ∧ (k ∉ dom A) ∧
         match_ (StrictObject E) path (VMap A) = Fail (missing_key path k)))).
Proof.
  split.
  - intros (k & [a Ha]%elem_of_dom & Hk%not_elem_of_dom).
    destruct (StrictObject_keys_unexpected path E (range A))
      as (k' & a' & Hin%elem_of_range & Hnone & Hkeys).
    { exists k, a. split; [by apply elem_of_range|done]. }
    exists k'. split; [apply elem_of_dom; eauto|].
    split; [by apply not_elem_of_dom|]. simpl. by rewrite Hkeys.
  - intros Hshared.
    assert (dom E ⊆ dom A → match_ (Object E) path (VMap A) = OK) as HObject.
    { intros Hsub. apply Object_OK. intros k e Hk.
      destruct (A !! k) as [a|] eqn:Ha; [by eauto|].
      apply not_elem_of_dom in Ha. destruct Ha. apply Hsub, elem_of_dom. eauto. }
    assert ((∃ k, k ∈ dom E ∧ k ∉ dom A) →
            ∃ k, k ∈ dom E ∧ (k ∉ dom A) ∧
              Object_loop path A (range E) = Fail (missing_key path k)) as Hmissing.
    { intros (k & [e He]%elem_of_dom & Hk%not_elem_of_dom).
      destruct (Object_loop_missing path A (range E))
        as (k' & e' & Hin%elem_of_range & Hnone & Hloop).
      - intros k' e' a' Hin%elem_of_range. by apply Hshared.
      - exists k, e. split; [by apply elem_of_range|done].
      - exists k'. split; [apply elem_of_dom; eauto|].
        split; [by apply not_elem_of_dom|done]. }
    split.
    + intros Hsub. split; [by apply HObject|].
      rewrite StrictObject_OK, <- Object_OK. split.
      * intros [Hsub' _]. by apply (anti_symm (⊆)).
      * intros Heq. split; [by rewrite Heq | by apply HObject].
    + intros Habsent. split; [by apply Hmissing|].
      intros Hsub. destruct (Hmissing Habsent) as (k & Hk & Hk' & Hloop).
      exists k. split; [done|]. split; [done|]. simpl.
      assert (StrictObject_keys path E (range A) = OK) as ->; [|done].
      apply StrictObject_keys_OK. intros k' a' Hin%elem_of_range.
      apply elem_of_dom, Hsub, elem_of_dom. eauto.
Qed.

(** An object with an extra key, under the enumeration order of the map. *)
Lemma Object_partial_StrictObject_exact_witness :
  let E : gmap string Expected := {[ "a" := lit 1 ]} in
  let A : gmap string Value := {[ "a" := number 1; "c" := number 3 ]} in
  (∀ k e a, E !! k = Some e → A !! k = Some a → match_ e (key_path "$" k) a = OK) ∧
  dom E ⊆ dom A ∧
  match_ (Object E) "$" (VMap A) = OK ∧
  match_ (StrictObject E) "$" (VMap A) ≠ OK.
Proof.
  intros E A.
  assert (∀ k e a, E !! k = Some e → A !! k = Some a →
            match_ e (key_path "$" k) a = OK) as Hshared.
  { intros k e a [<- <-]%lookup_singleton_Some Ha. unfold A in Ha.
    rewrite lookup_insert_eq in Ha. by injection Ha as <-. }
  assert (dom E ⊆ dom A) as Hsub.
  { unfold E, A. rewrite dom_insert, !dom_singleton. set_solver. }
  destruct (Object_partial_StrictObject_exact E A "$") as [_ Hmatch].
  destruct (Hmatch Hshared) as [Hpresent _].
  destruct (Hpresent Hsub) as [HObject HStrict].
  split; [done|]. split; [done|]. split; [done|].
  intros Hdom%HStrict.
  assert ("c" ∈ dom A) as Hc by (unfold A; set_solver).
  rewrite Hdom in Hc. unfold E in Hc. set_solver.
Defined.

(** C1 as stated fails under [StrictObject] when the actual object both
    lacks a key of the expected mapping and has an extra one: the error is
    the unexpected key, not a missing key. *)
Lemma StrictObject_missing_key_counterexample :
  let E : gmap string Expected := {[ "b" := lit 2 ]} in
  let A : gmap string Value := {[ "a" := number 1 ]} in
  "b" ∈ dom E ∧ ("b" ∉ dom A) ∧
  (∀ k e a, E !! k = Some e → A !! k = Some a → match_ e (key_path "$" k) a = OK) ∧
  match_ (StrictObject E) "$" (VMap A) = Fail (unexpected_key "$" "a") ∧
  ¬ ∃ k, match_ (StrictObject E) "$" (VMap A) = Fail (missing_key "$" k).
Proof.
  simpl. split; [set_solver|]. split; [set_solver|]. split.
  { intros k e a [<- _]%lookup_singleton_Some [? _]%lookup_singleton_Some. done. }
  split; [by vm_compute|]. intros [k Hk]. vm_compute in Hk. discriminate.
Qed.

(** ** Paths *)

Section paths.
Context `{!MapRange}.

Lemma range_singleton {V} (k : string) (x : V) :
  range ({[ k := x ]} : gmap string V) = [(k, x)].
Proof.
  apply Permutation_singleton_r. by rewrite range_perm, map_to_list_singleton.
Qed.

Lemma Object_loop_failure path (A : gmap string Value) entries k e a r :
  (∀ k' e', (k', e') ∈ entries →
     (k' = k ∧ e' = e) ∨
     ∃ a', A !! k' = Some a' ∧ match_ e' (key_path path k') a' = OK) →
  (k, e) ∈ entries → A !! k = Some a →
  match_ e (key_path path k) a = r → r ≠ OK →
  Object_loop path A entries = r.
Proof.
  intros Hothers Hin Ha Hm Hr.
  induction entries as [|[k1 e1] entries IH]; [by apply elem_of_nil in Hin|].
  simpl. destruct (Hothers k1 e1) as [[-> ->]|(a1 & Ha1 & Hm1)]; [by left|..].
  - rewrite Ha. unfold key_path in Hm. rewrite Hm. by destruct r.
  - rewrite Ha1. unfold key_path in Hm1. rewrite Hm1.
    apply IH.
    + intros k' e' Hin'. apply Hothers. by right.
    + apply elem_of_cons in Hin as [Heq|Hin]; [|done].
      injection Heq as -> ->. unfold key_path in Hm. congruence.
Qed.

(** Object descent: when one member fails and all others match, the
    object reports the failure of that member, found at [path.key]. *)
Lemma Object_failure_at_key (E : gmap string Expected) (A : gmap string Value)
    path k e a r :
  E !! k = Some e → A !! k = Some a →
  match_ e (key_path path k) a = r → r ≠ OK →
  (∀ k' e', k' ≠ k → E !! k' = Some e' →
     ∃ a', A !! k' = Some a' ∧ match_ e' (key_path path k') a' = OK) →
  match_ (Object E) path (VMap A) = r.
Proof.
  intros He Ha Hm Hr Hothers. simpl.
  apply Object_loop_failure with (k := k) (e := e) (a := a); try done.
  - intros k' e' Hin%elem_of_range.
    destruct (decide (k' = k)) as [->|Hne]; [left; split; congruence|].
    right. by apply Hothers.
  - by apply elem_of_range.
Qed.

End paths.

Lemma Array_loop_failure path arr elements i0 i e a r :
  (∀ j e', j < i → elements !! j = Some e' →
     ∃ a', arr !! (i0 + j) = Some a' ∧ match_ e' (index_path path (i0 + j)) a' = OK) →
  elements !! i = Some e → arr !! (i0 + i) = Some a →
  match_ e (index_path path (i0 + i)) a = r → r ≠ OK →
  Array_loop path arr i0 elements = r.
Proof.
  revert i0 i. induction elements as [|e1 elements IH]; intros i0 i Hbefore He Ha Hm Hr.
  { by rewrite lookup_nil in He. }
  simpl. destruct i as [|i]; simpl in He.
  - injection He as ->. rewrite Nat.add_0_r in Ha, Hm. rewrite Ha.
    unfold index_path in Hm. rewrite Hm. by destruct r.
  - destruct (Hbefore 0 e1) as (a1 & Ha1 & Hm1); [lia|done|].
    rewrite Nat.add_0_r in Ha1, Hm1. rewrite Ha1.
    unfold index_path in Hm1. rewrite Hm1.
    apply (IH (S i0) i); try done.
    + intros j e' Hj He'. rewrite Nat.add_succ_comm. apply Hbefore; [lia|done].
    + by rewrite Nat.add_succ_comm.
    + by rewrite Nat.add_succ_comm.
Qed.

(** Array descent: when the elements before index [i] match and element
    [i] fails, the array reports that failure, found at [path[i]]. *)
Lemma Array_failure_at_index elements arr path i e a r :
  length elements = length arr →
  elements !! i = Some e → arr !! i = Some a →
  (∀ j e' a', j < i → elements !! j = Some e' → arr !! j = Some a' →
     match_ e' (index_path path j) a' = OK) →
  match_ e (index_path path i) a = r → r ≠ OK →
  match_ (Array elements) path (VSlice arr) = r.
Proof.
  intros Hlen He Ha Hbefore Hm Hr. simpl.
  rewrite bool_decide_eq_true_2 by done. simpl.
  apply Array_loop_failure with (i := i) (e := e) (a := a); try done.
  intros j e' Hj He'. simpl.
  destruct (lookup_lt_is_Some_2 arr j) as [a' Ha'].
  { rewrite <- Hlen. by eapply lookup_lt_Some. }
  exists a'. eauto.
Qed.

(** The root path is [$]; descent into member [key] appends [.key] and
    descent into element [i] appends [[i]]; [Object] and [Array] hand the
    path built that way to the member or element that fails, and return
    what it reports.  For the document [{"a":{"b":[1,2,3]}}] against
    [Object({"a": Object({"b": Array(1,2,9)})})] the failure is the literal
    mismatch at path [$.a.b[2]]. *)
Lemma paths_follow_descent `{!MapRange} `{!json.Pkg} :
  (∀ body expected actual,
     json.Unmarshal body = inl actual →
     isMatch (BodyString body) expected = match_ expected "$" actual) ∧
  (∀ E A path k e a r,
     E !! k = Some e → A !! k = Some a →
     match_ e (path +:+ "." +:+ k) a = r → r ≠ OK →
     (∀ k' e', k' ≠ k → E !! k' = Some e' →
        ∃ a', A !! k' = Some a' ∧ match_ e' (path +:+ "." +:+ k') a' = OK) →
     match_ (Object E) path (VMap A) = r) ∧
  (∀ elements arr path i e a r,
     length elements = length arr →
     elements !! i = Some e → arr !! i = Some a →
     (∀ j e' a', j < i → elements !! j = Some e' → arr !! j = Some a' →
        match_ e' (path +:+ "[" +:+ pretty j +:+ "]") a' = OK) →
     match_ e (path +:+ "[" +:+ pretty i +:+ "]") a = r → r ≠ OK →
     match_ (Array elements) path (VSlice arr) = r) ∧
  match_ (Object {[ "a" := Object {[ "b" := Array [lit 1; lit 2; lit 9] ]} ]}) "$"
    (VMap {[ "a" := VMap {[ "b" := VSlice [number 1; number 2; number 3] ]} ]})
  = Fail (Errorf "at %s: expected %v (%T), got %v (%T)"
            [ArgString "$.a.b[2]"; ArgValue (VInt int 9); ArgValue (VInt int 9);
             ArgValue (number 3); ArgValue (number 3)]).
Proof.
  split; [|split; [|split]].
  - intros body expected actual Hbody. simpl. by rewrite Hbody.
  - intros. by eapply Object_failure_at_key.
  - intros. by eapply Array_failure_at_index.
  - simpl. rewrite range_singleton. simpl.
    rewrite lookup_singleton_eq. simpl.
    rewrite range_singleton. simpl.
    rewrite lookup_singleton_eq. reflexivity.
Qed.

(** C5: the path reaches the failing node, but the message does not always
    carry it.  Below [Object({"a": Object({"b": Array(1, 2, e)})})] the
    node [e] is matched at the path [$.a.b[2]].  With the literal [9] for
    [e] the mismatch against [3] is reported at that path, and so is the
    type mismatch of [Positive()] against a string; but [Positive()]
    against the number [0] fails with a message that names no path at
    all. *)
Theorem numeric_failure_lacks_the_path `{!MapRange} :
  let expected (e : Expected) : Expected :=
    Object {[ "a" := Object {[ "b" := Array [lit 1; lit 2; e] ]} ]} in
  let document (last : Value) : Value :=
    VMap {[ "a" := VMap {[ "b" := VSlice [number 1; number 2; last] ]} ]} in
  fmt.message (match_ (expected (lit 9)) "$" (document (number 3)))
  = Some "at $.a.b[2]: expected 9 (int), got 3 (float64)" ∧
  fmt.message (match_ (expected Positive) "$" (document (VString "x")))
  = Some "at $.a.b[2]: expected number, got string" ∧
  match_ (expected Positive) "$" (document (number 0))
  = Fail (Errorf "expected number greater than %v, got %v"
            [ArgValue (number 0); ArgValue (number 0)]) ∧
  fmt.message (match_ (expected Positive) "$" (document (number 0)))
  = Some "expected number greater than 0, got 0".
Proof.
  assert (∀ e last,
            match_ (Object {[ "a" := Object {[ "b" := Array [lit 1; lit 2; e] ]} ]}) "$"
              (VMap {[ "a" := VMap {[ "b" := VSlice [number 1; number 2; last] ]} ]})
            = match_ e "$.a.b[2]" last) as Hdescent.
  { intros e last. simpl. rewrite range_singleton. simpl.
    rewrite lookup_singleton_eq. simpl.
    rewrite range_singleton. simpl.
    rewrite lookup_singleton_eq. simpl. by destruct (match_ e _ last). }
  cbv beta zeta. rewrite !Hdescent. repeat split; reflexivity.
Qed.

(** ** Float equality *)

(** [==] on floats relates two zeros, two infinities of one sign, or two
    identical finite values. *)
Lemma SFeqb_true x y :
  SFeqb x y = true ↔
  match x, y with
  | S754_zero _, S754_zero _ => True
  | S754_infinity s1, S754_infinity s2 => s1 = s2
  | S754_finite s1 m1 e1, S754_finite s2 m2 e2 => s1 = s2 ∧ m1 = m2 ∧ e1 = e2
  | _, _ => False
  end.
Proof.
  unfold SFeqb, SFcompare.
  destruct x as [s1|s1| |s1 m1 e1], y as [s2|s2| |s2 m2 e2];
    try done; try (by destruct s1); try (by destruct s2); try (by destruct s1, s2).
  fold (Pos.compare m1 m2).
  destruct s1, s2; try (split; [done|by intros [? _]]);
    destruct (Z.compare_spec e1 e2) as [->| |];
    try (split; [done|intros (_ & _ & ?); lia]);
    destruct (Pos.compare_spec m1 m2) as [->| |]; simpl;
    try (split; [done|intros (_ & ? & _); lia]); done.
Qed.

Lemma SFeqb_sym x y : SFeqb x y = true → SFeqb y x = true.
Proof.
  rewrite !SFeqb_true. destruct x, y; try done; by intros (-> & -> & ->).
Qed.

Lemma SFeqb_trans x y z : SFeqb x y = true → SFeqb y z = true → SFeqb x z = true.
Proof.
  rewrite !SFeqb_true. destruct x, y, z; try done; [congruence|].
  by intros (-> & -> & ->) (-> & -> & ->).
Qed.

Lemma SFeqb_refl x : x ≠ S754_nan → SFeqb x x = true.
Proof. rewrite SFeqb_true. by destruct x. Qed.

(** ** Unordered arrays *)

Lemma remaining_replicate arr : remaining arr (replicate (length arr) false) = arr.
Proof. induction arr as [|a arr IH]; simpl; by f_equal. Qed.

Lemma remaining_subseteq arr used x : x ∈ remaining arr used → x ∈ arr.
Proof.
  revert used. induction arr as [|a arr IH]; intros [|[] used]; simpl;
    try (by intros ?%elem_of_nil).
  - intros Hin. right. by eapply IH.
  - intros [->|Hin]%elem_of_cons; [by left|]. right. by eapply IH.
Qed.

(** What the inner loop returns, read on the list of remaining elements:
    it stops at the first remaining element that [expected] accepts and
    removes exactly that one. *)
Lemma UnorderedArray_probe_spec e arr used j0 :
  length (drop j0 used) = length arr →
  (∀ a msg, a ∈ arr → match_ e "probe" a ≠ Panic msg) →
  match UnorderedArray_probe e used j0 arr with
  | Found j =>
      j0 ≤ j ∧
      ∃ l1 a l2,
        remaining arr (drop j0 used) = l1 ++ a :: l2 ∧ accepts e a ∧
        Forall (λ x, ¬ accepts e x) l1 ∧
        remaining arr (drop j0 (<[j:=true]> used)) = l1 ++ l2
  | NotFound => Forall (λ x, ¬ accepts e x) (remaining arr (drop j0 used))
  | Panicked _ => False
  end.
Proof.
  revert j0. induction arr as [|a arr IH]; intros j0 Hlen Hpanic.
  { simpl. by destruct (drop j0 used). }
  assert (j0 < length used) as Hj0.
  { rewrite length_drop in Hlen. simpl in Hlen. lia. }
  destruct (lookup_lt_is_Some_2 used j0 Hj0) as [u Hu].
  rewrite (drop_S _ _ _ Hu) in Hlen |- *. injection Hlen as Hlen.
  assert (∀ a' msg, a' ∈ arr → match_ e "probe" a' ≠ Panic msg) as Hpanic'.
  { intros a' msg Hin. apply Hpanic. by right. }
  specialize (IH (S j0) Hlen Hpanic').
  simpl. rewrite Hu. destruct u.
  - destruct (UnorderedArray_probe e used (S j0) arr) as [j| |msg]; [|done..].
    destruct IH as (Hj & l1 & a' & l2 & Hrem & Hacc & Hl1 & Hrem').
    split; [lia|]. exists l1, a', l2. split; [done|]. split; [done|]. split; [done|].
    rewrite (drop_S _ true j0); [done|].
    rewrite list_lookup_insert_ne by lia. done.
  - destruct (match_ e "probe" a) as [|err|msg] eqn:Hm.
    + split; [done|]. exists [], a, (remaining arr (drop (S j0) used)).
      split; [done|]. split; [done|]. split; [done|].
      rewrite (drop_S _ true j0) by (by apply list_lookup_insert_eq).
      simpl. by rewrite drop_insert_lt by lia.
    + assert (¬ accepts e a) as Hna by (unfold accepts; congruence).
      destruct (UnorderedArray_probe e used (S j0) arr) as [j| |msg].
      * destruct IH as (Hj & l1 & a' & l2 & Hrem & Hacc & Hl1 & Hrem').
        split; [lia|]. exists (a :: l1), a', l2.
        split; [by rewrite Hrem|]. split; [done|]. split; [by constructor|].
        rewrite (drop_S _ false j0) by (by rewrite list_lookup_insert_ne by lia).
        simpl. by rewrite Hrem'.
      * by constructor.
      * done.
    + destruct (Hpanic a msg); [by left|done].
Qed.

(** The outer loop succeeds whenever some assignment of the remaining
    actual elements to the expected ones exists, provided acceptance is
    rectangular: two expected elements that accept one actual element in
    common accept the same actual elements. *)
Lemma UnorderedArray_loop_OK path arr used i es :
  length used = length arr →
  (∀ e a msg, e ∈ es → a ∈ arr → match_ e "probe" a ≠ Panic msg) →
  (∀ e e' a b, e ∈ es → e' ∈ es → a ∈ arr → b ∈ arr →
     accepts e a → accepts e b → accepts e' a → accepts e' b) →
  (∃ bs, bs ≡ₚ remaining arr used ∧ Forall2 accepts es bs) →
  UnorderedArray_loop path arr used i es = OK.
Proof.
  revert used i. induction es as [|e es IH]; intros used i Hlen Hpanic Hrect Hassign; [done|].
  destruct Hassign as (bs & Hperm & Hall).
  apply Forall2_cons_inv_l in Hall as (b & bs' & Hb & Hall & ->).
  simpl.
  pose proof (UnorderedArray_probe_spec e arr used 0) as Hprobe.
  rewrite drop_0 in Hprobe. specialize (Hprobe Hlen).
  destruct (UnorderedArray_probe e used 0 arr) as [j| |msg].
  - destruct Hprobe as (_ & l1 & a & l2 & Hrem & Ha & _ & Hrem').
    { intros a msg Hin. apply Hpanic; [by left|done]. }
    rewrite drop_0 in Hrem'.
    apply IH.
    + by rewrite length_insert.
    + intros e' a' msg He'. apply Hpanic. by right.
    + intros e1 e2 a1 a2 He1 He2. apply Hrect; by right.
    + assert (a ∈ arr ∧ b ∈ arr) as [Harr_a Harr_b].
      { split; apply (remaining_subseteq arr used).
        - rewrite Hrem. apply elem_of_app. right. by left.
        - rewrite <- Hperm. by left. }
      rewrite Hrem'. rewrite Hrem, <- Permutation_middle in Hperm.
      assert (a ∈ b :: bs') as [->|Hin]%elem_of_cons.
      { rewrite Hperm. by left. }
      * exists bs'. split; [|done]. by apply (inj (cons b)).
      * apply list_elem_of_split in Hin as (k1 & k2 & ->).
        apply Forall2_app_inv_r in Hall as (es1 & es2' & Hall1 & Hall2 & ->).
        apply Forall2_cons_inv_r in Hall2 as (ea & es2 & Hea & Hall2 & ->).
        exists (k1 ++ b :: k2). split.
        -- apply (inj (cons a)).
           rewrite <- Hperm, <- !Permutation_middle. apply Permutation_swap.
        -- apply Forall2_app; [done|]. constructor; [|done].
           apply (Hrect e ea a b); [by left| |done..].
           right. apply elem_of_app. right. by left.
  - exfalso.
    assert (Forall (λ x, ¬ accepts e x) (remaining arr used)) as Hnone.
    { apply Hprobe. intros a msg Hin. apply Hpanic; [by left|done]. }
    rewrite Forall_forall in Hnone. apply (Hnone b); [|done].
    rewrite <- Hperm. by left.
  - destruct Hprobe. intros a msg' Hin. apply Hpanic; [by left|done].
Qed.

(** [UnorderedArray] succeeds on every actual array that can be assigned
    to the expected elements, under the same proviso. *)
Lemma UnorderedArray_OK es arr path :
  (∀ e a msg, e ∈ es → a ∈ arr → match_ e "probe" a ≠ Panic msg) →
  (∀ e e' a b, e ∈ es → e' ∈ es → a ∈ arr → b ∈ arr →
     accepts e a → accepts e b → accepts e' a → accepts e' b) →
  (∃ bs, bs ≡ₚ arr ∧ Forall2 accepts es bs) →
  match_ (UnorderedArray es) path (VSlice arr) = OK.
Proof.
  intros Hpanic Hrect (bs & Hperm & Hall). simpl.
  rewrite bool_decide_eq_true_2; simpl.
  - apply UnorderedArray_loop_OK; try done.
    + by rewrite length_replicate.
    + exists bs. by rewrite remaining_replicate.
  - by rewrite <- Hperm, <- (Forall2_length _ _ _ Hall).
Qed.

(** The index the inner loop returns is the least one, from [j0] on, whose
    flag is unset and whose element is accepted. *)
Lemma UnorderedArray_probe_first e used j0 arr j :
  UnorderedArray_probe e used j0 arr = Found j →
  j0 ≤ j ∧ used !! j = Some false ∧
  (∃ a, arr !! (j - j0) = Some a ∧ accepts e a) ∧
  ∀ j' a', j0 ≤ j' < j → used !! j' = Some false →
    arr !! (j' - j0) = Some a' → ¬ accepts e a'.
Proof.
  revert j0. induction arr as [|a arr IH]; intros j0; simpl; [done|].
  destruct (used !! j0) as [[]|] eqn:Hu; [| |done].
  - intros (Hj & Hused & (a' & Ha' & Hacc) & Hfirst)%IH.
    split; [lia|]. split; [done|]. split.
    + exists a'. by replace (j - j0) with (S (j - S j0)) by lia.
    + intros j' b [Hlo Hhi] Hu' Hb.
      destruct (decide (j' = j0)) as [->|Hne]; [congruence|].
      apply (Hfirst j' b); [lia|done|].
      by replace (j' - j0) with (S (j' - S j0)) in Hb by lia.
  - destruct (match_ e "probe" a) as [|err|msg] eqn:Hm; [| |done].
    + intros [= <-]. split; [done|]. split; [done|]. split.
      * exists a. by rewrite Nat.sub_diag.
      * intros j' b ?. lia.
    + intros (Hj & Hused & (a' & Ha' & Hacc) & Hfirst)%IH.
      split; [lia|]. split; [done|]. split.
      * exists a'. by replace (j - j0) with (S (j - S j0)) by lia.
      * intros j' b [Hlo Hhi] Hu' Hb.
        destruct (decide (j' = j0)) as [->|Hne].
        -- rewrite Nat.sub_diag in Hb. injection Hb as <-.
           unfold accepts. congruence.
        -- apply (Hfirst j' b); [lia|done|].
           by replace (j' - j0) with (S (j' - S j0)) in Hb by lia.
Qed.

(** When the inner loop finds nothing, no element from [j0] on is both
    unconsumed and accepted. *)
Lemma UnorderedArray_probe_none e used j0 arr :
  UnorderedArray_probe e used j0 arr = NotFound →
  ∀ j a, j0 ≤ j → used !! j = Some false → arr !! (j - j0) = Some a → ¬ accepts e a.
Proof.
  revert j0. induction arr as [|a arr IH]; intros j0; simpl.
  { intros _ j a' _ _ Ha'. by rewrite lookup_nil in Ha'. }
  destruct (used !! j0) as [[]|] eqn:Hu; [| |done].
  - intros Hnone j b Hj Hu' Hb.
    destruct (decide (j = j0)) as [->|Hne]; [congruence|].
    apply (IH _ Hnone j b); [lia|done|].
    by replace (j - j0) with (S (j - S j0)) in Hb by lia.
  - destruct (match_ e "probe" a) as [|err|msg] eqn:Hm; [done| |done].
    intros Hnone j b Hj Hu' Hb.
    destruct (decide (j = j0)) as [->|Hne].
    + rewrite Nat.sub_diag in Hb. injection Hb as <-. unfold accepts. congruence.
    + apply (IH _ Hnone j b); [lia|done|].
      by replace (j - j0) with (S (j - S j0)) in Hb by lia.
Qed.

(** What the inner loop returns, whichever way it ends: the least index
    from [j0] on whose flag is unset and whose probe is not rejected
    decides, by an accepted probe or by a panic; without one, nothing is
    found. *)
Lemma UnorderedArray_probe_outcome e used j0 arr :
  j0 + length arr ≤ length used →
  match UnorderedArray_probe e used j0 arr with
  | Found j =>
      j0 ≤ j ∧ used !! j = Some false ∧
      (∃ a, arr !! (j - j0) = Some a ∧ accepts e a) ∧
      ∀ j' a', j0 ≤ j' < j → used !! j' = Some false →
        arr !! (j' - j0) = Some a' → rejects e a'
  | NotFound =>
      ∀ j a, j0 ≤ j → used !! j = Some false → arr !! (j - j0) = Some a → rejects e a
  | Panicked msg =>
      ∃ j, j0 ≤ j ∧ used !! j = Some false ∧
      (∃ a, arr !! (j - j0) = Some a ∧ match_ e "probe" a = Panic msg) ∧
      ∀ j' a', j0 ≤ j' < j → used !! j' = Some false →
        arr !! (j' - j0) = Some a' → rejects e a'
  end.
Proof.
  revert j0. induction arr as [|a arr IH]; intros j0 Hlen; simpl in *.
  { intros j a' _ _ Ha'. by rewrite lookup_nil in Ha'. }
  destruct (lookup_lt_is_Some_2 used j0 ltac:(lia)) as [u Hu]. rewrite Hu.
  specialize (IH (S j0) ltac:(lia)).
  assert (∀ j' a', j0 ≤ j' → j' ≠ j0 → arr !! (j' - S j0) = Some a' ↔
                   (a :: arr) !! (j' - j0) = Some a') as Hshift.
  { intros j' a' ? ?. by replace (j' - j0) with (S (j' - S j0)) by lia. }
  destruct u.
  - destruct (UnorderedArray_probe e used (S j0) arr) as [j| |msg].
    + destruct IH as (Hj & Hused & (a' & Ha' & Hacc) & Hfirst).
      split; [lia|]. split; [done|]. split.
      * exists a'. split; [|done]. apply Hshift; [lia|lia|done].
      * intros j' b [Hlo Hhi] Hu' Hb.
        destruct (decide (j' = j0)) as [->|Hne]; [congruence|].
        apply (Hfirst j' b); [lia|done|]. by apply Hshift.
    + intros j b Hj Hu' Hb.
      destruct (decide (j = j0)) as [->|Hne]; [congruence|].
      apply (IH j b); [lia|done|]. by apply Hshift.
    + destruct IH as (j & Hj & Hused & (a' & Ha' & Hacc) & Hfirst).
      exists j. split; [lia|]. split; [done|]. split.
      * exists a'. split; [|done]. apply Hshift; [lia|lia|done].
      * intros j' b [Hlo Hhi] Hu' Hb.
        destruct (decide (j' = j0)) as [->|Hne]; [congruence|].
        apply (Hfirst j' b); [lia|done|]. by apply Hshift.
  - destruct (match_ e "probe" a) as [|err|msg] eqn:Hm.
    + split; [done|]. split; [done|]. split.
      * exists a. by rewrite Nat.sub_diag.
      * intros j' b ?. lia.
    + assert (rejects e a) as Hrej by (by exists err).
      destruct (UnorderedArray_probe e used (S j0) arr) as [j| |msg].
      * destruct IH as (Hj & Hused & (a' & Ha' & Hacc) & Hfirst).
        split; [lia|]. split; [done|]. split.
        -- exists a'. split; [|done]. apply Hshift; [lia|lia|done].
        -- intros j' b [Hlo Hhi] Hu' Hb.
           destruct (decide (j' = j0)) as [->|Hne].
           ++ rewrite Nat.sub_diag in Hb. by injection Hb as <-.
           ++ apply (Hfirst j' b); [lia|done|]. by apply Hshift.
      * intros j b Hj Hu' Hb.
        destruct (decide (j = j0)) as [->|Hne].
        -- rewrite Nat.sub_diag in Hb. by injection Hb as <-.
        -- apply (IH j b); [lia|done|]. by apply Hshift.
      * destruct IH as (j & Hj & Hused & (a' & Ha' & Hacc) & Hfirst).
        exists j. split; [lia|]. split; [done|]. split.
        -- exists a'. split; [|done]. apply Hshift; [lia|lia|done].
        -- intros j' b [Hlo Hhi] Hu' Hb.
           destruct (decide (j' = j0)) as [->|Hne].
           ++ rewrite Nat.sub_diag in Hb. by injection Hb as <-.
           ++ apply (Hfirst j' b); [lia|done|]. by apply Hshift.
    + exists j0. split; [done|]. split; [done|]. split.
      * exists a. by rewrite Nat.sub_diag.
      * intros j' b ?. lia.
Qed.

Lemma marks_lookup used taken n j :
  marks used taken n → used !! j = Some false ↔ j < n ∧ j ∉ taken.
Proof.
  intros [Hlen Hmarks]. split.
  - intros Hu. assert (j < n) as Hj by (rewrite <- Hlen; by eapply lookup_lt_Some).
    split; [done|]. rewrite (Hmarks j Hj) in Hu. injection Hu as Hu.
    by apply bool_decide_eq_false in Hu.
  - intros [Hj Hnot]. rewrite (Hmarks j Hj). by rewrite bool_decide_eq_false_2.
Qed.

Lemma marks_insert used taken n j :
  marks used taken n → j < n → marks (<[j:=true]> used) (j :: taken) n.
Proof.
  intros [Hlen Hmarks] Hj. split; [by rewrite length_insert|].
  intros j' Hj'. destruct (decide (j' = j)) as [->|Hne].
  - rewrite list_lookup_insert_eq by lia. f_equal. symmetry.
    apply bool_decide_eq_true. by left.
  - rewrite list_lookup_insert_ne by done. rewrite (Hmarks j' Hj'). f_equal.
    apply bool_decide_ext. rewrite elem_of_cons. split; [by right|by intros [?|?]].
Qed.

Lemma marks_replicate n : marks (replicate n false) [] n.
Proof.
  split; [by rewrite length_replicate|]. intros j Hj.
  rewrite lookup_replicate_2 by done.
  by rewrite bool_decide_eq_false_2 by apply not_elem_of_nil.
Qed.

(** The outcome of the inner loop, on the indices taken. *)
Lemma UnorderedArray_probe_greedy e used taken arr :
  marks used taken (length arr) →
  match UnorderedArray_probe e used 0 arr with
  | Found j => first_match e arr taken j
  | NotFound => no_match e arr taken
  | Panicked msg =>
      ∃ j a, (j ∉ taken) ∧ arr !! j = Some a ∧ match_ e "probe" a = Panic msg ∧
        ∀ j' a', j' < j → j' ∉ taken → arr !! j' = Some a' → rejects e a'
  end.
Proof.
  intros Hmarks.
  pose proof (UnorderedArray_probe_outcome e used 0 arr) as Hprobe.
  destruct Hmarks as [Hlen Hmarks']. specialize (Hprobe ltac:(lia)).
  assert (marks used taken (length arr)) as Hmarks by done.
  destruct (UnorderedArray_probe e used 0 arr) as [j| |msg].
  - destruct Hprobe as (_ & Hu & (a & Ha & Hacc) & Hfirst).
    rewrite Nat.sub_0_r in Ha.
    apply (marks_lookup _ _ _ _ Hmarks) in Hu as [_ Hu].
    split; [done|]. split; [by exists a|].
    intros j' a' Hj' Hnot Ha'. apply (Hfirst j' a'); [lia| |by rewrite Nat.sub_0_r].
    apply (marks_lookup _ _ _ _ Hmarks). split; [by eapply lookup_lt_Some|done].
  - intros j a Hnot Ha. apply (Hprobe j a); [lia| |by rewrite Nat.sub_0_r].
    apply (marks_lookup _ _ _ _ Hmarks). split; [by eapply lookup_lt_Some|done].
  - destruct Hprobe as (j & _ & Hu & (a & Ha & Hpanic) & Hfirst).
    rewrite Nat.sub_0_r in Ha.
    apply (marks_lookup _ _ _ _ Hmarks) in Hu as [_ Hu].
    exists j, a. split; [done|]. split; [done|]. split; [done|].
    intros j' a' Hj' Hnot Ha'. apply (Hfirst j' a'); [lia| |by rewrite Nat.sub_0_r].
    apply (marks_lookup _ _ _ _ Hmarks). split; [by eapply lookup_lt_Some|done].
Qed.

(** A first match is unique, and excludes "no match". *)
Lemma first_match_unique e arr taken j j' :
  first_match e arr taken j → first_match e arr taken j' → j = j'.
Proof.
  intros (Hj & (a & Ha & Hacc) & Hfirst) (Hj' & (a' & Ha' & Hacc') & Hfirst').
  destruct (Nat.lt_trichotomy j j') as [Hlt|[->|Hlt]]; [|done|].
  - destruct (Hfirst' j a Hlt Hj Ha) as [err Herr]. unfold accepts in Hacc. congruence.
  - destruct (Hfirst j' a' Hlt Hj' Ha') as [err Herr]. unfold accepts in Hacc'. congruence.
Qed.

Lemma first_match_no_match e arr taken j :
  first_match e arr taken j → no_match e arr taken → False.
Proof.
  intros (Hj & (a & Ha & Hacc) & _) Hnone.
  destruct (Hnone j a Hj Ha) as [err Herr]. unfold accepts in Hacc. congruence.
Qed.

Lemma UnorderedArray_probe_Found e used taken arr j :
  marks used taken (length arr) →
  UnorderedArray_probe e used 0 arr = Found j ↔ first_match e arr taken j.
Proof.
  intros Hmarks. pose proof (UnorderedArray_probe_greedy e used taken arr Hmarks) as H.
  split.
  - intros Hprobe. by rewrite Hprobe in H.
  - intros Hfirst. destruct (UnorderedArray_probe e used 0 arr) as [j'| |msg].
    + f_equal. by eapply first_match_unique.
    + by destruct (first_match_no_match e arr taken j).
    + destruct H as (j' & a' & Hj' & Ha' & Hpanic & Hbefore).
      destruct Hfirst as (Hj & (a & Ha & Hacc) & Hfirst).
      unfold accepts in Hacc.
      destruct (Nat.lt_trichotomy j j') as [Hlt|[->|Hlt]].
      * destruct (Hbefore j a Hlt Hj Ha) as [err Herr]. congruence.
      * congruence.
      * destruct (Hfirst j' a' Hlt Hj' Ha') as [err Herr]. congruence.
Qed.

Lemma UnorderedArray_probe_NotFound e used taken arr :
  marks used taken (length arr) →
  UnorderedArray_probe e used 0 arr = NotFound ↔ no_match e arr taken.
Proof.
  intros Hmarks. pose proof (UnorderedArray_probe_greedy e used taken arr Hmarks) as H.
  split.
  - intros Hprobe. by rewrite Hprobe in H.
  - intros Hnone. destruct (UnorderedArray_probe e used 0 arr) as [j'| |msg]; [|done|].
    + by destruct (first_match_no_match e arr taken j').
    + destruct H as (j' & a' & Hj' & Ha' & Hpanic & _).
      destruct (Hnone j' a' Hj' Ha') as [err Herr]. congruence.
Qed.

(** The outer loop is the greedy run. *)
Lemma UnorderedArray_loop_greedy path arr used taken i es :
  marks used taken (length arr) →
  (UnorderedArray_loop path arr used i es = OK ↔ ∃ js, greedy arr taken es js) ∧
  (∀ e k,
     UnorderedArray_loop path arr used i es
     = Fail (Errorf "at %s: expected element %v (index %d) not found in remaining actual elements"
               [ArgString path; ArgExpected e; ArgInt k])
     ↔ greedy_stuck arr taken i es e k).
Proof.
  revert used taken i. induction es as [|e0 es IH]; intros used taken i Hmarks.
  { simpl. split.
    - split; [intros _; exists []; constructor|done].
    - intros e k. split; [done|inversion 1]. }
  cbn [UnorderedArray_loop].
  pose proof (UnorderedArray_probe_Found e0 used taken arr) as HFound.
  pose proof (UnorderedArray_probe_NotFound e0 used taken arr Hmarks) as HNotFound.
  destruct (UnorderedArray_probe e0 used 0 arr) as [j| |msg] eqn:Hprobe.
  - pose proof (proj1 (HFound j Hmarks) eq_refl) as Hfirst.
    assert (j < length arr) as Hj.
    { destruct Hfirst as (_ & (a & Ha & _) & _). by eapply lookup_lt_Some. }
    destruct (IH (<[j:=true]> used) (j :: taken) (S i) (marks_insert _ _ _ _ Hmarks Hj))
      as [IHok IHfail].
    split.
    + rewrite IHok. split.
      * intros [js Hjs]. exists (j :: js). by constructor.
      * intros [js Hjs]. inversion Hjs as [|? ? ? j' js' Hfirst' Hrest]; subst.
        rewrite (first_match_unique _ _ _ _ _ Hfirst Hfirst'). by exists js'.
    + intros e k. rewrite IHfail. split.
      * intros Hstuck. by eapply greedy_stuck_later.
      * inversion 1 as [? ? ? ? Hnone|? ? ? ? j' ? ? Hfirst' Hrest]; subst.
        -- by destruct (first_match_no_match e arr taken j).
        -- by rewrite (first_match_unique _ _ _ _ _ Hfirst Hfirst').
  - pose proof (proj1 HNotFound eq_refl) as Hnone. split.
    + split; [done|]. intros [js Hjs].
      inversion Hjs as [|? ? ? j' js' Hfirst' Hrest]; subst.
      by destruct (first_match_no_match e0 arr taken j').
    + intros e k. split.
      * intros [= -> Hk]. apply Nat2Z.inj in Hk as ->. by constructor.
      * inversion 1 as [? ? ? ? Hnone'|? ? ? ? j' ? ? Hfirst' Hrest]; subst; [done|].
        by destruct (first_match_no_match e0 arr taken j').
  - split.
    + split; [done|]. intros [js Hjs].
      inversion Hjs as [|? ? ? j' js' Hfirst' Hrest]; subst.
      apply (HFound j' Hmarks) in Hfirst'. congruence.
    + intros e k. split; [done|].
      inversion 1 as [? ? ? ? Hnone'|? ? ? ? j' ? ? Hfirst' Hrest]; subst.
      * apply HNotFound in Hnone'. congruence.
      * apply (HFound j' Hmarks) in Hfirst'. congruence.
Qed.

(** C4: [UnorderedArray] assigns greedily and never reconsiders.  On an
    actual array of the expected length it succeeds exactly when the
    greedy run goes through: each expected element, in order, takes the
    least index that is not taken yet and whose element it accepts, and
    keeps it.  It fails naming an expected element and its index exactly
    when the greedy run reaches that element with no untaken element it
    accepts, whatever assignment another choice would have left.  So
    expected [[OneOf("A","B"), "B"]] against actual [["B", "A"]], which
    has a complete assignment, fails: the error names the expected element
    ["B"] and its index 1. *)
Theorem UnorderedArray_greedy_first_match (path : string) :
  (∀ es arr,
     length es = length arr →
     (match_ (UnorderedArray es) path (VSlice arr) = OK ↔ ∃ js, greedy arr [] es js) ∧
     (∀ e k,
        match_ (UnorderedArray es) path (VSlice arr)
        = Fail (Errorf "at %s: expected element %v (index %d) not found in remaining actual elements"
                  [ArgString path; ArgExpected e; ArgInt k])
        ↔ greedy_stuck arr [] 0 es e k)) ∧
  let es := [OneOf ["A"; "B"]; Lit (VString "B")] in
  let arr := [VString "B"; VString "A"] in
  length es = length arr ∧
  (∃ bs, bs ≡ₚ arr ∧ Forall2 (λ e a, ∀ p, match_ e p a = OK) es bs) ∧
  match_ (UnorderedArray es) path (VSlice arr)
  = Fail (Errorf "at %s: expected element %v (index %d) not found in remaining actual elements"
            [ArgString path; ArgExpected (Lit (VString "B")); ArgInt 1]).
Proof.
  split.
  - intros es arr Hlen.
    change (match_ (UnorderedArray es) path (VSlice arr))
      with (if negb (bool_decide (length arr = length es))
            then Fail (Errorf "at %s: expected array length %d, got %d"
                         [ArgString path; ArgInt (length es); ArgInt (length arr)])
            else UnorderedArray_loop path arr (replicate (length arr) false) 0 es).
    rewrite bool_decide_eq_true_2 by done. cbn [negb].
    apply UnorderedArray_loop_greedy, marks_replicate.
  - simpl. split; [done|]. split; [|done].
    exists [VString "A"; VString "B"]. split; [apply Permutation_swap|].
    repeat constructor.
Qed.

(** ** Integer to float conversion never yields NaN *)

Section rounding.
Variables prec emax : Z.

Lemma shr_1_nonneg mrs : (0 ≤ shr_m mrs)%Z → (0 ≤ shr_m (shr_1 mrs))%Z.
Proof. destruct mrs as [[|[p|p|]|p] r s]; simpl; lia. Qed.

Lemma iter_pos_shr_1_nonneg p mrs :
  (0 ≤ shr_m mrs)%Z → (0 ≤ shr_m (SpecFloat.iter_pos shr_1 p mrs))%Z.
Proof.
  revert mrs. induction p as [p IH|p IH|]; intros mrs Hm; simpl.
  - by apply IH, IH, shr_1_nonneg.
  - by apply IH, IH.
  - by apply shr_1_nonneg.
Qed.

Lemma shr_fexp_nonneg m e l :
  (0 ≤ m)%Z → (0 ≤ shr_m (fst (shr_fexp prec emax m e l)))%Z.
Proof.
  intros Hm. unfold shr_fexp, shr.
  assert (0 ≤ shr_m (shr_record_of_loc m l))%Z as Hrec by (by destruct l as [|[]]).
  destruct (fexp prec emax (Zdigits2 m + e) - e)%Z; simpl; try done.
  by apply iter_pos_shr_1_nonneg.
Qed.

Lemma round_nearest_even_nonneg mx lx :
  (0 ≤ mx)%Z → (0 ≤ round_nearest_even mx lx)%Z.
Proof. destruct lx as [|[]]; simpl; try destruct (Z.even mx); lia. Qed.

Lemma binary_round_aux_not_nan sx mx ex lx :
  (0 ≤ mx)%Z → binary_round_aux prec emax sx mx ex lx ≠ S754_nan.
Proof.
  intros Hm. unfold binary_round_aux.
  pose proof (shr_fexp_nonneg mx ex lx Hm) as H1.
  destruct (shr_fexp prec emax mx ex lx) as [mrs' e']. simpl in H1.
  pose proof (shr_fexp_nonneg _ e' loc_Exact
                (round_nearest_even_nonneg _ (loc_of_shr_record mrs') H1)) as H2.
  destruct (shr_fexp prec emax _ e' loc_Exact) as [mrs'' e'']. simpl in H2.
  destruct (shr_m mrs''); [done| |lia].
  by destruct (e'' <=? emax - prec)%Z.
Qed.

Lemma binary_normalize_not_nan m e szero :
  binary_normalize prec emax m e szero ≠ S754_nan.
Proof.
  destruct m as [|m|m]; simpl; [done|..]; unfold binary_round;
    destruct (shl_align m e _) as [mz ez]; by apply binary_round_aux_not_nan.
Qed.
End rounding.

Lemma float64_of_Z_eqb n : SFeqb (float64_of_Z n) (float64_of_Z n) = true.
Proof. apply SFeqb_refl, binary_normalize_not_nan. Qed.

(** ** Unordered arrays of scalar literals *)

Lemma decoded_type_json_image v :
  matchable_scalar v = true → decoded_type (json_image v) = true.
Proof. by destruct v. Qed.

Lemma literal_accepts_json_image v :
  matchable_scalar v = true → literal_accepts v (json_image v) = true.
Proof.
  destruct v as [|b|t n|t n|f|f|s|l|m]; try done; unfold literal_accepts; simpl.
  - intros _. by rewrite bool_decide_eq_true_2.
  - intros _. apply float64_of_Z_eqb.
  - intros [_ Hf]%andb_true_iff. rewrite SFeqb_refl; [done|]. by intros ->.
  - intros _. by rewrite bool_decide_eq_true_2.
Qed.

(** Scalar literals accept decoded values rectangularly. *)
Lemma literal_accepts_rectangular v v' a b :
  matchable_scalar v = true → matchable_scalar v' = true →
  decoded_type a = true → decoded_type b = true →
  literal_accepts v a = true → literal_accepts v b = true →
  literal_accepts v' a = true → literal_accepts v' b = true.
Proof.
  unfold literal_accepts.
  destruct v as [|?|? n|? ?|?|f|?|?|?]; try done; intros _;
    (destruct v' as [|?|? n'|? ?|?|f'|?|?|?]; try done; intros _);
    (destruct a as [|?|? ?|? ?|?|fa|?|?|?]; simpl; try done; intros _);
    (destruct b as [|?|? ?|? ?|?|fb|?|?|?]; simpl; try done; intros _);
    rewrite ?orb_false_r, ?andb_true_iff, ?bool_decide_eq_true;
    intros; destruct_and?; simplify_eq; try done;
    try (rewrite ?andb_true_iff, ?bool_decide_eq_true; done);
    eauto using SFeqb_sym, SFeqb_trans.
Qed.

(** C8 (as amended): for every list of scalar literals that are [nil],
    booleans, strings, signed integers or finite [float64] values
    (pairwise distinct or not), [UnorderedArray] of them succeeds on every
    permutation of their decoded forms. *)
Theorem UnorderedArray_permutation (vs arr : list Value) (path : string) :
  Forall (λ v, matchable_scalar v = true) vs →
  arr ≡ₚ json_image <$> vs →
  match_ (UnorderedArray (Lit <$> vs)) path (VSlice arr) = OK.
Proof.
  intros Hvs Hperm. apply UnorderedArray_OK.
  - intros e a msg (v & -> & _)%list_elem_of_fmap _. apply match_Lit_no_panic.
  - intros e e' a b (v & -> & Hv)%list_elem_of_fmap (v' & -> & Hv')%list_elem_of_fmap.
    rewrite !Hperm. intros (va & -> & Hva)%list_elem_of_fmap (vb & -> & Hvb)%list_elem_of_fmap.
    unfold accepts. rewrite !match_Lit_OK.
    rewrite Forall_forall in Hvs.
    apply literal_accepts_rectangular; auto using decoded_type_json_image.
  - exists (json_image <$> vs). split; [done|].
    apply Forall2_fmap, Forall_Forall2_diag.
    eapply Forall_impl; [done|]. intros v Hv. simpl.
    unfold accepts. by apply match_Lit_OK, literal_accepts_json_image.
Qed.

(** [UnorderedArray(1,2,3)] against the decoded array [[3,1,2]]. *)
Lemma UnorderedArray_permutation_witness :
  Forall (λ v, matchable_scalar v = true) [VInt int 1; VInt int 2; VInt int 3] ∧
  [number 3; number 1; number 2] ≡ₚ json_image <$> [VInt int 1; VInt int 2; VInt int 3] ∧
  match_ (UnorderedArray [lit 1; lit 2; lit 3]) "$"
    (VSlice [number 3; number 1; number 2]) = OK.
Proof.
  assert (Forall (λ v, matchable_scalar v = true) [VInt int 1; VInt int 2; VInt int 3])
    as Hvs by (repeat constructor).
  assert ([number 3; number 1; number 2]
          ≡ₚ json_image <$> [VInt int 1; VInt int 2; VInt int 3]) as Hperm.
  { apply (Permutation_cons_append [number 1; number 2] (number 3)). }
  split; [done|]. split; [done|].
  exact (UnorderedArray_permutation _ _ "$" Hvs Hperm).
Defined.

(** C8 as stated fails for a scalar literal of unsigned kind: [uint8(7)]
    does not match the decoded number [7]. *)
Lemma UnorderedArray_permutation_counterexample :
  NoDup [VUint uint8 7] ∧
  [number 7] ≡ₚ json_image <$> [VUint uint8 7] ∧
  match_ (UnorderedArray (Lit <$> [VUint uint8 7])) "$" (VSlice [number 7]) ≠ OK.
Proof.
  split; [apply NoDup_singleton|]. split; [done|]. by vm_compute.
Qed.

(** ** Deferred pattern errors *)

(** C6: let [pattern] be a pattern that [regexp.Compile] rejects with
    [err].  [Regexp(pattern)] is still a matcher; on any string it fails
    with the message that cites the pattern and wraps [err]; on a value
    that is not a string it fails with the type mismatch only. *)
Theorem Regexp_invalid_pattern_deferred `{!regexp.Pkg}
    (pattern : string) (err : Error) (path : string) :
  regexp.Compile pattern = inr err →
  (∃ m, Regexp pattern = Matcher m) ∧
  (∀ s, match_ (Regexp pattern) path (VString s)
        = Fail (Errorf "at %s: %w"
                  [ArgString path;
                   ArgError (Errorf "invalid regexp pattern %q: %w"
                               [ArgString pattern; ArgError err])])) ∧
  (∀ value, (∀ s, value ≠ VString s) →
     match_ (Regexp pattern) path value
     = Fail (Errorf "at %s: expected string, got %T" [ArgString path; ArgValue value])).
Proof.
  intros Hcompile. split; [by eexists|]. split.
  - intros s. simpl. by rewrite Hcompile.
  - intros value Hvalue. destruct value; try done. by destruct (Hvalue s).
Qed.

(** The pattern [(] under the sample package. *)
Lemma Regexp_invalid_pattern_deferred_witness :
  @regexp.Compile sample_regexp "("
  = inr (ErrorString "error parsing regexp: missing closing ): `(`") ∧
  fmt.message (match_ (@Regexp sample_regexp "(") "$.code" (VString "abc"))
  = Some ("at $.code: invalid regexp pattern " +:+ fmt.double_quote +:+ "("
          +:+ fmt.double_quote +:+ ": error parsing regexp: missing closing ): `(`").
Proof.
  split; [done|].
  pose proof (@Regexp_invalid_pattern_deferred sample_regexp "(" _ "$.code" eq_refl)
    as (_ & Hstring & _).
  by rewrite Hstring.
Defined.

(** ** Time ranges *)

(** C10 (as amended): for a string that parses as RFC 3339 to the instant
    [t], [TimeWithinRange(startTime, endTime)] succeeds exactly when
    [startTime <= t <= endTime]; it fails, with the range message, exactly
    for [t] strictly before [startTime] or strictly after [endTime].  So
    when [startTime] is not after [endTime], both endpoints are accepted. *)
Theorem TimeWithinRange_inclusive `{!time.Pkg}
    (startTime endTime : time.Time) (s : string) (t : time.Time) (path : string) :
  time.Parse time.RFC3339 s = inl t →
  (match_ (TimeWithinRange startTime endTime) path (VString s) = OK
   ↔ (startTime ≤ t ≤ endTime)%Z) ∧
  (match_ (TimeWithinRange startTime endTime) path (VString s)
   = Fail (Errorf "at %s: %w"
             [ArgString path;
              ArgError (Errorf "expected time between %v and %v, got %v"
                          [ArgTime startTime; ArgTime endTime; ArgTime t])])
   ↔ (t < startTime ∨ endTime < t)%Z) ∧
  ((startTime ≤ endTime)%Z → t = startTime ∨ t = endTime →
   match_ (TimeWithinRange startTime endTime) path (VString s) = OK).
Proof.
  intros Hparse.
  assert (match_ (TimeWithinRange startTime endTime) path (VString s)
          = if time.Before t startTime || time.After t endTime
            then Fail (Errorf "at %s: %w"
                         [ArgString path;
                          ArgError (Errorf "expected time between %v and %v, got %v"
                                      [ArgTime startTime; ArgTime endTime; ArgTime t])])
            else OK) as ->.
  { simpl. unfold rfc3339Parser. rewrite Hparse. simpl.
    by destruct (time.Before t startTime || time.After t endTime). }
  unfold time.Before, time.After.
  repeat case_bool_decide; simpl; repeat split; try done; try lia; intros; lia.
Qed.

(** Both endpoints of the first second of 1970, under the sample package. *)
Lemma TimeWithinRange_inclusive_witness :
  @time.Parse sample_time time.RFC3339 "1970-01-01T00:00:01Z" = inl 1000000000%Z ∧
  (0 ≤ 1000000000)%Z ∧
  match_ (@TimeWithinRange sample_time 0%Z 1000000000%Z) "$" (VString "1970-01-01T00:00:01Z")
  = OK.
Proof.
  split; [done|]. split; [done|].
  pose proof (@TimeWithinRange_inclusive sample_time 0%Z 1000000000%Z
                "1970-01-01T00:00:01Z" 1000000000%Z "$" eq_refl) as (_ & _ & Hends).
  apply Hends; [done|by right].
Defined.

(** C10 as stated fails when [startTime] is after [endTime]: a value equal
    to [startTime] is then after [endTime] and is rejected. *)
Lemma TimeWithinRange_inverted_counterexample :
  @time.Parse sample_time time.RFC3339 "1970-01-01T00:00:01Z" = inl 1000000000%Z ∧
  match_ (@TimeWithinRange sample_time 1000000000%Z 0%Z) "$" (VString "1970-01-01T00:00:01Z")
  ≠ OK.
Proof. split; [done|]. by vm_compute. Qed.

(** ** Messages *)

(** C7 (as amended): the literal expectation [456] against the decoded
    value [123] fails with the message stating expected 456 (int), got 123
    (float64); the literal expectation [123] against the decoded value
    [456] fails with the message stating expected 123 (int), got 456
    (float64). *)
Theorem literal_mismatch_message :
  match_ (lit 456) "$" (number 123)
  = Fail (Errorf "at %s: expected %v (%T), got %v (%T)"
            [ArgString "$"; ArgValue (VInt int 456); ArgValue (VInt int 456);
             ArgValue (number 123); ArgValue (number 123)]) ∧
  fmt.message (match_ (lit 456) "$" (number 123))
  = Some "at $: expected 456 (int), got 123 (float64)" ∧
  match_ (lit 123) "$" (number 456)
  = Fail (Errorf "at %s: expected %v (%T), got %v (%T)"
            [ArgString "$"; ArgValue (VInt int 123); ArgValue (VInt int 123);
             ArgValue (number 456); ArgValue (number 456)]) ∧
  fmt.message (match_ (lit 123) "$" (number 456))
  = Some "at $: expected 123 (int), got 456 (float64)".
Proof. by vm_compute. Qed.

(** C7 as stated fails: with expectation [123] and actual value [456] the
    message does not state expected 456, got 123. *)
Lemma literal_mismatch_message_counterexample :
  fmt.message (match_ (lit 123) "$" (number 456))
  ≠ Some "at $: expected 456 (int), got 123 (float64)" ∧
  ∀ msg, fmt.message (match_ (lit 123) "$" (number 456)) = Some msg →
    String.index 0 "expected 456" msg = None ∧ String.index 0 "got 123" msg = None.
Proof.
  split; [by vm_compute|]. intros msg Hmsg. vm_compute in Hmsg.
  injection Hmsg as <-. by vm_compute.
Qed.

(** ** The test table of the repository

    The cases of [TestMatchers] that exercise this part of the package,
    on the decoded bodies and under the sample packages; each failing
    case gives the whole message, of which the test expects a part. *)

Example test_Null_Pass : match_ Null "$" VNil = OK.
Proof. reflexivity. Qed.

Example test_Null_Fail :
  fmt.message (match_ Null "$" (number 123)) = Some "at $: expected null, got 123".
Proof. reflexivity. Qed.

Example test_Bool_Fail :
  fmt.message (match_ Bool "$" (VString "true")) = Some "at $: expected boolean, got string".
Proof. reflexivity. Qed.

Example test_String_Fail :
  fmt.message (match_ String "$" (number 123)) = Some "at $: expected string, got float64".
Proof. reflexivity. Qed.

Example test_OneOf_Pass :
  match_ (OneOf ["apple"; "banana"; "cherry"]) "$" (VString "apple") = OK.
Proof. reflexivity. Qed.

Example test_OneOf_Fail :
  fmt.message (match_ (OneOf ["apple"; "banana"; "cherry"]) "$" (VString "pear"))
  = Some ("at $: expected one of [apple banana cherry], got "
          +:+ fmt.double_quote +:+ "pear" +:+ fmt.double_quote).
Proof. reflexivity. Qed.

Example test_Number_Value_Pass : match_ (lit 123) "$" (number 123) = OK.
Proof. reflexivity. Qed.

Example test_Number_Value_Fail :
  fmt.message (match_ (lit 456) "$" (number 123))
  = Some "at $: expected 456 (int), got 123 (float64)".
Proof. reflexivity. Qed.

Example test_Literal_Mismatch :
  fmt.message (match_ (Lit (VString "bar")) "$" (VString "foo"))
  = Some "at $: expected bar (string), got foo (string)".
Proof. reflexivity. Qed.

Example test_Literal_Type_Mismatch :
  fmt.message (match_ (Lit (VString "true")) "$" (VBool true))
  = Some "at $: expected true (string), got true (bool)".
Proof. reflexivity. Qed.

Example test_Object_Pass :
  match_ (Object {[ "a" := lit 1; "b" := String ]}) "$"
    (VMap {[ "a" := number 1; "b" := VString "s" ]}) = OK.
Proof. by vm_compute. Qed.

Example test_Object_Partial_Pass :
  match_ (Object {[ "a" := lit 1 ]}) "$" (VMap object_a_b_c) = OK.
Proof. by vm_compute. Qed.

Example test_Object_Missing_Key :
  fmt.message (match_ (Object {[ "b" := lit 2 ]}) "$" (VMap {[ "a" := number 1 ]}))
  = Some ("at $: missing key " +:+ fmt.double_quote +:+ "b" +:+ fmt.double_quote).
Proof. by vm_compute. Qed.

Example test_Object_Type_Mismatch :
  fmt.message (match_ (Object {[ "a" := String ]}) "$" (VMap {[ "a" := number 1 ]}))
  = Some "at $.a: expected string, got float64".
Proof. by vm_compute. Qed.

Example test_StrictObject_Pass :
  match_ (StrictObject {[ "a" := lit 1; "b" := lit 2 ]}) "$" (VMap object_a_b) = OK.
Proof. by vm_compute. Qed.

Example test_StrictObject_Extra_Key :
  fmt.message (match_ (StrictObject {[ "a" := lit 1; "b" := lit 2 ]}) "$" (VMap object_a_b_c))
  = Some ("at $: unexpected key " +:+ fmt.double_quote +:+ "c" +:+ fmt.double_quote).
Proof. by vm_compute. Qed.

Example test_StrictObject_Missing_Key :
  fmt.message (match_ (StrictObject {[ "a" := lit 1; "b" := lit 2 ]}) "$"
                 (VMap {[ "a" := number 1 ]}))
  = Some ("at $: missing key " +:+ fmt.double_quote +:+ "b" +:+ fmt.double_quote).
Proof. by vm_compute. Qed.

Example test_Array_Pass :
  match_ (Array [lit 1; Lit (VString "two"); Bool]) "$"
    (VSlice [number 1; VString "two"; VBool true]) = OK.
Proof. reflexivity. Qed.

Example test_Array_Length_Mismatch :
  fmt.message (match_ (Array [lit 1; lit 2; lit 3]) "$" (VSlice [number 1; number 2]))
  = Some "at $: expected array length 3, got 2".
Proof. reflexivity. Qed.

Example test_Array_Value_Mismatch :
  fmt.message (match_ (Array [lit 1; lit 4; lit 3]) "$"
                 (VSlice [number 1; number 2; number 3]))
  = Some "at $[1]: expected 4 (int), got 2 (float64)".
Proof. reflexivity. Qed.

Example test_UnorderedArray_with_Matchers_Pass :
  match_ (UnorderedArray [lit 1; String; lit 3]) "$"
    (VSlice [number 3; VString "two"; number 1]) = OK.
Proof. reflexivity. Qed.

Example test_UnorderedArray_Fail :
  fmt.message (match_ (UnorderedArray [lit 1; lit 2; lit 4]) "$"
                 (VSlice [number 1; number 2; number 3]))
  = Some "at $: expected element 4 (index 2) not found in remaining actual elements".
Proof. reflexivity. Qed.

Example sample_Regexp_Fail :
  fmt.message (match_ (@Regexp sample_regexp "abc-123") "$" (VString "abcd-123"))
  = Some ("at $: expected to match " +:+ fmt.double_quote +:+ "abc-123" +:+ fmt.double_quote
          +:+ ", got " +:+ fmt.double_quote +:+ "abcd-123" +:+ fmt.double_quote).
Proof. reflexivity. Qed.

Example message_of_the_unmatched_element :
  fmt.message (match_ (UnorderedArray [OneOf ["A"; "B"]; Lit (VString "B")]) "$"
                 (VSlice [VString "B"; VString "A"]))
  = Some "at $: expected element B (index 1) not found in remaining actual elements".
Proof. reflexivity. Qed.

Example message_at_nested_path :
  fmt.message
    (match_ (Object {[ "a" := Object {[ "b" := Array [lit 1; lit 2; lit 9] ]} ]}) "$"
       (VMap {[ "a" := VMap {[ "b" := VSlice [number 1; number 2; number 3] ]} ]}))
  = Some "at $.a.b[2]: expected 9 (int), got 3 (float64)".
Proof. by vm_compute. Qed.

Example test_body_kind :
  fmt.message (@isMatch sample_json (BodyOther (VInt int 5)) Null)
  = Some "body must be string or []byte, got int" ∧
  @isMatch sample_json (BodyString "null") Null = OK ∧
  fmt.message (@isMatch sample_json (BodyString "nul") Null)
  = Some "invalid json: invalid character".
Proof. by vm_compute. Qed.

(** * Further properties *)

Lemma Array_OK (elements : list Expected) (arr : list Value) (path : string) :
  match_ (Array elements) path (VSlice arr) = OK ↔
  length elements = length arr ∧
  ∀ i e a, elements !! i = Some e → arr !! i = Some a →
    match_ e (index_path path i) a = OK.
Proof.
  simpl. case_bool_decide as Hlen; simpl.
  - rewrite Array_loop_OK. split.
    + intros Hall. split; [done|]. intros i e a He Ha.
      destruct (Hall i e He) as (a' & Ha' & Hm). simpl in Ha', Hm. by simplify_eq.
    + intros [_ Hall] j e He. simpl.
      destruct (lookup_lt_is_Some_2 arr j) as [a Ha].
      { rewrite Hlen. by eapply lookup_lt_Some. }
      exists a. eauto.
  - split; [done|]. intros [? _]. congruence.
Qed.

(** ** Objects *)

(** X1: [StrictObject] accepts exactly the objects that [Object] accepts
    and that have no key outside the expected mapping, in whichever order
    each of the two runs visits the maps.  On an object with no such key
    the two have the same possible results, failures included: what one
    reports under some order of the expected members, the other reports
    under some order too. *)
Theorem StrictObject_is_Object_without_extra_keys
    (E : gmap string Expected) (A : gmap string Value) (path : string) :
  (∀ strict_order object_order : MapRange,
     match_ (@StrictObject strict_order E) path (VMap A) = OK ↔
     match_ (@Object object_order E) path (VMap A) = OK ∧ dom A ⊆ dom E) ∧
  (dom A ⊆ dom E →
   ∀ r,
     (∃ order : MapRange, match_ (@StrictObject order E) path (VMap A) = r) ↔
     (∃ order : MapRange, match_ (@Object order E) path (VMap A) = r)).
Proof.
  split.
  - intros strict_order object_order.
    rewrite (@StrictObject_OK strict_order), (@Object_OK object_order). tauto.
  - intros Hsub r.
    assert (∀ order : MapRange,
              match_ (@StrictObject order E) path (VMap A)
              = match_ (@Object order E) path (VMap A)) as Hsame.
    { intros order. simpl.
      assert (StrictObject_keys path E (range A) = OK) as ->; [|done].
      apply StrictObject_keys_OK. intros k a Hin%elem_of_range.
      apply elem_of_dom, Hsub, elem_of_dom. eauto. }
    split; intros [order <-]; exists order; by rewrite Hsame.
Qed.

(** With two failing members the failure that is reported depends on the
    order in which the members are visited. *)
Example Object_failure_depends_on_order :
  let E : gmap string Expected := {[ "a" := lit 1; "b" := lit 2 ]} in
  let A : gmap string Value := {[ "a" := number 0; "b" := number 0 ]} in
  match_ (@Object range_map_to_list E) "$" (VMap A)
  ≠ match_ (@Object range_reversed E) "$" (VMap A).
Proof. vm_compute. discriminate. Qed.

(** X2: with nothing expected, [Object] accepts every object while
    [StrictObject] accepts the empty object only, and [Array] and
    [UnorderedArray] accept the empty array only. *)
Theorem empty_expectations `{!MapRange} (path : string) :
  (∀ A, match_ (Object ∅) path (VMap A) = OK) ∧
  (∀ A, match_ (StrictObject ∅) path (VMap A) = OK ↔ A = ∅) ∧
  (∀ arr, match_ (Array []) path (VSlice arr) = OK ↔ arr = []) ∧
  (∀ arr, match_ (UnorderedArray []) path (VSlice arr) = OK ↔ arr = []).
Proof.
  split; [|split; [|split]].
  - intros A. apply Object_OK. intros k e Hk. by rewrite lookup_empty in Hk.
  - intros A. rewrite StrictObject_OK. split.
    + intros [Hsub _]. apply dom_empty_iff_L. rewrite dom_empty_L in Hsub. set_solver.
    + intros ->. split; [done|]. intros k e Hk. by rewrite lookup_empty in Hk.
  - intros arr. simpl. destruct arr; simpl; split; done.
  - intros arr. simpl. destruct arr; simpl; split; done.
Qed.

(** X3: a member whose value is [null] is present.  [Object] expecting
    [Null()] under [key] succeeds when the object has [key] with the value
    [null], reports the value when it has [key] with another value, and
    reports a missing key only when it lacks [key]. *)
Theorem Object_null_is_not_missing `{!MapRange}
    (key : string) (A : gmap string Value) (path : string) :
  match_ (Object {[ key := Null ]}) path (VMap A)
  = match A !! key with
    | Some VNil => OK
    | Some actual =>
        Fail (Errorf "at %s: expected null, got %v"
                [ArgString (path +:+ "." +:+ key); ArgValue actual])
    | None => Fail (missing_key path key)
    end.
Proof.
  simpl. rewrite range_singleton. simpl.
  destruct (A !! key) as [actual|]; [|done]. by destruct actual.
Qed.

(** ** Unordered arrays *)

Lemma remaining_insert arr used j a :
  used !! j = Some false → arr !! j = Some a →
  remaining arr used ≡ₚ a :: remaining arr (<[j:=true]> used).
Proof.
  revert used j. induction arr as [|b arr IH]; intros [|u used] j Hu Ha; try done.
  destruct j as [|j]; simpl in *.
  - by simplify_eq.
  - destruct u; [by apply IH|].
    rewrite (IH used j) by done. apply Permutation_swap.
Qed.

Lemma UnorderedArray_loop_sound path arr used i es :
  UnorderedArray_loop path arr used i es = OK →
  ∃ bs rest, bs ++ rest ≡ₚ remaining arr used ∧ Forall2 accepts es bs.
Proof.
  revert used i. induction es as [|e es IH]; intros used i; simpl.
  { intros _. exists [], (remaining arr used). split; [done|constructor]. }
  destruct (UnorderedArray_probe e used 0 arr) as [j| |msg] eqn:Hprobe; [|done..].
  intros (bs & rest & Hperm & Hall)%IH.
  apply UnorderedArray_probe_first in Hprobe as (_ & Hu & (a & Ha & Hacc) & _).
  rewrite Nat.sub_0_r in Ha.
  exists (a :: bs), rest. split; [|by constructor].
  rewrite (remaining_insert arr used j a) by done. simpl. by rewrite Hperm.
Qed.

Lemma UnorderedArray_OK_arrangement es arr path :
  match_ (UnorderedArray es) path (VSlice arr) = OK →
  ∃ bs, bs ≡ₚ arr ∧ Forall2 accepts es bs.
Proof.
  simpl. case_bool_decide as Hlen; [|done]. simpl.
  intros (bs & rest & Hperm & Hall)%UnorderedArray_loop_sound.
  rewrite remaining_replicate in Hperm.
  assert (rest = []) as ->.
  { apply length_zero_iff_nil. apply Permutation_length in Hperm.
    apply Forall2_length in Hall. rewrite length_app in Hperm. lia. }
  rewrite app_nil_r in Hperm. by exists bs.
Qed.

(** X4: [UnorderedArray] is sound.  When it succeeds, the actual elements
    can be arranged so that every expected element accepts the actual
    element at its position. *)
Theorem UnorderedArray_sound (es : list Expected) (arr : list Value) (path : string) :
  match_ (UnorderedArray es) path (VSlice arr) = OK →
  ∃ bs, bs ≡ₚ arr ∧ Forall2 accepts es bs.
Proof. apply UnorderedArray_OK_arrangement. Qed.

(** The test case with matchers among the elements. *)
Lemma UnorderedArray_sound_witness :
  match_ (UnorderedArray [lit 1; String; lit 3]) "$"
    (VSlice [number 3; VString "two"; number 1]) = OK ∧
  ∃ bs, bs ≡ₚ [number 3; VString "two"; number 1] ∧
        Forall2 accepts [lit 1; String; lit 3] bs.
Proof.
  split; [reflexivity|].
  exact (UnorderedArray_sound [lit 1; String; lit 3]
           [number 3; VString "two"; number 1] "$" eq_refl).
Defined.

(** The inner loop passes over consumed elements: when the elements before
    index [i] are consumed and element [i] is free and accepted, it
    returns [i]. *)
Lemma UnorderedArray_probe_skip e used arr j0 i a :
  (∀ k, k < i → used !! (j0 + k) = Some true) →
  used !! (j0 + i) = Some false → arr !! i = Some a → accepts e a →
  UnorderedArray_probe e used j0 arr = Found (j0 + i).
Proof.
  revert arr j0. induction i as [|i IH]; intros [|b arr] j0 Hbefore Hu Ha Hacc; try done.
  - simpl in *. rewrite Nat.add_0_r in *. injection Ha as ->.
    rewrite Hu. unfold accepts in Hacc. by rewrite Hacc.
  - simpl in *. pose proof (Hbefore 0 ltac:(lia)) as H0.
    rewrite Nat.add_0_r in H0. rewrite H0.
    rewrite <- Nat.add_succ_comm in Hu |- *. apply IH; try done.
    intros k Hk. rewrite Nat.add_succ_comm. apply Hbefore. lia.
Qed.

Lemma UnorderedArray_loop_in_order path arr used i i' es :
  (∀ k, k < i → used !! k = Some true) →
  (∀ k, i ≤ k → k < length arr → used !! k = Some false) →
  (∀ k e, es !! k = Some e → ∃ a, arr !! (i + k) = Some a ∧ accepts e a) →
  UnorderedArray_loop path arr used i' es = OK.
Proof.
  revert used i i'. induction es as [|e es IH]; intros used i i' Hbefore Hafter Hall; [done|].
  simpl. destruct (Hall 0 e eq_refl) as (a & Ha & Hacc). rewrite Nat.add_0_r in Ha.
  assert (i < length arr) as Hi by (by eapply lookup_lt_Some).
  rewrite (UnorderedArray_probe_skip e used arr 0 i a); try done; [|by apply Hafter].
  simpl. apply (IH _ (S i)).
  - intros k Hk. destruct (decide (k = i)) as [->|Hne].
    + apply list_lookup_insert_eq. eapply lookup_lt_Some. by apply Hafter.
    + rewrite list_lookup_insert_ne by done. apply Hbefore. lia.
  - intros k Hk Hk'. rewrite list_lookup_insert_ne by lia. apply Hafter; lia.
  - intros k e' He'. rewrite Nat.add_succ_comm. by apply Hall.
Qed.

(** X5: an array that matches position by position matches unordered.
    When the two lists have one length and every expected element accepts
    the actual element at its index, [UnorderedArray] succeeds; so for
    literal elements it succeeds wherever [Array] does. *)
Theorem UnorderedArray_accepts_in_order (path : string) :
  (∀ es arr,
     length es = length arr →
     (∀ i e a, es !! i = Some e → arr !! i = Some a → accepts e a) →
     match_ (UnorderedArray es) path (VSlice arr) = OK) ∧
  (∀ vs arr path',
     match_ (Array (Lit <$> vs)) path' (VSlice arr) = OK →
     match_ (UnorderedArray (Lit <$> vs)) path (VSlice arr) = OK).
Proof.
  assert (∀ es arr,
     length es = length arr →
     (∀ i e a, es !! i = Some e → arr !! i = Some a → accepts e a) →
     match_ (UnorderedArray es) path (VSlice arr) = OK) as Hgeneral.
  { intros es arr Hlen Hall. simpl. rewrite bool_decide_eq_true_2 by done. simpl.
    apply (UnorderedArray_loop_in_order _ _ _ 0).
    - intros k Hk. lia.
    - intros k _ Hk. by apply lookup_replicate_2.
    - intros k e He. simpl.
      destruct (lookup_lt_is_Some_2 arr k) as [a Ha].
      { rewrite <- Hlen. by eapply lookup_lt_Some. }
      exists a. eauto. }
  split; [done|].
  intros vs arr path' [Hlen Hall]%Array_OK. apply Hgeneral; [done|].
  intros i e a He Ha. pose proof (Hall i e a He Ha) as Hm.
  apply list_lookup_fmap_Some in He as (v & -> & _).
  unfold accepts. rewrite match_Lit_OK in Hm |- *. done.
Qed.

Lemma scalar_accepts_rectangular v v' a b :
  scalar v = true → scalar v' = true →
  decoded_type a = true → decoded_type b = true →
  literal_accepts v a = true → literal_accepts v b = true →
  literal_accepts v' a = true → literal_accepts v' b = true.
Proof.
  unfold literal_accepts.
  destruct v as [|?|? n|? ?|?|f|?|?|?]; try done; intros _;
    (destruct v' as [|?|? n'|? ?|?|f'|?|?|?]; try done; intros _);
    (destruct a as [|?|? ?|? ?|?|fa|?|?|?]; simpl; try done; intros _);
    (destruct b as [|?|? ?|? ?|?|fb|?|?|?]; simpl; try done; intros _);
    rewrite ?orb_false_r, ?andb_true_iff, ?bool_decide_eq_true;
    intros; destruct_and?; simplify_eq; try done;
    try (rewrite ?andb_true_iff, ?bool_decide_eq_true; done);
    eauto using SFeqb_sym, SFeqb_trans.
Qed.

(** X6: on scalar literals the greedy search is exact.  For scalar
    literals [vs] and an actual array of decoded values, [UnorderedArray]
    succeeds if and only if the actual elements can be arranged so that
    each literal accepts the element at its position. *)
Theorem UnorderedArray_scalars_exact (vs arr : list Value) (path : string) :
  Forall (λ v, scalar v = true) vs →
  Forall (λ a, decoded_type a = true) arr →
  (match_ (UnorderedArray (Lit <$> vs)) path (VSlice arr) = OK ↔
   ∃ bs, bs ≡ₚ arr ∧ Forall2 (λ v a, literal_accepts v a = true) vs bs).
Proof.
  intros Hvs Harr. rewrite Forall_forall in Hvs. rewrite Forall_forall in Harr.
  assert (∀ bs, Forall2 accepts (Lit <$> vs) bs
                ↔ Forall2 (λ v a, literal_accepts v a = true) vs bs) as Hacc.
  { intros bs. rewrite Forall2_fmap_l.
    split; intros H; (eapply Forall2_impl; [exact H|]); intros v a;
      unfold accepts; simpl; apply match_Lit_OK. }
  split.
  - intros (bs & Hperm & Hall)%UnorderedArray_OK_arrangement. exists bs. by rewrite <- Hacc.
  - intros (bs & Hperm & Hall). apply UnorderedArray_OK.
    + intros e a msg (v & -> & _)%list_elem_of_fmap _. apply match_Lit_no_panic.
    + intros e e' a b (v & -> & Hv)%list_elem_of_fmap (v' & -> & Hv')%list_elem_of_fmap
        Ha Hb.
      unfold accepts. rewrite !match_Lit_OK.
      apply scalar_accepts_rectangular; auto.
    + exists bs. by rewrite Hacc.
Qed.

(** Two equal numbers written as an [int] and as a [float64] literal. *)
Lemma UnorderedArray_scalars_exact_witness :
  Forall (λ v, scalar v = true) [VInt int 2; VFloat64 (float64_of_Z 2)] ∧
  Forall (λ a, decoded_type a = true) [number 2; number 2] ∧
  match_ (UnorderedArray (Lit <$> [VInt int 2; VFloat64 (float64_of_Z 2)])) "$"
    (VSlice [number 2; number 2]) = OK.
Proof.
  assert (Forall (λ v, scalar v = true) [VInt int 2; VFloat64 (float64_of_Z 2)])
    as Hvs by (repeat constructor).
  assert (Forall (λ a, decoded_type a = true) [number 2; number 2])
    as Harr by (repeat constructor).
  split; [done|]. split; [done|].
  apply (UnorderedArray_scalars_exact _ _ "$" Hvs Harr).
  exists [number 2; number 2]. split; [done|]. repeat constructor.
Defined.

(** ** Literals *)

(** X7: string, boolean and [nil] literals match exactly the equal value,
    with no conversion between kinds; a [nil] literal accepts what
    [Null()] accepts. *)
Theorem scalar_literals_are_exact (path : string) (actual : Value) :
  (∀ s, match_ (Lit (VString s)) path actual = OK ↔ actual = VString s) ∧
  (∀ b, match_ (Lit (VBool b)) path actual = OK ↔ actual = VBool b) ∧
  (match_ (Lit VNil) path actual = OK ↔ actual = VNil) ∧
  (match_ (Lit VNil) path actual = OK ↔ match_ Null path actual = OK).
Proof.
  split; [|split; [|split]]; intros; rewrite ?match_Lit_OK; unfold literal_accepts;
    destruct actual; simpl; rewrite ?orb_false_r, ?bool_decide_eq_true;
    split; intros; simplify_eq; done.
Qed.

(** X8: a [float64] literal matches by [==].  It accepts exactly the
    [float64] values equal to it, so a NaN literal accepts nothing and the
    two zeros accept each other; the [int] literal [0] accepts the
    negative zero as well. *)
Theorem float_literal_matches_by_equality (path : string) :
  (∀ g actual,
     match_ (Lit (VFloat64 g)) path actual = OK ↔
     ∃ f, actual = VFloat64 f ∧ SFeqb g f = true) ∧
  (∀ actual, match_ (Lit (VFloat64 S754_nan)) path actual
             = Fail (literal_mismatch path (VFloat64 S754_nan) actual)) ∧
  (∀ s s', match_ (Lit (VFloat64 (S754_zero s))) path (VFloat64 (S754_zero s')) = OK) ∧
  (∀ t s, match_ (Lit (VInt t 0)) path (VFloat64 (S754_zero s)) = OK).
Proof.
  split; [|split; [|split]].
  - intros g actual. rewrite match_Lit_OK. unfold literal_accepts.
    destruct actual; simpl; rewrite ?orb_false_r;
      try (split; [done|by intros (? & ? & _)]).
    split; [by eauto|]. by intros (? & [= ->] & ?).
  - intros actual. rewrite match_Lit. by destruct actual.
  - intros s s'. by apply match_Lit_OK.
  - intros t s. by apply match_Lit_OK.
Qed.

Lemma DeepEqual_slice l1 l2 :
  reflect.DeepEqual (VSlice l1) (VSlice l2) = true ↔
  Forall2 (λ x y, reflect.DeepEqual x y = true) l1 l2.
Proof.
  revert l2. induction l1 as [|x l1 IH]; intros [|y l2]; simpl;
    try (split; [done|by inversion 1]).
  rewrite andb_true_iff. simpl in IH. rewrite IH.
  split; [intros []; by constructor | by inversion 1].
Qed.

Lemma DeepEqual_map (m1 m2 : gmap string Value) :
  reflect.DeepEqual (VMap m1) (VMap m2) = true ↔
  size m1 = size m2 ∧
  ∀ k x, m1 !! k = Some x → ∃ y, m2 !! k = Some y ∧ reflect.DeepEqual x y = true.
Proof.
  simpl. rewrite andb_true_iff, bool_decide_eq_true.
  apply and_iff_compat_l.
  apply (map_fold_weak_ind
    (λ r (m : gmap string Value),
       r = true ↔
       ∀ k x, m !! k = Some x → ∃ y, m2 !! k = Some y ∧ reflect.DeepEqual x y = true)).
  - split; [|done]. intros _ k x Hk. by rewrite lookup_empty in Hk.
  - intros i x m r Hi IH. rewrite andb_true_iff, IH. split.
    + intros [Hall Hx] k x' Hk. destruct (decide (k = i)) as [->|Hne].
      * rewrite lookup_insert_eq in Hk. injection Hk as <-.
        destruct (m2 !! i) as [y|]; [by exists y|done].
      * rewrite lookup_insert_ne in Hk by done. by apply Hall.
    + intros Hall. split.
      * intros k x' Hk. apply Hall. rewrite lookup_insert_ne; [done|]. congruence.
      * destruct (Hall i x) as (y & -> & Hy); [by rewrite lookup_insert_eq|done].
Qed.

(** X9: the integer coercion does not reach inside a literal slice or
    map.  A literal slice or map that holds an integer among its elements
    never matches a slice or map of decoded values, although [Array] of
    the same elements can. *)
Theorem literal_containers_do_not_coerce (t : int_type) (n : Z) (path : string) :
  (∀ l arr,
     VInt t n ∈ l → Forall (λ a, decoded_type a = true) arr →
     match_ (Lit (VSlice l)) path (VSlice arr)
     = Fail (literal_mismatch path (VSlice l) (VSlice arr))) ∧
  (∀ (m A : gmap string Value) k,
     m !! k = Some (VInt t n) → map_Forall (λ _ a, decoded_type a = true) A →
     match_ (Lit (VMap m)) path (VMap A)
     = Fail (literal_mismatch path (VMap m) (VMap A))) ∧
  match_ (Array [Lit (VInt t n)]) path (VSlice [number n]) = OK.
Proof.
  split; [|split].
  - intros l arr Hin Harr. rewrite match_Lit. unfold literal_accepts.
    rewrite orb_false_r.
    destruct (reflect.DeepEqual (VSlice l) (VSlice arr)) eqn:Heq; [|done].
    apply DeepEqual_slice in Heq.
    apply list_elem_of_lookup in Hin as [i Hi].
    destruct (Forall2_lookup_l _ _ _ _ _ Heq Hi) as (a & Ha & Hxa).
    rewrite Forall_forall in Harr.
    pose proof (Harr a (list_elem_of_lookup_2 _ _ _ Ha)) as Hdec.
    by destruct a.
  - intros m A k Hk HA. rewrite match_Lit. unfold literal_accepts.
    rewrite orb_false_r.
    destruct (reflect.DeepEqual (VMap m) (VMap A)) eqn:Heq; [|done].
    apply DeepEqual_map in Heq as [_ Hall].
    destruct (Hall k _ Hk) as (a & Ha & Hxa).
    pose proof (HA k a Ha) as Hdec. simpl in Hdec. by destruct a.
  - apply Array_OK. split; [done|].
    intros [|i] e a He Ha; [|done].
    injection He as <-. injection Ha as <-.
    apply match_Lit_OK. unfold literal_accepts. simpl. apply float64_of_Z_eqb.
Qed.

Lemma decoded_slice l :
  decoded (VSlice l) = true ↔ Forall (λ x, decoded x = true) l.
Proof.
  induction l as [|x l IH]; simpl; [by split; [constructor|]|].
  rewrite andb_true_iff. simpl in IH. rewrite IH.
  split; [intros []; by constructor | by inversion 1].
Qed.

Lemma decoded_map (m : gmap string Value) :
  decoded (VMap m) = true ↔ map_Forall (λ _ x, decoded x = true) m.
Proof.
  simpl. apply (map_fold_weak_ind
    (λ r (m : gmap string Value), r = true ↔ map_Forall (λ _ x, decoded x = true) m)).
  - split; [intros _; apply map_Forall_empty|done].
  - intros i x m' r Hi IH.
    rewrite andb_true_iff, IH, map_Forall_insert by done. tauto.
Qed.

Lemma value_size_slice l x : x ∈ l → value_size x < value_size (VSlice l).
Proof.
  induction l as [|y l IH]; [by intros ?%elem_of_nil|].
  intros [->|Hin]%elem_of_cons; simpl in *; [lia|].
  specialize (IH Hin). lia.
Qed.

Lemma value_size_map (m : gmap string Value) k x :
  m !! k = Some x → value_size x < value_size (VMap m).
Proof.
  simpl. intros Hk. apply Nat.lt_succ_r. revert k x Hk.
  apply (map_fold_weak_ind
    (λ r (m : gmap string Value), ∀ k x, m !! k = Some x → value_size x ≤ r)).
  - intros k x Hk. by rewrite lookup_empty in Hk.
  - intros i y m' r Hi IH k x Hk. destruct (decide (k = i)) as [->|Hne].
    + rewrite lookup_insert_eq in Hk. injection Hk as <-. lia.
    + rewrite lookup_insert_ne in Hk by done. specialize (IH k x Hk). lia.
Qed.

Lemma DeepEqual_decoded_refl n v :
  value_size v ≤ n → decoded v = true → reflect.DeepEqual v v = true.
Proof.
  revert v. induction n as [|n IH]; intros v Hsize Hdec.
  - destruct v; simpl in *; try done; try (by rewrite bool_decide_eq_true_2); try lia.
    apply SFeqb_refl. by intros ->.
  - destruct v; simpl in Hdec |- *; try done; try (by rewrite bool_decide_eq_true_2).
    + apply SFeqb_refl. by intros ->.
    + apply DeepEqual_slice, Forall_Forall2_diag.
      apply decoded_slice in Hdec. rewrite Forall_forall in Hdec |- *.
      intros x Hx. apply IH; [|by apply Hdec].
      pose proof (value_size_slice l x Hx). lia.
    + apply DeepEqual_map. split; [done|]. intros k x Hk. exists x. split; [done|].
      apply decoded_map in Hdec. apply IH; [|by apply (Hdec k)].
      pose proof (value_size_map m k x Hk). lia.
Qed.

(** X10: a decoded document, taken as a literal expectation, accepts
    itself, at any depth of arrays and objects. *)
Theorem decoded_document_matches_itself (v : Value) (path : string) :
  decoded v = true → match_ (Lit v) path v = OK.
Proof.
  intros Hdec. apply match_Lit_OK. unfold literal_accepts.
  by rewrite (DeepEqual_decoded_refl (value_size v) v).
Qed.

(** The document [{"a":{"b":[1,2,3]}}]. *)
Lemma decoded_document_matches_itself_witness :
  let doc := VMap {[ "a" := VMap {[ "b" := VSlice [number 1; number 2; number 3] ]} ]} in
  decoded doc = true ∧ match_ (Lit doc) "$" doc = OK.
Proof.
  intros doc.
  assert (decoded doc = true) as Hdec by (by vm_compute).
  split; [done|]. exact (decoded_document_matches_itself doc "$" Hdec).
Defined.

(** ** Type and string predicates *)

(** X11: [Null], [Bool], [Number] and [String] each accept the values of
    one dynamic type, so exactly one of them accepts a decoded scalar and
    none accepts an array, an object or an integer value. *)
Theorem type_predicates_partition (path : string) (v : Value) :
  (match_ Null path v = OK ↔ v = VNil) ∧
  (match_ Bool path v = OK ↔ ∃ b, v = VBool b) ∧
  (match_ Number path v = OK ↔ ∃ f, v = VFloat64 f) ∧
  (match_ String path v = OK ↔ ∃ s, v = VString s) ∧
  Nat.b2n (succeeds (match_ Null path v)) + Nat.b2n (succeeds (match_ Bool path v))
  + Nat.b2n (succeeds (match_ Number path v)) + Nat.b2n (succeeds (match_ String path v))
  = (if decoded_type v && scalar v then 1 else 0).
Proof.
  destruct v; simpl; repeat split; try done; try (by intros [? ?]); by eauto.
Qed.

Lemma OneOf_loop_elem_of s options : OneOf_loop s options = true ↔ s ∈ options.
Proof.
  induction options as [|opt options IH]; simpl.
  - split; [done|by intros ?%elem_of_nil].
  - rewrite elem_of_cons. case_bool_decide; [by split; auto|].
    rewrite IH. split; [by auto|by intros [|]].
Qed.

(** X12: [OneOf(options...)] accepts a string exactly when it is one of
    the options, so with no option it rejects every string; the rejection
    carries the options and the string under the path. *)
Theorem OneOf_accepts_the_options (options : list string) (s path : string) :
  (match_ (OneOf options) path (VString s) = OK ↔ s ∈ options) ∧
  (s ∉ options →
   match_ (OneOf options) path (VString s)
   = Fail (Errorf "at %s: %w"
             [ArgString path;
              ArgError (Errorf "expected one of %v, got %q"
                          [ArgStrings options; ArgString s])])) ∧
  match_ (OneOf []) path (VString s) ≠ OK.
Proof.
  pose proof (OneOf_loop_elem_of s options) as Hloop. simpl.
  destruct (OneOf_loop s options); repeat split; try done.
  - intros _. by apply Hloop.
  - intros Hnot. destruct Hnot. by apply Hloop.
  - intros ?%Hloop. done.
Qed.

(** X13: [StringLength(min, max)] accepts a string exactly when its
    length in bytes lies between [min] and [max], both included; when
    [max] is below [min] it rejects every string. *)
Theorem StringLength_inclusive (min max : Z) (s path : string) :
  (match_ (StringLength min max) path (VString s) = OK
   ↔ (min ≤ Z.of_nat (String.length s) ≤ max)%Z) ∧
  ((max < min)%Z → match_ (StringLength min max) path (VString s) ≠ OK).
Proof.
  simpl.
  destruct (Z.ltb_spec (Z.of_nat (String.length s)) min);
    destruct (Z.ltb_spec max (Z.of_nat (String.length s))); simpl;
    repeat split; try done; intros; lia.
Qed.

(** ** The entry point *)

(** X14: a body that cannot be decoded fails before the expectation is
    consulted.  For a body that is neither a string nor bytes, and for a
    text that [json.Unmarshal] rejects, [Assert] reports exactly one
    error, the same for every expectation, and returns; for a text that
    decodes, it reports what [match] at the root path [$] returns. *)
Theorem Assert_decodes_first `{!json.Pkg} (t : testing.T) (expected : Expected) :
  (∀ b, Assert t expected (BodyOther b)
        = inl (t ++ [Errorf "body must be string or []byte, got %T" [ArgValue b]])) ∧
  (∀ text err,
     json.Unmarshal text = inr err →
     Assert t expected (BodyString text) = inl (t ++ [Errorf "invalid json: %w" [ArgError err]]) ∧
     Assert t expected (BodyBytes text) = inl (t ++ [Errorf "invalid json: %w" [ArgError err]])) ∧
  (∀ text actual,
     json.Unmarshal text = inl actual →
     Assert t expected (BodyString text)
     = match match_ expected "$" actual with
       | OK => inl t
       | Fail err => inl (t ++ [err])
       | Panic msg => inr msg
       end ∧
     Assert t expected (BodyBytes text) = Assert t expected (BodyString text)).
Proof.
  split; [done|]. split.
  - intros text err Herr. unfold Assert. simpl. by rewrite Herr.
  - intros text actual Hactual. unfold Assert. simpl. by rewrite Hactual.
Qed.

(** ** The order on floats *)

Lemma SFcompare_rank x y :
  x ≠ S754_nan → y ≠ S754_nan →
  (SFcompare x y = Some Lt ↔ rank_lt (SFrank x) (SFrank y)) ∧
  (SFcompare x y = Some Eq ↔ SFrank x = SFrank y) ∧
  (SFcompare x y = Some Gt ↔ rank_lt (SFrank y) (SFrank x)).
Proof.
  intros Hx Hy. unfold rank_lt.
  destruct x as [s1|s1| |s1 m1 e1], y as [s2|s2| |s2 m2 e2]; try done;
    try (destruct s1); try (destruct s2); simpl;
    try (repeat split; intros; try done; try lia; simplify_eq; lia).
  all: fold (Pos.compare m1 m2);
    destruct (Z.compare_spec e1 e2) as [->| |];
    try (repeat split; intros; try done; try lia; simplify_eq; lia);
    destruct (Pos.compare_spec m1 m2) as [->| |]; simpl;
    repeat split; intros; try done; try lia; simplify_eq; lia.
Qed.

Lemma SFltb_rank x y :
  x ≠ S754_nan → y ≠ S754_nan → SFltb x y = true ↔ rank_lt (SFrank x) (SFrank y).
Proof.
  intros Hx Hy. destruct (SFcompare_rank x y Hx Hy) as (Hlt & _ & _).
  rewrite <- Hlt. unfold SFltb. destruct (SFcompare x y) as [[]|]; split; done.
Qed.

Lemma SFleb_rank x y :
  x ≠ S754_nan → y ≠ S754_nan → SFleb x y = true ↔ ¬ rank_lt (SFrank y) (SFrank x).
Proof.
  intros Hx Hy. destruct (SFcompare_rank x y Hx Hy) as (Hlt & Heq & Hgt).
  unfold SFleb. unfold rank_lt in *.
  destruct (SFcompare x y) as [[]|] eqn:Hc.
  - split; [|done]. intros _. rewrite (proj1 Heq eq_refl). lia.
  - split; [|done]. intros _. pose proof (proj1 Hlt eq_refl). lia.
  - split; [done|]. intros Hn. destruct Hn. by apply Hgt.
  - destruct x, y; try done; simpl in Hc; by repeat case_match.
Qed.

Lemma SFcompare_nan_l y : SFcompare S754_nan y = None.
Proof. done. Qed.

Lemma SFcompare_nan_r x : SFcompare x S754_nan = None.
Proof. by destruct x. Qed.

(** ** Numeric predicates *)

Lemma NumberGreater_OK bound f path :
  match_ (NumberGreater bound) path (VFloat64 f) = OK ↔ SFleb f bound = false.
Proof. simpl. by destruct (SFleb f bound). Qed.

Lemma NumberSmaller_OK bound f path :
  match_ (NumberSmaller bound) path (VFloat64 f) = OK ↔ SFleb bound f = false.
Proof. simpl. by destruct (SFleb bound f). Qed.

Lemma SFleb_false_rank x y :
  x ≠ S754_nan → y ≠ S754_nan → SFleb x y = false ↔ rank_lt (SFrank y) (SFrank x).
Proof.
  intros Hx Hy. pose proof (SFleb_rank x y Hx Hy) as Hle.
  destruct (SFleb x y).
  - split; [done|]. intros Hlt. by destruct (proj1 Hle eq_refl).
  - split; [|done]. intros _.
    destruct (SFrank x) as [[a1 a2] a3], (SFrank y) as [[b1 b2] b3].
    unfold rank_lt in *. simpl in *.
    destruct (decide (b1 < a1 ∨ b1 = a1 ∧ (b2 < a2 ∨ b2 = a2 ∧ b3 < a3))%Z) as [|Hn];
      [done|]. by specialize (proj2 Hle Hn).
Qed.

Lemma SFeqb_rank x y :
  x ≠ S754_nan → y ≠ S754_nan → SFeqb x y = true ↔ SFrank x = SFrank y.
Proof.
  intros Hx Hy. destruct (SFcompare_rank x y Hx Hy) as (_ & Heq & _).
  rewrite <- Heq. unfold SFeqb. destruct (SFcompare x y) as [[]|]; split; done.
Qed.

(** Unfolds the order on two or three ranks into linear arithmetic. *)
Ltac rank_arith :=
  unfold rank_lt in *;
  repeat match goal with
         | |- context [SFrank ?x] => destruct (SFrank x) as [[? ?] ?]
         | H : context [SFrank ?x] |- _ => destruct (SFrank x) as [[? ?] ?]
         end;
  simpl in *; rewrite ?pair_equal_spec in *; lia.

(** X15: the bounds of [NumberGreater] and [NumberSmaller] are strict.
    For a number [f] and a bound, neither of them NaN,
    [NumberGreater(bound)] accepts [f] exactly when [bound < f] and
    [NumberSmaller(bound)] exactly when [f < bound]; no number passes
    both, and a number equal to the bound passes neither. *)
Theorem NumberGreater_NumberSmaller_strict (bound f : spec_float) (path : string) :
  f ≠ S754_nan → bound ≠ S754_nan →
  (match_ (NumberGreater bound) path (VFloat64 f) = OK ↔ SFltb bound f = true) ∧
  (match_ (NumberSmaller bound) path (VFloat64 f) = OK ↔ SFltb f bound = true) ∧
  ¬ (match_ (NumberGreater bound) path (VFloat64 f) = OK ∧
     match_ (NumberSmaller bound) path (VFloat64 f) = OK) ∧
  (SFeqb f bound = true →
   match_ (NumberGreater bound) path (VFloat64 f) ≠ OK ∧
   match_ (NumberSmaller bound) path (VFloat64 f) ≠ OK).
Proof.
  intros Hf Hb.
  rewrite NumberGreater_OK, NumberSmaller_OK.
  rewrite !SFleb_false_rank, !SFltb_rank, SFeqb_rank by done.
  repeat split; try done; intros; rank_arith.
Qed.

(** The test cases [10.1] above [10] and [10] not above [10]. *)
Lemma NumberGreater_NumberSmaller_strict_witness :
  S754_finite false 5685794529555251 (-49) ≠ S754_nan ∧ float64_of_Z 10 ≠ S754_nan ∧
  match_ (NumberGreater (float64_of_Z 10)) "$"
    (VFloat64 (S754_finite false 5685794529555251 (-49))) = OK ∧
  match_ (NumberGreater (float64_of_Z 10)) "$" (number 10) ≠ OK.
Proof.
  split; [done|]. split; [done|].
  destruct (NumberGreater_NumberSmaller_strict (float64_of_Z 10)
              (S754_finite false 5685794529555251 (-49)) "$") as (HG & _); [done..|].
  split; [by apply HG|]. by vm_compute.
Defined.

(** X16: every number other than NaN is positive, negative or a zero, and
    only one of the three: exactly one of [Positive()], [Negative()] and
    "is a zero of either sign" holds of it. *)
Theorem Positive_Negative_or_zero (f : spec_float) (path : string) :
  f ≠ S754_nan →
  Nat.b2n (succeeds (match_ Positive path (VFloat64 f)))
  + Nat.b2n (succeeds (match_ Negative path (VFloat64 f)))
  + Nat.b2n (match f with S754_zero _ => true | _ => false end) = 1.
Proof. intros Hf. by destruct f as [[]|[]| |[] ? ?]. Qed.

(** The test case [1]: [Positive] accepts it, [Negative] does not. *)
Lemma Positive_Negative_or_zero_witness :
  float64_of_Z 1 ≠ S754_nan ∧
  Nat.b2n (succeeds (match_ Positive "$" (VFloat64 (float64_of_Z 1))))
  + Nat.b2n (succeeds (match_ Negative "$" (VFloat64 (float64_of_Z 1))))
  + Nat.b2n (match float64_of_Z 1 with S754_zero _ => true | _ => false end) = 1.
Proof. split; [done|]. by apply Positive_Negative_or_zero. Defined.

Lemma NumberWithinRange_OK min max f path :
  match_ (NumberWithinRange min max) path (VFloat64 f) = OK
  ↔ SFltb f min = false ∧ SFltb max f = false.
Proof. simpl. destruct (SFltb f min), (SFltb max f); simpl; split; try done; by intros []. Qed.

Lemma SFltb_false_rank x y :
  x ≠ S754_nan → y ≠ S754_nan → SFltb x y = false ↔ ¬ rank_lt (SFrank x) (SFrank y).
Proof.
  intros Hx Hy. pose proof (SFltb_rank x y Hx Hy) as Hlt.
  destruct (SFltb x y); split; try done.
  - intros Hn. destruct Hn. by apply Hlt.
  - intros _ H%Hlt. done.
Qed.

(** X17: [NumberWithinRange(min, max)] includes both ends.  For numbers
    other than NaN it accepts [f] exactly when [min <= f <= max]; so the
    range from a bound to itself accepts the numbers equal to the bound,
    and a range whose [max] is below its [min] accepts no number. *)
Theorem NumberWithinRange_inclusive (min max f : spec_float) (path : string) :
  f ≠ S754_nan → min ≠ S754_nan → max ≠ S754_nan →
  (match_ (NumberWithinRange min max) path (VFloat64 f) = OK
   ↔ SFleb min f = true ∧ SFleb f max = true) ∧
  (match_ (NumberWithinRange min min) path (VFloat64 f) = OK ↔ SFeqb f min = true) ∧
  (SFltb max min = true → match_ (NumberWithinRange min max) path (VFloat64 f) ≠ OK).
Proof.
  intros Hf Hmin Hmax.
  rewrite !NumberWithinRange_OK.
  rewrite !SFltb_false_rank, !SFleb_rank, SFltb_rank, SFeqb_rank by done.
  repeat split; try done; intros; rank_arith.
Qed.

(** The test case [50] within [10] to [100]. *)
Lemma NumberWithinRange_inclusive_witness :
  float64_of_Z 50 ≠ S754_nan ∧ float64_of_Z 10 ≠ S754_nan ∧ float64_of_Z 100 ≠ S754_nan ∧
  match_ (NumberWithinRange (float64_of_Z 10) (float64_of_Z 100)) "$" (number 50) = OK.
Proof.
  split; [done|]. split; [done|]. split; [done|].
  by apply (NumberWithinRange_inclusive (float64_of_Z 10) (float64_of_Z 100)
              (float64_of_Z 50) "$").
Defined.

Section rounding_sign.
Variables prec emax : Z.

Lemma binary_round_aux_abs sx sy mx ex lx :
  SFabs (binary_round_aux prec emax sx mx ex lx)
  = SFabs (binary_round_aux prec emax sy mx ex lx).
Proof.
  unfold binary_round_aux.
  destruct (shr_fexp prec emax mx ex lx) as [mrs' e'].
  destruct (shr_fexp prec emax _ e' loc_Exact) as [mrs'' e''].
  destruct (shr_m mrs''); [done| |done].
  by destruct (e'' <=? emax - prec)%Z.
Qed.

Lemma binary_normalize_opp_abs z e :
  SFabs (binary_normalize prec emax (- z) e false)
  = SFabs (binary_normalize prec emax z e false).
Proof.
  destruct z as [|m|m]; simpl; [done|..]; unfold binary_round;
    destruct (shl_align m e _) as [mz ez]; apply binary_round_aux_abs.
Qed.

Lemma SFsub_swap_abs x y :
  SFabs (SFsub prec emax x y) = SFabs (SFsub prec emax y x).
Proof.
  destruct x as [[]|[]| |sx mx ex], y as [[]|[]| |sy my ey]; try done.
  simpl. rewrite (Z.min_comm ey ex).
  rewrite <- binary_normalize_opp_abs. f_equal. f_equal. lia.
Qed.

Lemma SFsub_diag_abs x :
  SFabs (SFsub prec emax x x) = S754_zero false ∨ SFsub prec emax x x = S754_nan.
Proof.
  destruct x as [[]|[]| |sx mx ex]; simpl; auto.
  left. by rewrite Z.sub_diag.
Qed.

Lemma SFsub_finite_not_nan x y :
  match x with S754_zero _ | S754_finite _ _ _ => True | _ => False end →
  match y with S754_zero _ | S754_finite _ _ _ => True | _ => False end →
  SFsub prec emax x y ≠ S754_nan.
Proof.
  destruct x as [[]|[]| |sx mx ex], y as [[]|[]| |sy my ey]; try done.
  intros _ _. simpl. apply binary_normalize_not_nan.
Qed.
End rounding_sign.

(** A negative bound lies below every absolute value. *)
Lemma SFltb_negative_abs delta x :
  SFltb delta (S754_zero false) = true → x ≠ S754_nan → SFltb delta (SFabs x) = true.
Proof. by destruct delta as [[]|[]| |[] ? ?], x as [?|?| |? ? ?]. Qed.

(** X18: [NumberWithinDelta] measures a distance.  Whether [f] is within
    [delta] of [expected] is the same as whether [expected] is within
    [delta] of [f]; every value is within [delta] of itself unless
    [delta] is negative; and with a negative [delta] no finite number is
    within [delta] of a finite [expected]. *)
Theorem NumberWithinDelta_distance (expected delta f : spec_float) (path : string) :
  (match_ (NumberWithinDelta expected delta) path (VFloat64 f) = OK
   ↔ match_ (NumberWithinDelta f delta) path (VFloat64 expected) = OK) ∧
  (SFltb delta (S754_zero false) = false →
   match_ (NumberWithinDelta expected delta) path (VFloat64 expected) = OK) ∧
  (SFltb delta (S754_zero false) = true →
   finite64 f = true → finite64 expected = true →
   match_ (NumberWithinDelta expected delta) path (VFloat64 f) ≠ OK).
Proof.
  split; [|split].
  - simpl. rewrite (SFsub_swap_abs 53 1024 f expected).
    by destruct (SFltb delta (SFabs (SFsub 53 1024 expected f))).
  - intros Hdelta. simpl.
    destruct (SFsub_diag_abs 53 1024 expected) as [->| ->]; [by rewrite Hdelta|].
    simpl. unfold SFltb. by rewrite SFcompare_nan_r.
  - intros Hdelta [_ Hf]%andb_true_iff [_ He]%andb_true_iff. simpl.
    rewrite SFltb_negative_abs; [done..|].
    apply SFsub_finite_not_nan; [by destruct f|by destruct expected].
Qed.

(** The test case [10.05] within [0.1] of [10], in both directions. *)
Lemma NumberWithinDelta_distance_witness :
  let f := S754_finite false 5657647031884186 (-49) in
  let delta := S754_finite false 7205759403792794 (-56) in
  SFltb delta (S754_zero false) = false ∧
  match_ (NumberWithinDelta (float64_of_Z 10) delta) "$" (VFloat64 f) = OK ∧
  match_ (NumberWithinDelta f delta) "$" (number 10) = OK ∧
  match_ (NumberWithinDelta f delta) "$" (VFloat64 f) = OK.
Proof.
  intros f delta.
  destruct (NumberWithinDelta_distance (float64_of_Z 10) delta f "$") as (Hsym & _ & _).
  destruct (NumberWithinDelta_distance f delta f "$") as (_ & Hself & _).
  assert (match_ (NumberWithinDelta (float64_of_Z 10) delta) "$" (VFloat64 f) = OK)
    as Hmatch by reflexivity.
  split; [done|]. split; [done|]. split; [by apply Hsym|by apply Hself].
Defined.

(** X19: a NaN bound disables a numeric predicate.  Every comparison with
    NaN is false, so [NumberGreater], [NumberSmaller] and
    [NumberWithinRange] with NaN for their bounds, and [NumberWithinDelta]
    with NaN for [delta], accept every number. *)
Theorem NaN_bounds_accept_everything (f : spec_float) (path : string) :
  match_ (NumberGreater S754_nan) path (VFloat64 f) = OK ∧
  match_ (NumberSmaller S754_nan) path (VFloat64 f) = OK ∧
  match_ (NumberWithinRange S754_nan S754_nan) path (VFloat64 f) = OK ∧
  (∀ expected, match_ (NumberWithinDelta expected S754_nan) path (VFloat64 f) = OK).
Proof.
  rewrite NumberGreater_OK, NumberSmaller_OK, NumberWithinRange_OK.
  unfold SFleb, SFltb. rewrite !SFcompare_nan_l, !SFcompare_nan_r.
  repeat split; done.
Qed.

(** X20: a numeric predicate names the path only when the value is not a
    number.  On a number its result does not depend on the path, so the
    failure for a number out of bounds does not say where the number is;
    on any other value the failure is the type mismatch at the path. *)
Theorem numeric_failures_omit_the_path `{!MapRange}
    (bound bound' : spec_float) (path : string) :
  let predicates :=
    [NumberGreater bound; NumberSmaller bound; NumberWithinRange bound bound';
     NumberWithinDelta bound bound'; Positive; Negative] in
  (∀ e f path', e ∈ predicates →
     match_ e path (VFloat64 f) = match_ e path' (VFloat64 f)) ∧
  (∀ e value, e ∈ predicates → (∀ f, value ≠ VFloat64 f) →
     match_ e path value
     = Fail (Errorf "at %s: expected number, got %T" [ArgString path; ArgValue value])) ∧
  match_ (Object {[ "age" := NumberGreater (float64_of_Z 18) ]}) "$"
    (VMap {[ "age" := number 10 ]})
  = Fail (Errorf "expected number greater than %v, got %v"
            [ArgValue (number 18); ArgValue (number 10)]).
Proof.
  intros predicates. split; [|split].
  - intros e f path' He. unfold predicates in He.
    repeat (apply elem_of_cons in He as [->|He]; [done|]). by apply elem_of_nil in He.
  - intros e value He Hvalue. unfold predicates in He.
    repeat (apply elem_of_cons in He as [->|He];
            [destruct value; try done; by destruct (Hvalue f)|]).
    by apply elem_of_nil in He.
  - simpl. rewrite range_singleton. simpl. by rewrite lookup_singleton_eq.
Qed.

(** ** Time predicates *)

(** X21: [TimeBefore] and [TimeAfter] are strict, and [TimeWithinRange] is
    what they leave.  For a string that parses to the instant [t],
    [TimeBefore(bound)] accepts exactly when [t] is before [bound] and
    [TimeAfter(bound)] exactly when [t] is after it, so no instant passes
    both and [bound] itself passes neither; [TimeWithinRange(start, end)]
    accepts exactly when [TimeBefore(start)] and [TimeAfter(end)] both
    reject. *)
Theorem time_bounds_compose `{!time.Pkg}
    (s : string) (t bound startTime endTime : time.Time) (path : string) :
  time.Parse time.RFC3339 s = inl t →
  (match_ (TimeBefore bound) path (VString s) = OK ↔ (t < bound)%Z) ∧
  (match_ (TimeAfter bound) path (VString s) = OK ↔ (bound < t)%Z) ∧
  ¬ (match_ (TimeBefore bound) path (VString s) = OK ∧
     match_ (TimeAfter bound) path (VString s) = OK) ∧
  (match_ (TimeWithinRange startTime endTime) path (VString s) = OK
   ↔ match_ (TimeBefore startTime) path (VString s) ≠ OK ∧
     match_ (TimeAfter endTime) path (VString s) ≠ OK).
Proof.
  intros Hparse. simpl. unfold rfc3339Parser. rewrite Hparse. simpl.
  unfold time.Before, time.After.
  repeat case_bool_decide; simpl; repeat split; try done; try lia;
    try (intros []; done); try (intros []; lia); intros; lia.
Qed.

(** The second second of 1970 against the first, under the sample package. *)
Lemma time_bounds_compose_witness :
  @time.Parse sample_time time.RFC3339 "1970-01-01T00:00:01Z" = inl 1000000000%Z ∧
  match_ (@TimeAfter sample_time 0%Z) "$" (VString "1970-01-01T00:00:01Z") = OK ∧
  match_ (@TimeBefore sample_time 0%Z) "$" (VString "1970-01-01T00:00:01Z") ≠ OK.
Proof.
  split; [done|].
  destruct (@time_bounds_compose sample_time "1970-01-01T00:00:01Z"
              1000000000%Z 0%Z 0%Z 0%Z "$" eq_refl) as (HB & HA & _).
  split; [by apply HA|]. intros H%HB. done.
Defined.

(** X22: a string that does not parse fails every time predicate before
    its bounds are looked at.  The predicates on RFC 3339 strings forward
    the error of the parser under the path; [Date] drops the parser's
    error for its own message, which quotes the string.  [Timestamp] and
    [Date] accept every string their layout parses. *)
Theorem time_parse_failures `{!time.Pkg} (s path : string) :
  (∀ err bound startTime endTime delta e,
     time.Parse time.RFC3339 s = inr err →
     e ∈ [Timestamp; TimeBefore bound; TimeAfter bound;
          TimeWithinRange startTime endTime; TimeWithinDuration bound delta] →
     match_ e path (VString s) = Fail (Errorf "at %s: %w" [ArgString path; ArgError err])) ∧
  (∀ err,
     time.Parse "2006-01-02" s = inr err →
     match_ Date path (VString s)
     = Fail (Errorf "at %s: %w"
               [ArgString path;
                ArgError (Errorf "expected YYYY-MM-DD, got %q" [ArgString s])])) ∧
  (∀ t, time.Parse time.RFC3339 s = inl t → match_ Timestamp path (VString s) = OK) ∧
  (∀ t, time.Parse "2006-01-02" s = inl t → match_ Date path (VString s) = OK).
Proof.
  split; [|split; [|split]].
  - intros err bound startTime endTime delta e Hparse He.
    repeat (apply elem_of_cons in He as [->|He];
            [simpl; unfold rfc3339Parser; by rewrite Hparse|]).
    by apply elem_of_nil in He.
  - intros err Hparse. simpl. unfold dateParser. by rewrite Hparse.
  - intros t Hparse. simpl. unfold rfc3339Parser. by rewrite Hparse.
  - intros t Hparse. simpl. unfold dateParser. by rewrite Hparse.
Qed.

Section arithmetic_sign.
Variables prec emax : Z.

Lemma binary_round_aux_nonneg mx ex lx :
  SFnonneg (binary_round_aux prec emax false mx ex lx) = true.
Proof.
  unfold binary_round_aux.
  destruct (shr_fexp prec emax mx ex lx) as [mrs' e'].
  destruct (shr_fexp prec emax _ e' loc_Exact) as [mrs'' e''].
  destruct (shr_m mrs''); [done| |done].
  by destruct (e'' <=? emax - prec)%Z.
Qed.

Lemma binary_round_aux_nonpos mx ex lx :
  SFnonpos (binary_round_aux prec emax true mx ex lx) = true.
Proof.
  unfold binary_round_aux.
  destruct (shr_fexp prec emax mx ex lx) as [mrs' e'].
  destruct (shr_fexp prec emax _ e' loc_Exact) as [mrs'' e''].
  destruct (shr_m mrs''); [done| |done].
  by destruct (e'' <=? emax - prec)%Z.
Qed.

Lemma binary_normalize_nonneg z e :
  (0 ≤ z)%Z → SFnonneg (binary_normalize prec emax z e false) = true.
Proof.
  destruct z as [|m|m]; [done| |lia]. intros _. simpl. unfold binary_round.
  destruct (shl_align m e _) as [mz ez]. apply binary_round_aux_nonneg.
Qed.

Lemma binary_normalize_nonpos z e :
  (z ≤ 0)%Z → SFnonpos (binary_normalize prec emax z e false) = true.
Proof.
  destruct z as [|m|m]; [done|lia|]. intros _. simpl. unfold binary_round.
  destruct (shl_align m e _) as [mz ez]. apply binary_round_aux_nonpos.
Qed.

Lemma SFdiv_nonneg x m e :
  SFnonneg x = true → SFnonneg (SFdiv prec emax x (S754_finite false m e)) = true.
Proof.
  destruct x as [[]|[]| |[] mx ex]; try done. intros _. simpl.
  destruct (SFdiv_core_binary prec emax (Z.pos mx) ex (Z.pos m) e) as [[mz ez] lz].
  apply binary_round_aux_nonneg.
Qed.

Lemma SFdiv_nonpos x m e :
  SFnonpos x = true → SFnonpos (SFdiv prec emax x (S754_finite false m e)) = true.
Proof.
  destruct x as [[]|[]| |[] mx ex]; try done. intros _. simpl.
  destruct (SFdiv_core_binary prec emax (Z.pos mx) ex (Z.pos m) e) as [[mz ez] lz].
  apply binary_round_aux_nonpos.
Qed.

Lemma SFdiv_abs x x' c :
  SFabs x = SFabs x' → SFabs (SFdiv prec emax x c) = SFabs (SFdiv prec emax x' c).
Proof.
  destruct x as [?|?| |sx mx ex], x' as [?|?| |sx' mx' ex']; try done;
    destruct c as [?|?| |sc mc ec]; try done.
  intros [= -> ->]. simpl.
  destruct (SFdiv_core_binary prec emax (Z.pos mx') ex' (Z.pos mc) ec) as [[mz ez] lz].
  apply binary_round_aux_abs.
Qed.

Lemma SFadd_nonneg x y :
  SFnonneg x = true → SFnonneg y = true → SFnonneg (SFadd prec emax x y) = true.
Proof.
  destruct x as [[]|[]| |[] mx ex], y as [[]|[]| |[] my ey]; try done.
  intros _ _. unfold SFadd, cond_Zopp. apply binary_normalize_nonneg. lia.
Qed.

(** Adding two floats that are not below zero and adding two that are not
    above zero, of the same absolute values, gives the same absolute
    value. *)
Lemma SFadd_abs x y x' y' :
  SFnonneg x = true → SFnonneg y = true → SFnonpos x' = true → SFnonpos y' = true →
  SFabs x = SFabs x' → SFabs y = SFabs y' →
  SFabs (SFadd prec emax x y) = SFabs (SFadd prec emax x' y').
Proof.
  destruct x as [[]|[]| |[] mx ex], x' as [[]|[]| |[] mx' ex']; try done;
    destruct y as [[]|[]| |[] my ey], y' as [[]|[]| |[] my' ey']; try done;
    intros _ _ _ _; intros [= <- <-] || intros _; intros [= <- <-] || intros _;
    try done.
  unfold SFadd, cond_Zopp. by rewrite <- binary_normalize_opp_abs.
Qed.
End arithmetic_sign.

Lemma SFltb_abs_self x : SFnonneg x = true → SFltb x (SFabs x) = false.
Proof.
  destruct x as [[]|[]| |[] m e]; try done. intros _. simpl.
  unfold SFltb. simpl. fold (Pos.compare m m).
  by rewrite Z.compare_refl, Pos.compare_refl.
Qed.

Lemma SFltb_nonneg_zero x : SFnonneg x = true → SFltb x (S754_zero false) = false.
Proof. by destruct x as [[]|[]| |[] m e]. Qed.

Lemma Seconds_nonneg d : (0 ≤ d)%Z → SFnonneg (time.Seconds d) = true.
Proof.
  intros Hd. unfold time.Seconds. apply SFadd_nonneg.
  - apply binary_normalize_nonneg. apply Z.quot_pos; [done|]. by vm_compute.
  - replace (float64_of_Z 1000000000)
      with (S754_finite false 8388608000000000 (-23)) by (by vm_compute).
    apply SFdiv_nonneg, binary_normalize_nonneg.
    apply Z.rem_nonneg; [by vm_compute|done].
Qed.

Lemma Seconds_abs_opp d :
  (0 ≤ d)%Z → SFabs (time.Seconds (- d)%Z) = SFabs (time.Seconds d).
Proof.
  intros Hd. unfold time.Seconds.
  assert (0 ≤ Z.quot d time.Second)%Z as Hq by (apply Z.quot_pos; [done|by vm_compute]).
  assert (0 ≤ Z.rem d time.Second)%Z as Hr by (apply Z.rem_nonneg; [by vm_compute|done]).
  rewrite Z.quot_opp_l, Z.rem_opp_l by (by vm_compute).
  replace (float64_of_Z 1000000000)
    with (S754_finite false 8388608000000000 (-23)) by (by vm_compute).
  symmetry. apply SFadd_abs.
  - by apply binary_normalize_nonneg.
  - by apply SFdiv_nonneg, binary_normalize_nonneg.
  - apply binary_normalize_nonpos. lia.
  - apply SFdiv_nonpos, binary_normalize_nonpos. lia.
  - symmetry. apply binary_normalize_opp_abs.
  - apply SFdiv_abs. symmetry. apply binary_normalize_opp_abs.
Qed.

(** X23: [TimeWithinDuration(expected, delta)] includes its limits.  For a
    [delta] that is not negative, a string that parses to [expected]
    itself, to the instant exactly [delta] after it or to the instant
    exactly [delta] before it is accepted. *)
Theorem TimeWithinDuration_includes_limits `{!time.Pkg}
    (expected : time.Time) (delta : time.Duration) (s : string) (parsed : time.Time)
    (path : string) :
  time.Parse time.RFC3339 s = inl parsed →
  (0 ≤ delta ≤ time.maxDuration)%Z →
  (parsed = expected ∨ parsed = expected + delta ∨ parsed = expected - delta)%Z →
  match_ (TimeWithinDuration expected delta) path (VString s) = OK.
Proof.
  intros Hparse Hdelta Hparsed. simpl. unfold rfc3339Parser. rewrite Hparse. simpl.
  assert (SFltb (time.Seconds delta) (SFabs (time.Seconds (time.Sub parsed expected)))
          = false) as ->; [|done].
  assert (time.Sub parsed expected = 0 ∨ time.Sub parsed expected = delta
          ∨ time.Sub parsed expected = - delta)%Z as Hsub.
  { unfold time.Sub, time.minDuration, time.maxDuration in *.
    repeat case_match; lia. }
  pose proof (Seconds_nonneg delta ltac:(lia)) as Hnonneg.
  destruct Hsub as [-> | [-> | ->]].
  - replace (SFabs (time.Seconds 0%Z)) with (S754_zero false) by (by vm_compute).
    by apply SFltb_nonneg_zero.
  - by apply SFltb_abs_self.
  - rewrite Seconds_abs_opp by lia. by apply SFltb_abs_self.
Qed.

(** One second around the first second of 1970, under the sample package. *)
Lemma TimeWithinDuration_includes_limits_witness :
  @time.Parse sample_time time.RFC3339 "1970-01-01T00:00:01Z" = inl 1000000000%Z ∧
  (0 ≤ 1000000000 ≤ time.maxDuration)%Z ∧
  match_ (@TimeWithinDuration sample_time 0%Z 1000000000%Z) "$"
    (VString "1970-01-01T00:00:01Z") = OK.
Proof.
  assert (0 ≤ 1000000000 ≤ time.maxDuration)%Z as Hdelta by (by vm_compute).
  split; [done|]. split; [done|].
  apply (@TimeWithinDuration_includes_limits sample_time 0%Z 1000000000%Z
           "1970-01-01T00:00:01Z" 1000000000%Z "$" eq_refl Hdelta).
  right. by left.
Defined.

(** ** Fixed patterns

    Matching by derivatives decides the language of a pattern.  The
    patterns of [UUID] and [Email] hold ASCII classes only, so that a text
    they accept has ASCII bytes only and its runes are its bytes; they are
    read off as conditions on the bytes.  The pattern of [URL] has negated
    classes, which any rune outside ASCII satisfies; it is read off as a
    condition on the runes. *)

Lemma denotes_Concat_inv r1 r2 s :
  syntax.denotes (syntax.Concat r1 r2) s →
  ∃ s1 s2, s = s1 ++ s2 ∧ syntax.denotes r1 s1 ∧ syntax.denotes r2 s2.
Proof. inversion 1; subst; eauto. Qed.

Lemma nullable_denotes r : syntax.nullable r = true ↔ syntax.denotes r [].
Proof.
  induction r; simpl; split; intros H; try done; try (by inversion H);
    try (by constructor).
  - apply andb_true_iff in H as [H1 H2].
    change (@nil Z) with (@nil Z ++ []). constructor; tauto.
  - apply denotes_Concat_inv in H as (s1 & s2 & Heq & H1 & H2).
    symmetry in Heq. apply app_eq_nil in Heq as [-> ->].
    apply andb_true_iff; tauto.
  - apply orb_true_iff in H as [H|H];
      [apply syntax.denotes_Alternate_l | apply syntax.denotes_Alternate_r]; tauto.
  - apply orb_true_iff. inversion H; subst; tauto.
Qed.

Lemma denotes_Star_cons r c s :
  syntax.denotes (syntax.Star r) (c :: s) →
  ∃ s1 s2, s = s1 ++ s2 ∧ syntax.denotes r (c :: s1)
           ∧ syntax.denotes (syntax.Star r) s2.
Proof.
  intros H. remember (syntax.Star r) as star eqn:Hstar.
  remember (c :: s) as text eqn:Htext.
  revert Hstar Htext.
  induction H as [| | | | | | | | |r' s1 s2 H1 _ H2 IH2]; intros Hstar Htext; try done.
  injection Hstar as ->. destruct s1 as [|c' s1]; simpl in Htext.
  - by apply IH2.
  - injection Htext as ? ?; subst. by exists s1, s2.
Qed.

Lemma derivative_denotes c r s :
  syntax.denotes (syntax.derivative c r) s ↔ syntax.denotes r (c :: s).
Proof.
  revert s.
  induction r as [| |c'|ranges|ranges| |r1 IH1 r2 IH2|r1 IH1 r2 IH2|r IH];
    intros s; simpl.
  - split; intros H; inversion H.
  - split; intros H; inversion H.
  - case_bool_decide as Hc; split; intros H; inversion H; subst; try done;
      constructor.
  - destruct (syntax.in_class ranges c) eqn:Hc; split; intros H;
      inversion H; subst; try congruence; by constructor.
  - destruct (syntax.in_class ranges c) eqn:Hc; split; intros H;
      inversion H; subst; try congruence; by constructor.
  - case_bool_decide as Hc; split; intros H; inversion H; subst; try done;
      by constructor.
  - assert (syntax.denotes (syntax.Concat (syntax.derivative c r1) r2) s
            → syntax.denotes (syntax.Concat r1 r2) (c :: s)) as Hleft.
    { intros H. apply denotes_Concat_inv in H as (s1 & s2 & -> & H1 & H2).
      change (c :: s1 ++ s2) with ((c :: s1) ++ s2).
      constructor; [by apply IH1|done]. }
    assert (syntax.nullable r1 = true
            → syntax.denotes (syntax.derivative c r2) s
            → syntax.denotes (syntax.Concat r1 r2) (c :: s)) as Hright.
    { intros Hnull H. change (c :: s) with ([] ++ c :: s).
      constructor; [by apply nullable_denotes|by apply IH2]. }
    assert (syntax.denotes (syntax.Concat r1 r2) (c :: s)
            → syntax.denotes (syntax.Concat (syntax.derivative c r1) r2) s
              ∨ (syntax.nullable r1 = true
                 ∧ syntax.denotes (syntax.derivative c r2) s)) as Hback.
    { intros H. apply denotes_Concat_inv in H as (s1 & s2 & Heq & H1 & H2).
      destruct s1 as [|c' s1]; simpl in Heq.
      - right. subst s2. split; [by apply nullable_denotes|by apply IH2].
      - injection Heq as -> ->. left. constructor; [by apply IH1|done]. }
    destruct (syntax.nullable r1) eqn:Hnull.
    + split.
      * intros H. inversion H; subst; auto.
      * intros H. destruct (Hback H) as [H'|[_ H']];
          [by apply syntax.denotes_Alternate_l|by apply syntax.denotes_Alternate_r].
    + split; [done|]. intros H. by destruct (Hback H) as [H'|[? _]].
  - split; intros H; inversion H; subst;
      (apply syntax.denotes_Alternate_l; by apply IH1)
      || (apply syntax.denotes_Alternate_r; by apply IH2).
  - split.
    + intros H. apply denotes_Concat_inv in H as (s1 & s2 & -> & H1 & H2).
      change (c :: s1 ++ s2) with ((c :: s1) ++ s2).
      constructor; [by apply IH|done].
    + intros H. apply denotes_Star_cons in H as (s1 & s2 & -> & H1 & H2).
      constructor; [by apply IH|done].
Qed.

Lemma matches_denotes r text :
  syntax.matches r text = true ↔ syntax.denotes r text.
Proof.
  revert r. induction text as [|c text IH]; intros r; simpl.
  - apply nullable_denotes.
  - rewrite IH. apply derivative_denotes.
Qed.

Lemma denotes_Concat_iff r1 r2 s :
  syntax.denotes (syntax.Concat r1 r2) s
  ↔ ∃ s1 s2, s = s1 ++ s2 ∧ syntax.denotes r1 s1 ∧ syntax.denotes r2 s2.
Proof.
  split; [apply denotes_Concat_inv|].
  intros (s1 & s2 & -> & H1 & H2). by constructor.
Qed.

Lemma denotes_Literal_iff c s :
  syntax.denotes (syntax.Literal c) s ↔ s = [utf8.byte c].
Proof. split; [by inversion 1|intros ->; constructor]. Qed.

Lemma denotes_Literals_iff l s :
  syntax.denotes (syntax.Literals l) s ↔ s = utf8.byte <$> l.
Proof.
  revert s. induction l as [|c l IH]; intros s; simpl.
  - split; [by inversion 1|intros ->; constructor].
  - rewrite denotes_Concat_iff. split.
    + by intros (s1 & s2 & -> & ->%denotes_Literal_iff & ->%IH).
    + intros ->. exists [utf8.byte c], (utf8.byte <$> l).
      split; [done|]. split; [by apply denotes_Literal_iff|by apply IH].
Qed.

Lemma single_CharClass ranges :
  single (syntax.CharClass ranges) (λ c, syntax.in_class ranges c = true).
Proof.
  intros s. split; [inversion 1; subst; eauto|intros (c & -> & Hc); by constructor].
Qed.

Lemma single_NotCharClass ranges :
  single (syntax.NotCharClass ranges) (λ c, syntax.in_class ranges c = false).
Proof.
  intros s. split; [inversion 1; subst; eauto|intros (c & -> & Hc); by constructor].
Qed.

Lemma single_AnyCharNotNL : single syntax.AnyCharNotNL (λ c, c ≠ 10%Z).
Proof.
  intros s. split; [inversion 1; subst; eauto|intros (c & -> & Hc); by constructor].
Qed.

Section classes.
Context (r : syntax.Regexp) (P : Z → Prop) (Hr : single r P).

Lemma denotes_Exactly_class n s :
  syntax.denotes (syntax.Exactly n r) s ↔ length s = n ∧ Forall P s.
Proof.
  revert s. induction n as [|n IH]; intros s; simpl.
  - split.
    + inversion 1. by split.
    + intros [->%nil_length_inv _]. constructor.
  - rewrite denotes_Concat_iff. split.
    + intros (s1 & s2 & -> & (c & -> & Hc)%Hr & [Hlen Hall]%IH).
      simpl. split; [by rewrite Hlen|by constructor].
    + intros [Hlen Hall]. destruct s as [|c s]; [done|].
      apply Forall_cons in Hall as [Hc Hall]. exists [c], s.
      split; [done|]. split; [apply Hr; eauto|].
      apply IH. split; [by injection Hlen|done].
Qed.

Lemma denotes_AtMost_class n s :
  syntax.denotes (syntax.AtMost n r) s ↔ length s ≤ n ∧ Forall P s.
Proof.
  revert s. induction n as [|n IH]; intros s; simpl.
  - split.
    + inversion 1. by split.
    + intros [Hlen _]. destruct s; [constructor|simpl in Hlen; lia].
  - unfold syntax.Quest. split.
    + intros H. inversion H as [| | | | | |? ? ? H'|? ? ? H'| |]; subst.
      * inversion H'. split; [simpl; lia|done].
      * apply denotes_Concat_iff in H'
          as (s1 & s2 & -> & (c & -> & Hc)%Hr & [Hlen Hall]%IH).
        simpl. split; [lia|by constructor].
    + intros [Hlen Hall]. destruct s as [|c s].
      * apply syntax.denotes_Alternate_l. constructor.
      * apply Forall_cons in Hall as [Hc Hall].
        apply syntax.denotes_Alternate_r. apply denotes_Concat_iff.
        exists [c], s. split; [done|].
        split; [apply Hr; eauto|].
        apply IH. simpl in Hlen. split; [lia|done].
Qed.

Lemma denotes_Repeat_class min max s :
  min ≤ max →
  syntax.denotes (syntax.Repeat min max r) s
  ↔ min ≤ length s ≤ max ∧ Forall P s.
Proof.
  intros Hle. unfold syntax.Repeat. rewrite denotes_Concat_iff. split.
  - intros (s1 & s2 & -> & [Hlen1 Hall1]%denotes_Exactly_class
                       & [Hlen2 Hall2]%denotes_AtMost_class).
    rewrite length_app. split; [lia|by apply Forall_app].
  - intros [Hlen Hall]. exists (take min s), (drop min s).
    split; [by rewrite take_drop|]. split.
    + apply denotes_Exactly_class. split; [rewrite length_take; lia|].
      by apply Forall_take.
    + apply denotes_AtMost_class. split; [rewrite length_drop; lia|].
      by apply Forall_drop.
Qed.

Lemma denotes_Star_class s :
  syntax.denotes (syntax.Star r) s ↔ Forall P s.
Proof.
  split.
  - intros H. remember (syntax.Star r) as star eqn:Hstar.
    induction H as [| | | | | | | | |r' s1 s2 H1 _ H2 IH2]; try done.
    injection Hstar as ->.
    apply Hr in H1 as (c & -> & Hc).
    constructor; [done|by apply IH2].
  - induction 1 as [|c s Hc Hall IH]; [constructor|].
    change (c :: s) with ([c] ++ s).
    constructor; [apply Hr; eauto|done].
Qed.

Lemma denotes_Plus_class s :
  syntax.denotes (syntax.Plus r) s ↔ s ≠ [] ∧ Forall P s.
Proof.
  unfold syntax.Plus. rewrite denotes_Concat_iff. split.
  - intros (s1 & s2 & -> & (c & -> & Hc)%Hr & Hall%denotes_Star_class).
    split; [done|by constructor].
  - intros [Hne Hall]. destruct s as [|c s]; [done|].
    apply Forall_cons in Hall as [Hc Hall]. exists [c], s.
    split; [done|].
    split; [apply Hr; eauto|by apply denotes_Star_class].
Qed.
End classes.

(** *** Runes and bytes *)

Lemma lor_above_l a b : (0 ≤ b → 128 ≤ a → 128 ≤ Z.lor a b)%Z.
Proof.
  intros Hb Ha.
  assert (0 ≤ Z.lor a b)%Z as Hnonneg by (apply Z.lor_nonneg; lia).
  assert (7 ≤ Z.log2 (Z.lor a b))%Z as Hlog.
  { rewrite Z.log2_lor by lia. etransitivity; [|apply Z.le_max_l].
    change 7%Z with (Z.log2 128). apply Z.log2_le_mono. lia. }
  destruct (Z.lt_ge_cases (Z.lor a b) 128) as [Hlt|]; [|done].
  destruct (Z.eq_dec (Z.lor a b) 0%Z) as [Hzero|Hpos].
  - rewrite Hzero in Hlog. simpl in Hlog. lia.
  - apply (Z.log2_lt_pow2 _ 7) in Hlt; lia.
Qed.

Lemma lor_above_r a b : (0 ≤ a → 128 ≤ b → 128 ≤ Z.lor a b)%Z.
Proof. intros. rewrite Z.lor_comm. by apply lor_above_l. Qed.

Lemma byte_range c : (0 ≤ utf8.byte c < 256)%Z.
Proof. by destruct c as [[] [] [] [] [] [] [] []]. Qed.

Lemma byte_inj c c' : utf8.byte c = utf8.byte c' → c = c'.
Proof.
  unfold utf8.byte. intros H%(inj Z.of_N).
  rewrite <- (ascii_N_embedding c), <- (ascii_N_embedding c'). by rewrite H.
Qed.

Lemma land_mask a n : (0 ≤ n → Z.land a (Z.ones n) = a mod 2 ^ n)%Z.
Proof. intros. by apply Z.land_ones. Qed.

Lemma DecodeRuneInString_ascii c rest :
  (utf8.byte c < 128)%Z → utf8.DecodeRuneInString (c :: rest) = (utf8.byte c, 1).
Proof. intros Hc. simpl. by destruct (Z.ltb_spec (utf8.byte c) 128); [|lia]. Qed.

Ltac rune_arith :=
  rewrite ?land_mask, ?Z.shiftl_mul_pow2 by lia;
  change (2 ^ 3)%Z with 8%Z in *; change (2 ^ 4)%Z with 16%Z in *;
  change (2 ^ 5)%Z with 32%Z in *; change (2 ^ 6)%Z with 64%Z in *;
  change (2 ^ 12)%Z with 4096%Z in *; change (2 ^ 18)%Z with 262144%Z in *;
  Z.div_mod_to_equations; lia.

Lemma DecodeRuneInString_not_ascii c rest :
  (128 ≤ utf8.byte c)%Z → (128 ≤ (utf8.DecodeRuneInString (c :: rest)).1)%Z.
Proof.
  intros Hc. unfold utf8.DecodeRuneInString.
  destruct (Z.ltb_spec (utf8.byte c) 128); [lia|].
  assert (128 ≤ utf8.RuneError)%Z as Herror by done.
  pose proof (byte_range c) as Hbyte.
  destruct (utf8.first (utf8.byte c)) as [[sz [lo hi]]|] eqn:Hfirst; [|done].
  destruct (length (c :: rest) <? sz); [done|].
  destruct rest as [|c1 rest]; [done|].
  pose proof (byte_range c1) as Hbyte1.
  destruct (Z.ltb_spec (utf8.byte c1) lo); [done|].
  destruct (Z.ltb_spec hi (utf8.byte c1)); [done|]. cbn [orb].
  change 31%Z with (Z.ones 5). change 63%Z with (Z.ones 6).
  change 15%Z with (Z.ones 4). change 7%Z with (Z.ones 3).
  rewrite !land_mask, !Z.shiftl_mul_pow2 by lia.
  assert ((sz = 2 ∧ (2 ≤ utf8.byte c mod 2 ^ 5)%Z)
          ∨ ((sz = 3 ∨ sz = 4)
             ∧ (1 ≤ utf8.byte c mod 2 ^ 4 ∨ 2 ≤ utf8.byte c1 mod 2 ^ 6)%Z
             ∧ (sz = 4 → (1 ≤ utf8.byte c mod 2 ^ 3 ∨ 16 ≤ utf8.byte c1 mod 2 ^ 6)%Z)))
    as Hcases.
  { unfold utf8.first in Hfirst.
    repeat match type of Hfirst with
           | (if ?b then _ else _) = _ =>
               let Hb := fresh "Hb" in
               destruct b eqn:Hb;
               [injection Hfirst as <- <- <-;
                rewrite ?andb_true_iff, ?Z.leb_le, ?Z.eqb_eq in Hb|clear Hb]
           end; try done; rune_arith. }
  destruct Hcases as [[-> H2]|(Hsz & H3 & H4)].
  - cbn [Nat.leb]. simpl fst. apply lor_above_l; rune_arith.
  - assert ((sz <=? 2) = false) as -> by (destruct Hsz as [-> | ->]; done).
    destruct rest as [|c2 rest]; [done|].
    pose proof (byte_range c2) as Hbyte2.
    destruct (negb (utf8.continuation (utf8.byte c2))); [done|].
    destruct Hsz as [-> | ->].
    + cbn [Nat.leb]. simpl fst. apply lor_above_l; [rune_arith|].
      destruct H3; [apply lor_above_l|apply lor_above_r]; rune_arith.
    + cbn [Nat.leb]. destruct rest as [|c3 rest]; [done|].
      pose proof (byte_range c3) as Hbyte3.
      destruct (negb (utf8.continuation (utf8.byte c3))); [done|].
      simpl fst. apply lor_above_l; [rune_arith|]. apply lor_above_l; [rune_arith|].
      destruct (H4 eq_refl); [apply lor_above_l|apply lor_above_r]; rune_arith.
Qed.

Lemma runes_loop_ascii steps text :
  length text ≤ steps →
  Forall (λ c, utf8.byte c < 128)%Z text
  ∨ Forall (λ r, r < 128)%Z (syntax.runes_loop steps text) →
  syntax.runes_loop steps text = utf8.byte <$> text.
Proof.
  revert steps. induction text as [|c text IH]; intros steps Hsteps H.
  { by destruct steps. }
  destruct steps as [|steps]; [simpl in Hsteps; lia|].
  cbn [syntax.runes_loop] in *.
  destruct (Z.lt_ge_cases (utf8.byte c) 128) as [Hc|Hc].
  - rewrite DecodeRuneInString_ascii in * by done. cbn [drop] in *.
    rewrite fmap_cons. f_equal. apply IH; [simpl in Hsteps; lia|].
    destruct H as [H|H]; [left|right]; by eapply Forall_cons_1.
  - exfalso. destruct H as [H|H].
    + apply Forall_cons_1 in H as [? _]. lia.
    + pose proof (DecodeRuneInString_not_ascii c text Hc) as Hrune.
      destruct (utf8.DecodeRuneInString (c :: text)) as [r width].
      apply Forall_cons_1 in H as [? _]. simpl in Hrune. lia.
Qed.

Lemma runes_ascii text :
  Forall (λ c, utf8.byte c < 128)%Z text
  ∨ Forall (λ r, r < 128)%Z (syntax.runes text) →
  syntax.runes text = utf8.byte <$> text.
Proof. by apply runes_loop_ascii. Qed.

Lemma runes_Forall2 {A} (P : A → Z → Prop) (l : list A) (text : list ascii) :
  (∀ a r, P a r → (r < 128)%Z) →
  Forall2 P l (syntax.runes text) ↔ Forall2 (λ a c, P a (utf8.byte c)) l text.
Proof.
  intros HP. split; intros H.
  - rewrite runes_ascii in H; [rewrite Forall2_fmap_r in H; exact H|]. right.
    eapply Forall2_Forall_r; [exact H|]. apply Forall_true. intros a r. apply HP.
  - rewrite runes_ascii; [rewrite Forall2_fmap_r; exact H|]. left.
    eapply Forall2_Forall_r; [exact H|]. apply Forall_true. intros a c. apply HP.
Qed.

(** *** The patterns *)

Lemma between_single c0 c : between c0 c0 c = bool_decide (c = c0).
Proof.
  unfold between. case_bool_decide as Hc.
  - subst. by rewrite Z.leb_refl.
  - apply andb_false_iff.
    destruct (Z.leb_spec (utf8.byte c0) (utf8.byte c)); [|by left].
    destruct (Z.leb_spec (utf8.byte c) (utf8.byte c0)); [|by right].
    destruct Hc. apply byte_inj. lia.
Qed.

Lemma between_ascii lo hi c :
  (utf8.byte hi < 128)%Z → between lo hi c = true → (utf8.byte c < 128)%Z.
Proof. unfold between. intros Hhi [_ ?%Z.leb_le]%andb_true_iff. lia. Qed.

Lemma in_class_hex c :
  syntax.in_class [("0", "9"); ("a", "f"); ("A", "F")]%char (utf8.byte c) = hex_digit c.
Proof.
  unfold syntax.in_class, hex_digit, digit, between. cbn [existsb fst snd].
  by rewrite orb_false_r, orb_assoc.
Qed.

Lemma in_class_email_local c :
  syntax.in_class
    [("a", "z"); ("0", "9"); (".", "."); ("_", "_"); ("%", "%"); ("+", "+"); ("-", "-")]%char
    (utf8.byte c)
  = email_local_byte c.
Proof.
  unfold syntax.in_class, email_local_byte, lower_letter, digit. cbn [existsb fst snd].
  repeat match goal with
         | |- context [((utf8.byte ?lo <=? utf8.byte c)%Z && (utf8.byte c <=? utf8.byte ?hi)%Z)] =>
             change ((utf8.byte lo <=? utf8.byte c)%Z && (utf8.byte c <=? utf8.byte hi)%Z)
               with (between lo hi c)
         end.
  rewrite !between_single, orb_false_r.
  rewrite <- !orb_assoc. do 2 f_equal. apply Bool.eq_iff_eq_true.
  rewrite !orb_true_iff, !bool_decide_eq_true, !elem_of_cons, elem_of_nil.
  tauto.
Qed.

Lemma in_class_email_domain c :
  syntax.in_class [("a", "z"); ("0", "9"); (".", "."); ("-", "-")]%char (utf8.byte c)
  = email_domain_byte c.
Proof.
  unfold syntax.in_class, email_domain_byte, lower_letter, digit. cbn [existsb fst snd].
  repeat match goal with
         | |- context [((utf8.byte ?lo <=? utf8.byte c)%Z && (utf8.byte c <=? utf8.byte ?hi)%Z)] =>
             change ((utf8.byte lo <=? utf8.byte c)%Z && (utf8.byte c <=? utf8.byte hi)%Z)
               with (between lo hi c)
         end.
  rewrite !between_single, orb_false_r.
  rewrite <- !orb_assoc. do 2 f_equal. apply Bool.eq_iff_eq_true.
  rewrite !orb_true_iff, !bool_decide_eq_true, !elem_of_cons, elem_of_nil.
  tauto.
Qed.

Lemma in_class_lower c :
  syntax.in_class [("a", "z")]%char (utf8.byte c) = lower_letter c.
Proof.
  unfold syntax.in_class, lower_letter, between. cbn [existsb fst snd].
  by rewrite orb_false_r.
Qed.

(** A class of ASCII ranges holds ASCII runes only. *)
Lemma in_class_ascii ranges r :
  Forall (λ range, utf8.byte range.2 < 128)%Z ranges →
  syntax.in_class ranges r = true → (r < 128)%Z.
Proof.
  unfold syntax.in_class. intros Hranges (range & Hin & Hr)%existsb_exists.
  apply andb_true_iff in Hr as [_ Hr%Z.leb_le].
  rewrite Forall_forall in Hranges. apply list_elem_of_In in Hin.
  specialize (Hranges _ Hin). simpl in Hranges. lia.
Qed.

Lemma match_stringValue_regexp (re : syntax.Regexp) (format path s : string) :
  match_ (stringValue [λ s, if negb (syntax.MatchString re s)
                            then Fail (Errorf format [ArgString s]) else OK])
    path (VString s) = OK
  ↔ syntax.denotes re (syntax.runes (String.list_ascii_of_string s)).
Proof.
  rewrite <- matches_denotes. simpl. unfold syntax.MatchString.
  by destruct (syntax.matches re _).
Qed.

Lemma denotes_hex_layout n rs :
  syntax.denotes
    (syntax.Exactly n (syntax.CharClass [("0", "9"); ("a", "f"); ("A", "F")]%char)) rs
  ↔ Forall2 (λ hyphen r,
       if hyphen : bool then r = utf8.byte "-"
       else syntax.in_class [("0", "9"); ("a", "f"); ("A", "F")]%char r = true)
      (replicate n false) rs.
Proof.
  rewrite (denotes_Exactly_class _ _ (single_CharClass _)). split.
  - intros [<- Hall]. induction Hall as [|c text Hc _ IH]; simpl; [constructor|].
    by constructor.
  - revert rs. induction n as [|n IH]; intros rs; cbn [replicate];
      inversion 1 as [|? c ? rest Hc Hrest]; subst.
    + by split.
    + destruct (IH _ Hrest) as [Hlen Hall].
      split; [by cbn [length]; rewrite Hlen|]. by constructor.
Qed.

Lemma denotes_hyphen_layout rs :
  syntax.denotes (syntax.Literal "-") rs
  ↔ Forall2 (λ hyphen r,
       if hyphen : bool then r = utf8.byte "-"
       else syntax.in_class [("0", "9"); ("a", "f"); ("A", "F")]%char r = true)
      [true] rs.
Proof.
  rewrite denotes_Literal_iff. split.
  - intros ->. by repeat constructor.
  - intros (r & ? & -> & ->%Forall2_nil_inv_l & ->)%Forall2_cons_inv_l. done.
Qed.

Lemma denotes_Concat_layout {A} (P : A → Z → Prop) r1 r2 l1 l2 :
  (∀ rs, syntax.denotes r1 rs ↔ Forall2 P l1 rs) →
  (∀ rs, syntax.denotes r2 rs ↔ Forall2 P l2 rs) →
  ∀ rs, syntax.denotes (syntax.Concat r1 r2) rs ↔ Forall2 P (l1 ++ l2) rs.
Proof.
  intros H1 H2 rs. rewrite denotes_Concat_iff, Forall2_app_inv_l.
  split.
  - intros (s1 & s2 & -> & ?%H1 & ?%H2). by exists s1, s2.
  - intros (s1 & s2 & ?%H1 & ?%H2 & ->). by exists s1, s2.
Qed.

Lemma denotes_uuidRegex text :
  syntax.denotes uuidRegex (syntax.runes text) ↔ Forall2 uuid_byte uuid_layout text.
Proof.
  transitivity
    (Forall2 (λ hyphen r,
        if hyphen : bool then r = utf8.byte "-"
        else syntax.in_class [("0", "9"); ("a", "f"); ("A", "F")]%char r = true)
       uuid_layout (syntax.runes text)).
  - unfold uuidRegex, uuid_layout. generalize (syntax.runes text).
    repeat (apply denotes_Concat_layout;
            [first [apply denotes_hex_layout|apply denotes_hyphen_layout]|]).
    apply denotes_hex_layout.
  - rewrite runes_Forall2.
    + split; intros H; (eapply Forall2_impl; [exact H|]); intros [] c;
        unfold uuid_byte; cbv beta; rewrite ?in_class_hex; try done.
      * apply byte_inj.
      * by intros ->.
    + intros [] r; [by intros ->|]. by apply in_class_ascii; repeat constructor.
Qed.

Lemma uuid_layout_lookup i :
  i < 36 → uuid_layout !! i = Some (bool_decide (i ∈ [8; 13; 18; 23])).
Proof.
  intros Hi. do 36 (destruct i as [|i]; [reflexivity|]). lia.
Qed.

(** X24: [UUID] accepts a string exactly when it has 36 bytes, those at
    offsets 8, 13, 18 and 23 are hyphens and every other one is a
    hexadecimal digit, of either case. *)
Theorem UUID_layout (path s : string) :
  let text := String.list_ascii_of_string s in
  match_ UUID path (VString s) = OK
  ↔ length text = 36
    ∧ ∀ i c, text !! i = Some c →
             if bool_decide (i ∈ [8; 13; 18; 23])
             then c = "-"%char else hex_digit c = true.
Proof.
  intros text. unfold UUID. rewrite match_stringValue_regexp, denotes_uuidRegex.
  fold text. rewrite Forall2_same_length_lookup. split.
  - intros [Hlen Hfit]. split; [by rewrite <- Hlen|].
    intros i c Hc. apply (Hfit i _ c); [|done].
    apply uuid_layout_lookup. apply lookup_lt_Some in Hc.
    by rewrite <- Hlen in Hc.
  - intros [Hlen Hfit]. split; [by rewrite Hlen|].
    intros i hyphen c Hlayout Hc.
    rewrite uuid_layout_lookup in Hlayout
      by (apply lookup_lt_Some in Hc; by rewrite Hlen in Hc).
    injection Hlayout as <-. by apply Hfit.
Qed.

Lemma denotes_emailRegex rs :
  syntax.denotes emailRegex rs
  ↔ ∃ local domain tld,
      rs = local ++ utf8.byte "@" :: domain ++ utf8.byte "." :: tld
      ∧ local ≠ []
      ∧ Forall (λ r, syntax.in_class
                  [("a", "z"); ("0", "9"); (".", "."); ("_", "_"); ("%", "%");
                   ("+", "+"); ("-", "-")]%char r = true) local
      ∧ domain ≠ []
      ∧ Forall (λ r, syntax.in_class
                  [("a", "z"); ("0", "9"); (".", "."); ("-", "-")]%char r = true) domain
      ∧ 2 ≤ length tld ≤ 4
      ∧ Forall (λ r, syntax.in_class [("a", "z")]%char r = true) tld.
Proof.
  unfold emailRegex. split.
  - intros (local & ? & -> & [Hlocal Hall1]%(denotes_Plus_class _ _ (single_CharClass _))
            & (? & ? & -> & ->%denotes_Literal_iff
            & (domain & ? & -> & [Hdomain Hall2]%(denotes_Plus_class _ _ (single_CharClass _))
            & (? & tld & -> & ->%denotes_Literal_iff & Htld)%denotes_Concat_iff
              )%denotes_Concat_iff)%denotes_Concat_iff)%denotes_Concat_iff.
    apply (denotes_Repeat_class _ _ (single_CharClass _)) in Htld as [Hlen Hall3]; [|lia].
    by exists local, domain, tld.
  - intros (local & domain & tld & -> & Hlocal & Hall1 & Hdomain & Hall2 & Hlen & Hall3).
    apply denotes_Concat_iff. exists local, (utf8.byte "@" :: domain ++ utf8.byte "." :: tld).
    split; [done|]. split.
    { by apply (denotes_Plus_class _ _ (single_CharClass _)). }
    apply denotes_Concat_iff. exists [utf8.byte "@"], (domain ++ utf8.byte "." :: tld).
    split; [done|]. split; [by apply denotes_Literal_iff|].
    apply denotes_Concat_iff. exists domain, (utf8.byte "." :: tld).
    split; [done|]. split.
    { by apply (denotes_Plus_class _ _ (single_CharClass _)). }
    apply denotes_Concat_iff. exists [utf8.byte "."], tld.
    split; [done|]. split; [by apply denotes_Literal_iff|].
    by apply (denotes_Repeat_class _ _ (single_CharClass _)); [lia|].
Qed.

Lemma Forall_class (p : Z → bool) (q : ascii → bool) (text : list ascii) :
  (∀ c, p (utf8.byte c) = q c) →
  Forall (λ r, p r = true) (utf8.byte <$> text) ↔ Forall (λ c, q c = true) text.
Proof.
  intros Hpq. rewrite Forall_fmap.
  split; intros Hall; (eapply Forall_impl; [exact Hall|]);
    intros c Hc; simpl in *; by rewrite ?Hpq in *.
Qed.

Lemma Forall_class_ascii ranges (text : list ascii) :
  Forall (λ range, utf8.byte range.2 < 128)%Z ranges →
  Forall (λ r, syntax.in_class ranges r = true) (utf8.byte <$> text) →
  Forall (λ c, utf8.byte c < 128)%Z text.
Proof.
  intros Hranges H. rewrite Forall_fmap in H.
  eapply Forall_impl; [exact H|]. intros c Hc. by eapply in_class_ascii.
Qed.

Lemma match_Email_OK path s :
  match_ Email path (VString s) = OK
  ↔ ∃ local domain tld,
      String.list_ascii_of_string s = local ++ "@"%char :: domain ++ "."%char :: tld
      ∧ local ≠ [] ∧ Forall (λ c, email_local_byte c = true) local
      ∧ domain ≠ [] ∧ Forall (λ c, email_domain_byte c = true) domain
      ∧ 2 ≤ length tld ≤ 4 ∧ Forall (λ c, lower_letter c = true) tld.
Proof.
  unfold Email. rewrite match_stringValue_regexp, denotes_emailRegex.
  generalize (String.list_ascii_of_string s). intros text. split.
  - intros (L & D & T & Hrunes & Hlocal & Hall1 & Hdomain & Hall2 & Hlen & Hall3).
    rewrite runes_ascii in Hrunes.
    2:{ right. rewrite Hrunes. repeat first [apply Forall_app; split|apply Forall_cons; split];
          try done;
          (eapply Forall_impl; [eassumption|]); intros r;
          by apply in_class_ascii; repeat constructor. }
    apply fmap_app_inv in Hrunes as (local & ? & -> & Hrunes & ->).
    symmetry in Hrunes.
    apply fmap_cons_inv in Hrunes as (at_sign & ? & ->%byte_inj & Hrunes & ->).
    symmetry in Hrunes.
    apply fmap_app_inv in Hrunes as (domain & ? & -> & Hrunes & ->).
    symmetry in Hrunes.
    apply fmap_cons_inv in Hrunes as (dot & tld & ->%byte_inj & -> & ->).
    exists local, domain, tld. rewrite length_fmap in Hlen.
    repeat split; try done; try lia.
    + by intros ->.
    + by apply (Forall_class _ _ _ in_class_email_local).
    + by intros ->.
    + by apply (Forall_class _ _ _ in_class_email_domain).
    + by apply (Forall_class _ _ _ in_class_lower).
  - intros (local & domain & tld & -> & Hlocal & Hall1 & Hdomain & Hall2 & Hlen & Hall3).
    exists (utf8.byte <$> local), (utf8.byte <$> domain), (utf8.byte <$> tld).
    rewrite length_fmap.
    apply (Forall_class _ _ _ in_class_email_local) in Hall1 as Hall1'.
    apply (Forall_class _ _ _ in_class_email_domain) in Hall2 as Hall2'.
    apply (Forall_class _ _ _ in_class_lower) in Hall3 as Hall3'.
    repeat split; try done; try lia.
    + rewrite runes_ascii; [by rewrite !fmap_app, !fmap_cons, ?fmap_app|].
      left.
      repeat first [apply Forall_app; split|apply Forall_cons; split]; try done;
        (eapply Forall_class_ascii; [|eassumption]); by repeat constructor.
    + by intros ?%fmap_nil_inv.
    + by intros ?%fmap_nil_inv.
Qed.

(** X25: [Email] accepts a string exactly when it reads
    [local@domain.tld] with a non-empty [local] of lower-case letters,
    digits and [._%+-], a non-empty [domain] of lower-case letters, digits,
    dots and hyphens, and a [tld] of two to four lower-case letters. *)
Theorem Email_shape (path s : string) :
  match_ Email path (VString s) = OK
  ↔ ∃ local domain tld,
      String.list_ascii_of_string s = local ++ "@"%char :: domain ++ "."%char :: tld
      ∧ local ≠ [] ∧ Forall (λ c, email_local_byte c = true) local
      ∧ domain ≠ [] ∧ Forall (λ c, email_domain_byte c = true) domain
      ∧ 2 ≤ length tld ≤ 4 ∧ Forall (λ c, lower_letter c = true) tld.
Proof. apply match_Email_OK. Qed.

Lemma email_bytes_not_upper c :
  upper_letter c = true →
  c ≠ "@"%char ∧ c ≠ "."%char ∧ email_local_byte c = false
  ∧ email_domain_byte c = false ∧ lower_letter c = false.
Proof.
  destruct c as [[] [] [] [] [] [] [] []]; vm_compute; intros; repeat split; congruence.
Qed.

(** X26: [Email] rejects every string that holds an upper-case letter. *)
Theorem Email_is_case_sensitive (path s : string) (c : ascii) :
  c ∈ String.list_ascii_of_string s → upper_letter c = true →
  match_ Email path (VString s) ≠ OK.
Proof.
  intros Hc Hupper. rewrite match_Email_OK.
  intros (local & domain & tld & Htext & _ & Hall1 & _ & Hall2 & _ & Hall3).
  destruct (email_bytes_not_upper c Hupper) as (Hat & Hdot & H1 & H2 & H3).
  rewrite Htext in Hc. rewrite Forall_forall in Hall1, Hall2, Hall3.
  apply elem_of_app in Hc as [Hc|Hc]; [apply Hall1 in Hc; congruence|].
  apply elem_of_cons in Hc as [Hc|Hc]; [done|].
  apply elem_of_app in Hc as [Hc|Hc]; [apply Hall2 in Hc; congruence|].
  apply elem_of_cons in Hc as [Hc|Hc]; [done|].
  apply Hall3 in Hc; congruence.
Qed.

Lemma Email_is_case_sensitive_witness :
  "J"%char ∈ String.list_ascii_of_string "John@example.com"
  ∧ upper_letter "J" = true
  ∧ match_ Email "$" (VString "John@example.com") ≠ OK.
Proof.
  assert ("J"%char ∈ String.list_ascii_of_string "John@example.com") as Hin
    by apply list_elem_of_here.
  split; [exact Hin|]. split; [reflexivity|].
  exact (Email_is_case_sensitive "$" "John@example.com" "J" Hin eq_refl).
Defined.

Lemma not_in_whitespace r :
  syntax.in_class [("009", "010"); ("012", "013"); (" ", " ")]%char r = false
  ↔ r ∉ whitespace.
Proof.
  unfold syntax.in_class, whitespace. cbn [existsb fst snd].
  change (utf8.byte "009") with 9%Z. change (utf8.byte "010") with 10%Z.
  change (utf8.byte "012") with 12%Z. change (utf8.byte "013") with 13%Z.
  change (utf8.byte " ") with 32%Z.
  rewrite !not_elem_of_cons, !orb_false_iff, !andb_false_iff, !Z.leb_gt.
  split; [|lia]. intros H. repeat split; try lia. apply not_elem_of_nil.
Qed.

Lemma not_in_url_start r :
  syntax.in_class
    ([("009", "010"); ("012", "013"); (" ", " ")]
     ++ [("/", "/"); ("$", "$"); (".", "."); ("?", "?"); ("#", "#")])%char r = false
  ↔ r ∉ (whitespace ++ url_delimiters).
Proof.
  unfold syntax.in_class, whitespace, url_delimiters.
  cbn [existsb fst snd app fmap list_fmap].
  change (utf8.byte "009") with 9%Z. change (utf8.byte "010") with 10%Z.
  change (utf8.byte "012") with 12%Z. change (utf8.byte "013") with 13%Z.
  change (utf8.byte " ") with 32%Z. change (utf8.byte "/") with 47%Z.
  change (utf8.byte "$") with 36%Z. change (utf8.byte ".") with 46%Z.
  change (utf8.byte "?") with 63%Z. change (utf8.byte "#") with 35%Z.
  rewrite !not_elem_of_cons, !orb_false_iff, !andb_false_iff, !Z.leb_gt.
  split; [|lia]. intros H. repeat split; try lia. apply not_elem_of_nil.
Qed.

Lemma denotes_urlRegex rs :
  syntax.denotes urlRegex rs
  ↔ ∃ scheme r1 r2 rest,
      rs = (utf8.byte <$> String.list_ascii_of_string scheme) ++ r1 :: r2 :: rest
      ∧ scheme ∈ ["http://"; "https://"]
      ∧ (r1 ∉ whitespace ++ url_delimiters)
      ∧ r2 ≠ 10%Z
      ∧ Forall (λ r, r ∉ whitespace) rest.
Proof.
  unfold urlRegex. cbv zeta. split.
  - intros (? & ? & -> & ->%denotes_Literals_iff
            & (s_opt & ? & -> & Hs
            & (? & ? & -> & ->%denotes_Literals_iff
            & (? & ? & -> & (r1 & -> & Hr1)%single_NotCharClass
            & (? & rest & -> & (r2 & -> & Hr2)%single_AnyCharNotNL
            & Hrest%(denotes_Star_class _ _ (single_NotCharClass _))
              )%denotes_Concat_iff)%denotes_Concat_iff
              )%denotes_Concat_iff)%denotes_Concat_iff)%denotes_Concat_iff.
    apply not_in_url_start in Hr1.
    assert (Forall (λ r, r ∉ whitespace) rest) as Hrest'.
    { eapply Forall_impl; [exact Hrest|]. intros r. apply not_in_whitespace. }
    unfold syntax.Quest in Hs.
    inversion Hs as [| | | | | |? ? ? Hs'|? ? ? Hs'| |]; subst.
    + inversion Hs'; subst. exists "http://", r1, r2, rest.
      repeat split; try done. set_solver.
    + apply denotes_Literal_iff in Hs' as ->. exists "https://", r1, r2, rest.
      repeat split; try done. set_solver.
  - intros (scheme & r1 & r2 & rest & -> & Hscheme & Hr1 & Hr2 & Hrest).
    assert (syntax.denotes
              (syntax.Concat
                 (syntax.NotCharClass
                    ([("009", "010"); ("012", "013"); (" ", " ")]
                     ++ [("/", "/"); ("$", "$"); (".", "."); ("?", "?"); ("#", "#")])%char)
                 (syntax.Concat syntax.AnyCharNotNL
                    (syntax.Star
                       (syntax.NotCharClass
                          [("009", "010"); ("012", "013"); (" ", " ")]%char))))
              (r1 :: r2 :: rest)) as Htail.
    { apply denotes_Concat_iff. exists [r1], (r2 :: rest). split; [done|].
      split; [apply single_NotCharClass; exists r1; split; [done|];
              by apply not_in_url_start|].
      apply denotes_Concat_iff. exists [r2], rest. split; [done|].
      split; [apply single_AnyCharNotNL; eauto|].
      apply (denotes_Star_class _ _ (single_NotCharClass _)).
      eapply Forall_impl; [exact Hrest|]. intros r. apply not_in_whitespace. }
    apply elem_of_cons in Hscheme as [->|Hscheme];
      [|apply elem_of_cons in Hscheme as [->|Hscheme]; [|by apply elem_of_nil in Hscheme]].
    + apply denotes_Concat_iff.
      exists (utf8.byte <$> ["h"; "t"; "t"; "p"]%char),
             ((utf8.byte <$> [":"; "/"; "/"]%char) ++ r1 :: r2 :: rest).
      split; [done|]. split; [by apply denotes_Literals_iff|].
      apply denotes_Concat_iff.
      exists [], ((utf8.byte <$> [":"; "/"; "/"]%char) ++ r1 :: r2 :: rest).
      split; [done|]. split; [apply syntax.denotes_Alternate_l; constructor|].
      apply denotes_Concat_iff. eexists _, _. split; [done|].
      split; [by apply denotes_Literals_iff|done].
    + apply denotes_Concat_iff.
      exists (utf8.byte <$> ["h"; "t"; "t"; "p"]%char),
             (utf8.byte "s" :: (utf8.byte <$> [":"; "/"; "/"]%char) ++ r1 :: r2 :: rest).
      split; [done|]. split; [by apply denotes_Literals_iff|].
      apply denotes_Concat_iff.
      exists [utf8.byte "s"], ((utf8.byte <$> [":"; "/"; "/"]%char) ++ r1 :: r2 :: rest).
      split; [done|].
      split; [apply syntax.denotes_Alternate_r; by apply denotes_Literal_iff|].
      apply denotes_Concat_iff. eexists _, _. split; [done|].
      split; [by apply denotes_Literals_iff|done].
Qed.

(** X29: [URL] accepts a string exactly when its runes read [http://] or
    [https://], then a rune that is neither whitespace nor one of [/$.?#],
    then any rune but a line feed, then runes that are not whitespace.
    So at least two runes follow the scheme, and the second of them may be
    a space. *)
Theorem URL_shape (path s : string) :
  match_ URL path (VString s) = OK
  ↔ ∃ scheme r1 r2 rest,
      syntax.runes (String.list_ascii_of_string s)
      = (utf8.byte <$> String.list_ascii_of_string scheme) ++ r1 :: r2 :: rest
      ∧ scheme ∈ ["http://"; "https://"]
      ∧ (r1 ∉ whitespace ++ url_delimiters)
      ∧ r2 ≠ 10%Z
      ∧ Forall (λ r, r ∉ whitespace) rest.
Proof. unfold URL. rewrite match_stringValue_regexp. apply denotes_urlRegex. Qed.

(** X30: on a string of ASCII bytes the runes are the bytes: [URL]
    accepts it exactly when it reads [http://] or [https://], then a byte
    that is neither whitespace nor one of [/$.?#], then any byte but a
    line feed, then bytes that are not whitespace. *)
Theorem URL_ascii (path s : string) :
  let text := String.list_ascii_of_string s in
  Forall (λ c, utf8.byte c < 128)%Z text →
  match_ URL path (VString s) = OK
  ↔ ∃ scheme c1 c2 rest,
      text = String.list_ascii_of_string scheme ++ c1 :: c2 :: rest
      ∧ scheme ∈ ["http://"; "https://"]
      ∧ (utf8.byte c1 ∉ whitespace ++ url_delimiters)
      ∧ c2 ≠ "010"%char
      ∧ Forall (λ c, utf8.byte c ∉ whitespace) rest.
Proof.
  intros text Hascii. unfold URL.
  rewrite match_stringValue_regexp, denotes_urlRegex. fold text.
  rewrite (runes_ascii text) by (left; exact Hascii). split.
  - intros (scheme & r1 & r2 & rest & Htext & Hscheme & Hr1 & Hr2 & Hrest).
    apply fmap_app_inv in Htext as (prefix & ? & Hprefix & Htext & ->).
    symmetry in Htext. apply fmap_cons_inv in Htext as (c1 & ? & -> & Htext & ->).
    symmetry in Htext. apply fmap_cons_inv in Htext as (c2 & tail & -> & -> & ->).
    assert (prefix = String.list_ascii_of_string scheme) as ->.
    { apply (list_fmap_eq_inj utf8.byte byte_inj). by rewrite Hprefix. }
    exists scheme, c1, c2, tail. repeat split; try done.
    + by intros ->.
    + rewrite Forall_fmap in Hrest. exact Hrest.
  - intros (scheme & c1 & c2 & rest & -> & Hscheme & Hc1 & Hc2 & Hrest).
    exists scheme, (utf8.byte c1), (utf8.byte c2), (utf8.byte <$> rest).
    repeat split; try done.
    + by rewrite fmap_app, !fmap_cons.
    + intros H. apply Hc2. by apply byte_inj.
    + rewrite Forall_fmap. exact Hrest.
Qed.

(** The test case of the repository. *)
Lemma URL_ascii_witness :
  Forall (λ c, utf8.byte c < 128)%Z (String.list_ascii_of_string "https://example.com")
  ∧ match_ URL "$" (VString "https://example.com") = OK.
Proof.
  assert (Forall (λ c, utf8.byte c < 128)%Z
            (String.list_ascii_of_string "https://example.com")) as Hascii
    by (by repeat constructor).
  split; [exact Hascii|].
  apply (proj2 (URL_ascii "$" "https://example.com" Hascii)).
  exists "https://", "e"%char, "x"%char, (String.list_ascii_of_string "ample.com").
  split; [done|]. split; [set_solver|].
  split; [by apply not_in_url_start|]. split; [done|].
  repeat constructor; by apply not_in_whitespace.
Defined.

(** The test cases of the repository. *)
Example test_URL_Pass : match_ URL "$" (VString "https://example.com") = OK.
Proof. reflexivity. Qed.

Example test_UUID_Pass :
  match_ UUID "$" (VString "550e8400-e29b-41d4-a716-446655440000") = OK.
Proof. reflexivity. Qed.

Example test_UUID_Fail :
  match_ UUID "$" (VString "not-a-uuid")
  = Fail (Errorf "at %s: %w"
            [ArgString "$"; ArgError (Errorf "expected UUID, got %q" [ArgString "not-a-uuid"])]).
Proof. reflexivity. Qed.

Example test_Email_Pass : match_ Email "$" (VString "test@example.com") = OK.
Proof. reflexivity. Qed.

Example test_Email_Fail :
  match_ Email "$" (VString "invalid-email")
  = Fail (Errorf "at %s: %w"
            [ArgString "$"; ArgError (Errorf "expected email, got %q" [ArgString "invalid-email"])]).
Proof. reflexivity. Qed.

Example test_URL_Fail :
  match_ URL "$" (VString "not-a-url")
  = Fail (Errorf "at %s: %w"
            [ArgString "$"; ArgError (Errorf "expected valid URL, got %q" [ArgString "not-a-url"])]).
Proof. reflexivity. Qed.

(** The pattern counts runes: one letter of two bytes after the scheme
    is one rune, and is rejected; two of them are accepted. *)
Example URL_counts_runes :
  let e_acute := String.String "195" (String.String "169" EmptyString) in
  match_ URL "$" (VString ("http://" +:+ e_acute)) ≠ OK
  ∧ match_ URL "$" (VString ("http://" +:+ e_acute +:+ e_acute)) = OK.
Proof. by vm_compute. Qed.

(** ** Whole numbers *)

Lemma SFeqb_finite_same s m m' e :
  SFeqb (S754_finite s m e) (S754_finite s m' e) = bool_decide (m = m').
Proof.
  unfold SFeqb, SFcompare. rewrite Z.compare_refl.
  case_bool_decide as Hm.
  - subst. destruct s; by rewrite ?Pos.compare_refl.
  - change (Pos.compare_cont Eq m m') with (m ?= m')%positive.
    destruct s, (Pos.compare_spec m m'); simpl; congruence.
Qed.

Lemma match_Integer_OK path f :
  match_ Integer path (VFloat64 f) = OK ↔ SFeqb f (math.Trunc f) = true.
Proof.
  change (match_ Integer path (VFloat64 f))
    with (if negb (SFeqb f (math.Trunc f))
          then Fail (Errorf "expected integer, got %v" [ArgValue (VFloat64 f)])
          else OK).
  by destruct (SFeqb f (math.Trunc f)).
Qed.

Lemma Trunc_finite s m e :
  (e < 0)%Z →
  math.Trunc (S754_finite s m e)
  = match (Zpos m `div` 2 ^ (- e) * 2 ^ (- e))%Z with
    | Zpos m' => S754_finite s m' e
    | _ => S754_zero s
    end.
Proof.
  intros He. unfold math.Trunc.
  destruct (Z.leb_spec 0 e); [lia|].
  by rewrite Z.shiftr_div_pow2, Z.shiftl_mul_pow2 by lia.
Qed.

Lemma match_Integer_finite path s m e :
  match_ Integer path (VFloat64 (S754_finite s m e)) = OK ↔ whole (Zpos m) e.
Proof.
  rewrite match_Integer_OK. unfold whole.
  destruct (Z.leb_spec 0 e) as [He|He].
  - unfold math.Trunc. destruct (Z.leb_spec 0 e); [|lia].
    rewrite SFeqb_refl by done. split; [by left|done].
  - rewrite Trunc_finite by done.
    pose proof (Z.pow_pos_nonneg 2 (- e) ltac:(lia) ltac:(lia)) as Hpow.
    pose proof (Z.mul_div_le (Zpos m) (2 ^ (- e)) Hpow) as Hle.
    pose proof (Z.div_pos (Zpos m) (2 ^ (- e)) ltac:(lia) Hpow) as Hdiv.
    destruct (Z.pos m `div` 2 ^ (- e) * 2 ^ (- e))%Z as [|m'|m'] eqn:Hm'; [| |lia].
    + split; [by destruct s|]. intros [?|[k Hk]]; [lia|].
      rewrite Hk, Z.div_mul in Hm' by lia. nia.
    + rewrite SFeqb_finite_same. rewrite bool_decide_eq_true. split.
      * intros Heq. right. exists (Z.pos m `div` 2 ^ (- e))%Z.
        rewrite Hm'. by rewrite Heq.
      * intros [?|[k Hk]]; [lia|].
        rewrite Hk, Z.div_mul in Hm' by lia. f_equal. lia.
Qed.

Section rounding_whole.
Variables prec emax : Z.

Lemma shr_1_exact mrs e : exact_below mrs e → exact_below (shr_1 mrs) (e + 1).
Proof.
  intros H He. destruct (H ltac:(lia)) as ([k Hk] & Hr & Hs).
  destruct mrs as [m r s]. simpl in Hk, Hr, Hs. subst r s.
  replace (- e)%Z with (Z.succ (- (e + 1))) in Hk by lia.
  rewrite Z.pow_succ_r in Hk by lia.
  assert (m = 2 * (k * 2 ^ (- (e + 1))))%Z as Hm by lia.
  clear Hk. set (q := (k * 2 ^ (- (e + 1)))%Z) in Hm.
  assert (2 ^ (- (e + 1)) | q)%Z as Hq by (by exists k).
  destruct m as [|[p|p|]|[p|p|]]; simpl; repeat split; try lia.
  - by exists 0%Z.
  - by replace (Z.pos p) with q by lia.
  - by replace (Z.neg p) with q by lia.
Qed.

Lemma iter_pos_shr_1_exact p mrs e :
  exact_below mrs e → exact_below (SpecFloat.iter_pos shr_1 p mrs) (e + Zpos p).
Proof.
  revert mrs e. induction p as [p IH|p IH|]; intros mrs e H; simpl.
  - replace (e + Z.pos p~1)%Z with (e + 1 + Z.pos p + Z.pos p)%Z by lia.
    by apply IH, IH, shr_1_exact.
  - replace (e + Z.pos p~0)%Z with (e + Z.pos p + Z.pos p)%Z by lia.
    by apply IH, IH.
  - by apply shr_1_exact.
Qed.

Lemma shr_fexp_exact m e :
  ((e < 0)%Z → (2 ^ (- e) | m)%Z) →
  exact_below (shr_fexp prec emax m e loc_Exact).1
              (shr_fexp prec emax m e loc_Exact).2.
Proof.
  intros H. unfold shr_fexp, shr.
  assert (exact_below (shr_record_of_loc m loc_Exact) e) as Hrec.
  { intros He. by split; [apply H|]. }
  destruct (fexp prec emax (Zdigits2 m + e) - e)%Z; simpl; try done.
  by apply iter_pos_shr_1_exact.
Qed.

Lemma binary_round_aux_whole sx mx ex :
  ((ex < 0)%Z → (2 ^ (- ex) | mx)%Z) →
  match binary_round_aux prec emax sx mx ex loc_Exact with
  | S754_finite _ m e => whole (Zpos m) e
  | _ => True
  end.
Proof.
  intros H. unfold binary_round_aux.
  pose proof (shr_fexp_exact mx ex H) as H1.
  destruct (shr_fexp prec emax mx ex loc_Exact) as [mrs' e']. simpl in H1.
  assert ((e' < 0)%Z →
          (2 ^ (- e') | round_nearest_even (shr_m mrs') (loc_of_shr_record mrs'))%Z)
    as Hround.
  { intros He. destruct (H1 He) as (Hdiv & Hr & Hs).
    destruct mrs' as [m r s]. simpl in *. by subst. }
  pose proof (shr_fexp_exact _ e' Hround) as H2.
  destruct (shr_fexp prec emax _ e' loc_Exact) as [mrs'' e'']. simpl in H2.
  unfold exact_below in H2.
  destruct (shr_m mrs'') as [|m|m] eqn:Hm; try done.
  destruct (e'' <=? emax - prec)%Z; [|done].
  unfold whole. destruct (Z.le_gt_cases 0 e'') as [?|He]; [by left|right].
  by destruct (H2 He) as [? _].
Qed.

Lemma binary_normalize_whole z szero :
  match binary_normalize prec emax z 0 szero with
  | S754_finite _ m e => whole (Zpos m) e
  | _ => True
  end.
Proof.
  destruct z as [|m|m]; simpl; [done|..]; unfold binary_round, shl_align;
    (destruct (fexp prec emax (Z.pos (digits2_pos m) + 0) - 0)%Z as [|d|d] eqn:Hd;
     apply binary_round_aux_whole; [lia|lia|]);
    intros _; replace (- fexp prec emax (Z.pos (digits2_pos m) + 0))%Z with (Zpos d) by lia;
    change (Pos.iter xO m d) with (shift_pos d m);
    rewrite shift_pos_correct, Z.pow_pos_fold; by exists (Zpos m); lia.
Qed.
End rounding_whole.

(** X27: [Integer] accepts the number of every integer, whatever its
    size, and also the infinities and both zeros; it rejects NaN. *)
Theorem Integer_accepts_whole_numbers (path : string) (z : Z) (s : bool) :
  match_ Integer path (number z) = OK
  ∧ match_ Integer path (VFloat64 (S754_infinity s)) = OK
  ∧ match_ Integer path (VFloat64 (S754_zero s)) = OK
  ∧ match_ Integer path (VFloat64 S754_nan)
    = Fail (Errorf "expected integer, got %v" [ArgValue (VFloat64 S754_nan)]).
Proof.
  split; [|by destruct s]. unfold number.
  pose proof (binary_normalize_whole 53 1024 z false) as Hwhole.
  pose proof (binary_normalize_not_nan 53 1024 z 0 false) as Hnan.
  fold (float64_of_Z z) in Hwhole, Hnan.
  destruct (float64_of_Z z) as [[]|[]| |? m e]; try done.
  by apply match_Integer_finite.
Qed.

(** X28: on a finite number with mantissa [m] and exponent [e], [Integer]
    succeeds exactly when [m * 2^e] is a whole number; otherwise it fails
    with a message that names the number and no path. *)
Theorem Integer_finite_whole (path : string) (s : bool) (m : positive) (e : Z) :
  (match_ Integer path (VFloat64 (S754_finite s m e)) = OK ↔ whole (Zpos m) e)
  ∧ (¬ whole (Zpos m) e →
     match_ Integer path (VFloat64 (S754_finite s m e))
     = Fail (Errorf "expected integer, got %v" [ArgValue (VFloat64 (S754_finite s m e))])).
Proof.
  split; [apply match_Integer_finite|].
  intros Hwhole. rewrite <- (match_Integer_finite path s) in Hwhole.
  change (match_ Integer path (VFloat64 (S754_finite s m e)))
    with (if negb (SFeqb (S754_finite s m e) (math.Trunc (S754_finite s m e)))
          then Fail (Errorf "expected integer, got %v"
                       [ArgValue (VFloat64 (S754_finite s m e))])
          else OK) in *.
  destruct (SFeqb _ (math.Trunc _)); [by destruct Hwhole|done].
Qed.

(** The test case [123.45], which is [8687021468732621 * 2^-46]. *)
Lemma Integer_finite_whole_witness :
  ¬ whole 8687021468732621 (-46)
  ∧ match_ Integer "$" (VFloat64 (S754_finite false 8687021468732621 (-46)))
    = Fail (Errorf "expected integer, got %v"
              [ArgValue (VFloat64 (S754_finite false 8687021468732621 (-46)))]).
Proof.
  assert (¬ whole 8687021468732621 (-46)) as Hfraction.
  { intros [?|[k Hk]]; [lia|].
    change (2 ^ (- -46))%Z with 70368744177664%Z in Hk. lia. }
  split; [exact Hfraction|].
  exact (proj2 (Integer_finite_whole "$" false 8687021468732621 (-46)) Hfraction).
Defined.

(** The test case [123]. *)
Example test_Integer_Pass : match_ Integer "$" (number 123) = OK.
Proof. reflexivity. Qed.
